(** * aws-security-scanner: the scanner, its finding store and the reporter

    A shallow embedding of the Go sources

      - models/findings.go   ([Finding], severity and resource constants,
                              the [NewFinding] constructors),
      - scanner/scanner.go   ([Scanner], [Scan], [ScanConcurrent],
                              [addFinding], the getters),
      - scanner/s3.go, scanner/ec2.go, scanner/iam.go (the three checks),
      - reporter/reporter.go ([SortBySeverity])

    Go code that touches shared state is written in a small monad of
    programs [Prog] whose operations are exactly the shared-memory
    operations the Go code performs: allocating a [Finding], reading the
    clock, taking and releasing [Scanner.mu], reading and writing
    [Scanner.findings], the wait group and the error channel of
    [ScanConcurrent], and starting a goroutine.  One operation is one
    atomic step; goroutines are interleaved by an explicit schedule.

    Calls to the AWS SDK only read the account: they are functions of a
    [Cloud] record.  Output written with [fmt.Println] is not modelled. *)

From Stdlib Require Import ZArith Lia Sorted.
From stdpp Require Import base list strings pretty gmap.

Local Open Scope Z_scope.

(** ** models/findings.go *)

Module models.

Record Finding : Type := {
  ResourceID   : string;
  ResourceType : string;
  Severity     : string;
  Title        : string;
  Description  : string;
  Region       : string;
  Account      : string;
  Timestamp    : Z
}.

Definition SeverityCritical : string := "CRITICAL".
Definition SeverityHigh     : string := "HIGH".
Definition SeverityMedium   : string := "MEDIUM".
Definition SeverityLow      : string := "LOW".

Definition ResourceS3            : string := "S3_BUCKET".
Definition ResourceSecurityGroup : string := "SECURITY_GROUP".
Definition ResourceEBS           : string := "EBS_VOLUME".
Definition ResourceIAM           : string := "IAM_USER".

Definition set_Region (r : string) (f : Finding) : Finding :=
  {| ResourceID := ResourceID f; ResourceType := ResourceType f;
     Severity := Severity f; Title := Title f;
     Description := Description f; Region := r;
     Account := Account f; Timestamp := Timestamp f |}.

Definition set_Timestamp (t : Z) (f : Finding) : Finding :=
  {| ResourceID := ResourceID f; ResourceType := ResourceType f;
     Severity := Severity f; Title := Title f;
     Description := Description f; Region := Region f;
     Account := Account f; Timestamp := t |}.

End models.
Export models.

(** ** The shared state and the programs over it *)

(** A [*models.Finding] is an index into the heap of findings. *)
Definition loc : Type := nat.

(** Go leaves the order of [range] over a map unspecified.  An iteration
    order is produced from a seed: the elements are inserted one by one,
    each at the position its seed asks for.  Every seed gives a
    permutation and every permutation has a seed. *)
Fixpoint insert_at {X : Type} (n : nat) (x : X) (l : list X) : list X :=
  match n, l with
  | S n', y :: l' => y :: insert_at n' x l'
  | _, _ => x :: l
  end.

Fixpoint shuffle {X : Type} (seed : list nat) (l : list X) : list X :=
  match l with
  | [] => []
  | x :: l' =>
      match seed with
      | [] => x :: shuffle [] l'
      | n :: seed' => insert_at n x (shuffle seed' l')
      end
  end.

Record World : Type := {
  heap       : list Finding;       (* the findings allocated so far *)
  s_region   : string;             (* Scanner.region *)
  s_findings : list loc;           (* Scanner.findings *)
  s_mu       : bool;               (* Scanner.mu: true when locked *)
  wg         : nat;                (* the sync.WaitGroup counter *)
  ch_buf     : list string;        (* errChan: buffered errors *)
  ch_cap     : nat;                (* errChan: capacity *)
  ch_closed  : bool;               (* errChan: closed *)
  ticks      : nat;                (* calls of time.Now so far *)
  clock      : nat -> Z;           (* the time the n-th call returns *)
  ranges     : nat;                (* map iterations started so far *)
  seeds      : nat -> list nat     (* the seed of the n-th iteration *)
}.

Definition set_heap (h : list Finding) (w : World) : World :=
  {| heap := h; s_region := s_region w; s_findings := s_findings w;
     s_mu := s_mu w; wg := wg w; ch_buf := ch_buf w; ch_cap := ch_cap w;
     ch_closed := ch_closed w; ticks := ticks w; clock := clock w;
     ranges := ranges w; seeds := seeds w |}.

Definition set_findings (l : list loc) (w : World) : World :=
  {| heap := heap w; s_region := s_region w; s_findings := l;
     s_mu := s_mu w; wg := wg w; ch_buf := ch_buf w; ch_cap := ch_cap w;
     ch_closed := ch_closed w; ticks := ticks w; clock := clock w;
     ranges := ranges w; seeds := seeds w |}.

Definition set_mu (b : bool) (w : World) : World :=
  {| heap := heap w; s_region := s_region w; s_findings := s_findings w;
     s_mu := b; wg := wg w; ch_buf := ch_buf w; ch_cap := ch_cap w;
     ch_closed := ch_closed w; ticks := ticks w; clock := clock w;
     ranges := ranges w; seeds := seeds w |}.

Definition set_wg (n : nat) (w : World) : World :=
  {| heap := heap w; s_region := s_region w; s_findings := s_findings w;
     s_mu := s_mu w; wg := n; ch_buf := ch_buf w; ch_cap := ch_cap w;
     ch_closed := ch_closed w; ticks := ticks w; clock := clock w;
     ranges := ranges w; seeds := seeds w |}.

Definition set_chan (buf : list string) (cap : nat) (closed : bool)
    (w : World) : World :=
  {| heap := heap w; s_region := s_region w; s_findings := s_findings w;
     s_mu := s_mu w; wg := wg w; ch_buf := buf; ch_cap := cap;
     ch_closed := closed; ticks := ticks w; clock := clock w;
     ranges := ranges w; seeds := seeds w |}.

Definition tick (w : World) : World :=
  {| heap := heap w; s_region := s_region w; s_findings := s_findings w;
     s_mu := s_mu w; wg := wg w; ch_buf := ch_buf w; ch_cap := ch_cap w;
     ch_closed := ch_closed w; ticks := S (ticks w); clock := clock w;
     ranges := ranges w; seeds := seeds w |}.

Definition next_range (w : World) : World :=
  {| heap := heap w; s_region := s_region w; s_findings := s_findings w;
     s_mu := s_mu w; wg := wg w; ch_buf := ch_buf w; ch_cap := ch_cap w;
     ch_closed := ch_closed w; ticks := ticks w; clock := clock w;
     ranges := S (ranges w); seeds := seeds w |}.

(** Programs: a tree of shared-memory operations, each with the rest of
    the program as its continuation. *)
Inductive Prog (A : Type) : Type :=
| Ret (a : A)
| Now (k : Z -> Prog A)                      (* time.Now() *)
| Alloc (f : Finding) (k : loc -> Prog A)    (* &Finding{...} *)
| AssignRegion (p : loc) (k : Prog A)        (* p.Region = s.region *)
| Deref (p : loc) (k : Finding -> Prog A)    (* *p *)
| MuLock (k : Prog A)                        (* s.mu.Lock() *)
| MuUnlock (k : Prog A)                      (* s.mu.Unlock() *)
| LoadFindings (k : list loc -> Prog A)      (* read s.findings *)
| StoreFindings (l : list loc) (k : Prog A)  (* s.findings = l *)
| RangeMap (m : list (Z * string))
    (k : list (Z * string) -> Prog A)        (* the order of range m *)
| WgNew (k : Prog A)                         (* var wg sync.WaitGroup *)
| WgAdd (n : nat) (k : Prog A)               (* wg.Add(n) *)
| WgDone (k : Prog A)                        (* wg.Done() *)
| WgWait (k : Prog A)                        (* wg.Wait() *)
| ChanMake (cap : nat) (k : Prog A)          (* make(chan error, cap) *)
| ChanSend (e : string) (k : Prog A)         (* errChan <- e *)
| ChanClose (k : Prog A)                     (* close(errChan) *)
| ChanRecv (k : option string -> Prog A)     (* one turn of range errChan *)
| Go (g : Prog unit) (k : Prog A).           (* go func() { g }() *)

Arguments Ret {A} a.
Arguments Now {A} k.
Arguments Alloc {A} f k.
Arguments AssignRegion {A} p k.
Arguments Deref {A} p k.
Arguments MuLock {A} k.
Arguments MuUnlock {A} k.
Arguments LoadFindings {A} k.
Arguments StoreFindings {A} l k.
Arguments RangeMap {A} m k.
Arguments WgNew {A} k.
Arguments WgAdd {A} n k.
Arguments WgDone {A} k.
Arguments WgWait {A} k.
Arguments ChanMake {A} cap k.
Arguments ChanSend {A} e k.
Arguments ChanClose {A} k.
Arguments ChanRecv {A} k.
Arguments Go {A} g k.

Fixpoint bind {A B : Type} (p : Prog A) (f : A -> Prog B) : Prog B :=
  match p with
  | Ret a => f a
  | Now k => Now (fun t => bind (k t) f)
  | Alloc x k => Alloc x (fun q => bind (k q) f)
  | AssignRegion q k => AssignRegion q (bind k f)
  | Deref q k => Deref q (fun x => bind (k x) f)
  | MuLock k => MuLock (bind k f)
  | MuUnlock k => MuUnlock (bind k f)
  | LoadFindings k => LoadFindings (fun l => bind (k l) f)
  | StoreFindings l k => StoreFindings l (bind k f)
  | RangeMap m k => RangeMap m (fun o => bind (k o) f)
  | WgNew k => WgNew (bind k f)
  | WgAdd n k => WgAdd n (bind k f)
  | WgDone k => WgDone (bind k f)
  | WgWait k => WgWait (bind k f)
  | ChanMake c k => ChanMake c (bind k f)
  | ChanSend e k => ChanSend e (bind k f)
  | ChanClose k => ChanClose (bind k f)
  | ChanRecv k => ChanRecv (fun e => bind (k e) f)
  | Go g k => Go g (bind k f)
  end.

#[global] Instance Prog_ret : MRet Prog := @Ret.
#[global] Instance Prog_bind : MBind Prog := fun A B f p => bind p f.

(** What one step of a program does. *)
Inductive Res (A : Type) : Type :=
| Halt (a : A)                                  (* the program returned *)
| Step (p : Prog A) (w : World) (new : list (Prog unit))
| Blocked                                       (* it must wait *)
| Panic.                                        (* a run-time panic *)

Arguments Halt {A} a.
Arguments Step {A} p w new.
Arguments Blocked {A}.
Arguments Panic {A}.

Definition step {A : Type} (p : Prog A) (w : World) : Res A :=
  match p with
  | Ret a => Halt a
  | Now k => Step (k (clock w (ticks w))) (tick w) []
  | Alloc f k => Step (k (length (heap w))) (set_heap (heap w ++ [f]) w) []
  | AssignRegion q k =>
      match heap w !! q with
      | Some f => Step k (set_heap (<[q := set_Region (s_region w) f]> (heap w)) w) []
      | None => Panic
      end
  | Deref q k =>
      match heap w !! q with
      | Some f => Step (k f) w []
      | None => Panic
      end
  | MuLock k => if s_mu w then Blocked else Step k (set_mu true w) []
  | MuUnlock k => if s_mu w then Step k (set_mu false w) [] else Panic
  | LoadFindings k => Step (k (s_findings w)) w []
  | StoreFindings l k => Step k (set_findings l w) []
  | RangeMap m k =>
      Step (k (shuffle (seeds w (ranges w)) m)) (next_range w) []
  | WgNew k => Step k (set_wg 0 w) []
  | WgAdd n k => Step k (set_wg (wg w + n)%nat w) []
  | WgDone k =>
      match wg w with
      | O => Panic
      | S n => Step k (set_wg n w) []
      end
  | WgWait k =>
      match wg w with
      | O => Step k w []
      | S _ => Blocked
      end
  | ChanMake c k => Step k (set_chan [] c false w) []
  | ChanSend e k =>
      if ch_closed w then Panic
      else if bool_decide (length (ch_buf w) < ch_cap w)%nat
           then Step k (set_chan (ch_buf w ++ [e]) (ch_cap w) false w) []
           else Blocked
  | ChanClose k =>
      if ch_closed w then Panic
      else Step k (set_chan (ch_buf w) (ch_cap w) true w) []
  | ChanRecv k =>
      match ch_buf w with
      | e :: rest =>
          Step (k (Some e)) (set_chan rest (ch_cap w) (ch_closed w) w) []
      | [] => if ch_closed w then Step (k None) w [] else Blocked
      end
  | Go g k => Step k w [g]
  end.

(** A program that starts no goroutine, run to its end by one goroutine:
    [None] when it blocks for ever, panics or starts a goroutine. *)
Fixpoint run {A : Type} (p : Prog A) (w : World) : option (A * World) :=
  match p with
  | Ret a => Some (a, w)
  | Now k => run (k (clock w (ticks w))) (tick w)
  | Alloc f k => run (k (length (heap w))) (set_heap (heap w ++ [f]) w)
  | AssignRegion q k =>
      match heap w !! q with
      | Some f => run k (set_heap (<[q := set_Region (s_region w) f]> (heap w)) w)
      | None => None
      end
  | Deref q k =>
      match heap w !! q with
      | Some f => run (k f) w
      | None => None
      end
  | MuLock k => if s_mu w then None else run k (set_mu true w)
  | MuUnlock k => if s_mu w then run k (set_mu false w) else None
  | LoadFindings k => run (k (s_findings w)) w
  | StoreFindings l k => run k (set_findings l w)
  | RangeMap m k => run (k (shuffle (seeds w (ranges w)) m)) (next_range w)
  | WgNew k => run k (set_wg 0 w)
  | WgAdd n k => run k (set_wg (wg w + n)%nat w)
  | WgDone k =>
      match wg w with
      | O => None
      | S n => run k (set_wg n w)
      end
  | WgWait k =>
      match wg w with
      | O => run k w
      | S _ => None
      end
  | ChanMake c k => run k (set_chan [] c false w)
  | ChanSend e k =>
      if ch_closed w then None
      else if bool_decide (length (ch_buf w) < ch_cap w)%nat
           then run k (set_chan (ch_buf w ++ [e]) (ch_cap w) false w)
           else None
  | ChanClose k =>
      if ch_closed w then None
      else run k (set_chan (ch_buf w) (ch_cap w) true w)
  | ChanRecv k =>
      match ch_buf w with
      | e :: rest => run (k (Some e)) (set_chan rest (ch_cap w) (ch_closed w) w)
      | [] => if ch_closed w then run (k None) w else None
      end
  | Go _ _ => None
  end.

(** The goroutines of a run: the one that made the call, and those it
    started. *)
Record Pool (A : Type) : Type := {
  p_main : Prog A;
  p_kids : list (Prog unit)
}.
Arguments p_main {A} _.
Arguments p_kids {A} _.
Arguments Build_Pool {A} _ _.

(** One turn of the scheduler: goroutine [0] is the caller, [S i] the
    [i]-th goroutine started.  A goroutine that cannot move (it returned,
    waits or panicked) keeps its turn without effect. *)
Definition turn {A : Type} (i : nat) (st : Pool A * World) : Pool A * World :=
  let '(ps, w) := st in
  match i with
  | O =>
      match step (p_main ps) w with
      | Step p' w' new => (Build_Pool p' (p_kids ps ++ new), w')
      | _ => st
      end
  | S j =>
      match p_kids ps !! j with
      | Some g =>
          match step g w with
          | Step g' w' new => (Build_Pool (p_main ps) (<[j := g']> (p_kids ps) ++ new), w')
          | _ => st
          end
      | None => st
      end
  end.

Definition exec {A : Type} (sch : list nat) (st : Pool A * World) : Pool A * World :=
  fold_left (fun st i => turn i st) sch st.

(** ** The AWS account, as the SDK clients of the session answer *)

Inductive result (A : Type) : Type :=
| Ok (a : A)
| Err (e : string).
Arguments Ok {A} a.
Arguments Err {A} e.

(** A Go [error]: [None] is [nil], [Some msg] an error with that text. *)
Definition error : Type := option string.

(** The SDK's response types, with the members the scanner reads.  The
    members the code dereferences without a test ([*bucket.Name],
    [*sg.GroupId], [grant.Grantee], [*ipRange.CidrIp], ...) are always
    set by the SDK and are plain values here; the members the code tests
    against [nil] are options. *)
Record Bucket : Type := { bucket_Name : string }.
Record Grantee : Type := { URI : option string }.
Record Grant : Type := { grant_Grantee : Grantee }.
Record IpRange : Type := { CidrIp : string }.
Record IpPermission : Type := {
  FromPort : option Z;
  ToPort   : option Z;
  IpRanges : list IpRange
}.
Record SecurityGroup : Type := {
  GroupId       : string;
  GroupName     : string;
  IpPermissions : list IpPermission
}.
Record User : Type := { UserName : string }.
Record MFADevice : Type := { SerialNumber : string }.
Record AccessKeyMetadata : Type := {
  key_Status : string;
  CreateDate : Z
}.

Record Cloud : Type := {
  ListBuckets            : result (list Bucket);
  GetBucketEncryption    : string -> result unit;
  GetBucketAcl           : string -> result (list Grant);
  GetBucketVersioning    : string -> result (option string);
  DescribeSecurityGroups : result (list SecurityGroup);
  ListUsers              : result (list User);
  GetLoginProfile        : string -> result unit;
  ListMFADevices         : string -> result (list MFADevice);
  ListAccessKeys         : string -> result (list AccessKeyMetadata)
}.

(** ** models: the constructors *)

Definition NewFinding (resourceID resourceType severity title description : string)
    : Prog loc :=
  t ← Now Ret;
  Alloc {| ResourceID := resourceID; ResourceType := resourceType;
           Severity := severity; Title := title;
           Description := description; Region := ""; Account := "";
           Timestamp := t |} Ret.

Definition NewCriticalFinding (resourceID resourceType title description : string)
    : Prog loc :=
  NewFinding resourceID resourceType SeverityCritical title description.

Definition NewHighFinding (resourceID resourceType title description : string)
    : Prog loc :=
  NewFinding resourceID resourceType SeverityHigh title description.

Definition NewMediumFinding (resourceID resourceType title description : string)
    : Prog loc :=
  NewFinding resourceID resourceType SeverityMedium title description.

(** ** scanner *)

(** [for _, x := range xs { body x }] over a slice. *)
Fixpoint for_each {X : Type} (xs : list X) (body : X -> Prog unit) : Prog unit :=
  match xs with
  | [] => Ret tt
  | x :: xs' => body x ;; for_each xs' body
  end.

(** scanner.go *)

Definition addFinding (finding : loc) : Prog unit :=
  MuLock (Ret tt) ;;
  AssignRegion finding (Ret tt) ;;
  fs ← LoadFindings Ret;
  StoreFindings (fs ++ [finding]) (Ret tt) ;;
  MuUnlock (Ret tt).                           (* the deferred Unlock *)

Definition GetFindings : Prog (list loc) :=
  LoadFindings Ret.

Fixpoint filter_severity (severity : string) (fs filtered : list loc)
    : Prog (list loc) :=
  match fs with
  | [] => Ret filtered
  | finding :: fs' =>
      f ← Deref finding Ret;
      if bool_decide (Severity f = severity)
      then filter_severity severity fs' (filtered ++ [finding])
      else filter_severity severity fs' filtered
  end.

Definition GetFindingsBySeverity (severity : string) : Prog (list loc) :=
  fs ← LoadFindings Ret;
  filter_severity severity fs [].

Definition GetCriticalFindings : Prog (list loc) :=
  GetFindingsBySeverity SeverityCritical.

(** ec2.go *)

Definition criticalPorts : list (Z * string) :=
  [ (22, "SSH"); (3389, "RDP"); (5432, "PostgreSQL"); (3306, "MySQL");
    (1433, "SQL Server"); (27017, "MongoDB"); (6379, "Redis") ].

Definition port_title (service : string) : string :=
  service +:+ " Port Publicly Accessible".

Definition port_description (sgName sgID service : string) (port : Z) : string :=
  "Security group '" +:+ sgName +:+ "' (" +:+ sgID +:+ ") allows "
    +:+ service +:+ " access (port " +:+ pretty port +:+ ") "
    +:+ "from the entire internet (0.0.0.0/0). This is a critical security risk.".

Definition all_ports_description (sgName sgID : string) : string :=
  "Security group '" +:+ sgName +:+ "' (" +:+ sgID
    +:+ ") allows ALL ports from anywhere. "
    +:+ "This is extremely dangerous.".

Definition checkPublicAccess (sgID sgName : string) (fromPort toPort : Z)
    : Prog unit :=
  order ← RangeMap criticalPorts Ret;
  for_each order (fun '(port, service) =>
    if (port >=? fromPort) && (port <=? toPort) then
      finding ← NewCriticalFinding sgID ResourceSecurityGroup
                  (port_title service)
                  (port_description sgName sgID service port);
      addFinding finding
    else Ret tt) ;;
  if (fromPort =? 0) && (toPort =? 65535) then
    finding ← NewCriticalFinding sgID ResourceSecurityGroup
                "All Ports Publicly Accessible"
                (all_ports_description sgName sgID);
    addFinding finding
  else Ret tt.

(** The body of the loop of [checkSecurityGroupRules] over the ingress
    rules of a group: the work done for one rule. *)
Definition check_permission (sgID sgName : string) (permission : IpPermission)
    : Prog unit :=
  let fromPort := match FromPort permission with Some p => p | None => 0 end in
  let toPort := match ToPort permission with Some p => p | None => 0 end in
  for_each (IpRanges permission) (fun ipRange =>
    let cidr := CidrIp ipRange in
    if bool_decide (cidr = "0.0.0.0/0")
    then checkPublicAccess sgID sgName fromPort toPort
    else Ret tt).

Definition checkSecurityGroupRules (sg : SecurityGroup) : Prog unit :=
  let sgID := GroupId sg in
  let sgName := GroupName sg in
  for_each (IpPermissions sg) (check_permission sgID sgName).

(** s3.go *)

Definition AllUsers : string :=
  "http://acs.amazonaws.com/groups/global/AllUsers".
Definition AuthenticatedUsers : string :=
  "http://acs.amazonaws.com/groups/global/AuthenticatedUsers".

(** The loop of [checkBucketPublicAccess] over the grants; the [return]
    inside it leaves the function. *)
Fixpoint scan_grants (bucketName : string) (grants : list Grant) : Prog unit :=
  match grants with
  | [] => Ret tt
  | grant :: rest =>
      match URI (grant_Grantee grant) with
      | Some uri =>
          if bool_decide (uri = AllUsers) || bool_decide (uri = AuthenticatedUsers)
          then
            finding ← NewCriticalFinding bucketName ResourceS3
                        "S3 Bucket Publicly Accessible"
                        ("Bucket '" +:+ bucketName +:+ "' allows public access via ACL. "
                           +:+ "This could expose sensitive data to the internet.");
            addFinding finding                 (* return *)
          else scan_grants bucketName rest
      | None => scan_grants bucketName rest
      end
  end.

(** iam.go: the loop of [checkUserAccessKeys]; its body has no effect. *)
Definition scan_keys (keys : list AccessKeyMetadata) : Prog unit :=
  for_each keys (fun key =>
    if bool_decide (key_Status key = "Active")
    then let keyAge := CreateDate key in Ret tt
    else Ret tt).

Section Scanner.

(** The service clients made from [s.session]. *)
Variable svc : Cloud.

Definition checkBucketEncryption (bucket : Bucket) : Prog unit :=
  let bucketName := bucket_Name bucket in
  match GetBucketEncryption svc bucketName with
  | Err _ =>
      finding ← NewHighFinding bucketName ResourceS3
                  "S3 Bucket Not Encrypted"
                  ("Bucket '" +:+ bucketName
                     +:+ "' does not have server-side encryption enabled. "
                     +:+ "Data at rest is not protected.");
      addFinding finding
  | Ok _ => Ret tt
  end.

Definition checkBucketPublicAccess (bucket : Bucket) : Prog unit :=
  let bucketName := bucket_Name bucket in
  match GetBucketAcl svc bucketName with
  | Err _ => Ret tt
  | Ok grants => scan_grants bucketName grants
  end.

Definition checkBucketVersioning (bucket : Bucket) : Prog unit :=
  let bucketName := bucket_Name bucket in
  match GetBucketVersioning svc bucketName with
  | Err _ => Ret tt
  | Ok status =>
      if match status with
         | None => true
         | Some st => negb (bool_decide (st = "Enabled"))
         end
      then
        finding ← NewMediumFinding bucketName ResourceS3
                    "S3 Bucket Versioning Disabled"
                    ("Bucket '" +:+ bucketName
                       +:+ "' does not have versioning enabled. "
                       +:+ "Cannot recover from accidental deletion or modification.");
        addFinding finding
      else Ret tt
  end.

Definition scanS3 : Prog error :=
  match ListBuckets svc with
  | Err err => Ret (Some ("failed to list S3 buckets: " +:+ err))
  | Ok buckets =>
      for_each buckets (fun bucket =>
        checkBucketEncryption bucket ;;
        checkBucketPublicAccess bucket ;;
        checkBucketVersioning bucket) ;;
      Ret None
  end.

Definition scanSecurityGroups : Prog error :=
  match DescribeSecurityGroups svc with
  | Err err => Ret (Some ("failed to describe security groups: " +:+ err))
  | Ok groups =>
      for_each groups checkSecurityGroupRules ;;
      Ret None
  end.

Definition checkUserMFA (user : User) : Prog unit :=
  let userName := UserName user in
  match GetLoginProfile svc userName with
  | Err _ => Ret tt
  | Ok _ =>
      match ListMFADevices svc userName with
      | Err _ => Ret tt
      | Ok devices =>
          if bool_decide (length devices = 0%nat) then
            finding ← NewHighFinding userName ResourceIAM
                        "IAM User Without MFA"
                        ("IAM user '" +:+ userName
                           +:+ "' has console access but no MFA device configured. "
                           +:+ "MFA provides critical additional security layer.");
            addFinding finding
          else Ret tt
      end
  end.

Definition checkUserAccessKeys (user : User) : Prog unit :=
  let userName := UserName user in
  match ListAccessKeys svc userName with
  | Err _ => Ret tt
  | Ok keys => scan_keys keys
  end.

Definition scanIAM : Prog error :=
  match ListUsers svc with
  | Err err => Ret (Some ("failed to list IAM users: " +:+ err))
  | Ok users =>
      for_each users (fun user =>
        checkUserMFA user ;;
        checkUserAccessKeys user) ;;
      Ret None
  end.

Definition Scan : Prog error :=
  err ← scanS3;
  match err with
  | Some e => Ret (Some ("S3 scan failed: " +:+ e))
  | None =>
  err ← scanSecurityGroups;
  match err with
  | Some e => Ret (Some ("Security Group scan failed: " +:+ e))
  | None =>
  err ← scanIAM;
  match err with
  | Some e => Ret (Some ("IAM scan failed: " +:+ e))
  | None =>
  n ← LoadFindings (fun fs => Ret (length fs));   (* len(s.findings), printed *)
  Ret None
  end end end.

(** The body of a goroutine of [ScanConcurrent]; [wg.Done] is deferred. *)
Definition scan_task (check : Prog error) : Prog unit :=
  err ← check;
  match err with
  | Some e => ChanSend e (Ret tt)
  | None => Ret tt
  end ;;
  WgDone (Ret tt).

(** Only errors that are not [nil] are sent on [errChan], so the values
    on the channel are error texts and the test [err != nil] inside
    [range errChan] holds for the first value received. *)
Definition ScanConcurrent : Prog error :=
  WgNew (Ret tt) ;;
  ChanMake 3 (Ret tt) ;;
  WgAdd 1 (Ret tt) ;;
  Go (scan_task scanS3) (Ret tt) ;;
  WgAdd 1 (Ret tt) ;;
  Go (scan_task scanSecurityGroups) (Ret tt) ;;
  WgAdd 1 (Ret tt) ;;
  Go (scan_task scanIAM) (Ret tt) ;;
  WgWait (Ret tt) ;;
  ChanClose (Ret tt) ;;
  r ← ChanRecv Ret;
  match r with
  | Some err => Ret (Some err)
  | None =>
      n ← LoadFindings (fun fs => Ret (length fs)); (* len(s.findings), printed *)
      Ret None
  end.

End Scanner.

(** ** Running a program: basic facts *)

Lemma run_bind {A B : Type} (p : Prog A) (f : A -> Prog B) (w : World) :
  run (bind p f) w =
  match run p w with
  | Some (a, w') => run (f a) w'
  | None => None
  end.
Proof.
  revert w. induction p; intros w; simpl; auto.
  - destruct (heap w !! p); auto.
  - destruct (heap w !! p); auto.
  - destruct (s_mu w); auto.
  - destruct (s_mu w); auto.
  - destruct (wg w); auto.
  - destruct (wg w); auto.
  - destruct (ch_closed w); auto. case_bool_decide; auto.
  - destruct (ch_closed w); auto.
  - destruct (ch_buf w); auto. destruct (ch_closed w); auto.
Qed.

(** Allocating a finding, then [addFinding] on it, then [k]: the shape
    every report of a check has. *)
Definition emit_then {A : Type} (mk : Z -> Finding) (k : Prog A) : Prog A :=
  Now (fun t =>
    Alloc (mk t) (fun q =>
      MuLock (AssignRegion q (LoadFindings (fun fs =>
        StoreFindings (fs ++ [q]) (MuUnlock k)))))).

(** The store after a finding was allocated and appended. *)
Definition appended (f : Finding) (w : World) : World :=
  set_findings (s_findings w ++ [length (heap w)])
    (set_heap (heap w ++ [set_Region (s_region w) f]) w).

(** Every pointer of the store points into the heap. *)
Definition wf (w : World) : Prop :=
  Forall (fun p => p < length (heap w))%nat (s_findings w).

(** The findings of the store, in store order. *)
Definition findings_of (w : World) : list Finding :=
  omap (fun p => heap w !! p) (s_findings w).

Lemma insert_last {X : Type} (l : list X) (x y : X) :
  <[length l := y]> (l ++ [x]) = l ++ [y].
Proof.
  induction l as [|z l IH]; simpl; [reflexivity|]. by rewrite IH.
Qed.

Lemma run_emit_then {A : Type} (mk : Z -> Finding) (k : Prog A) (w : World) :
  s_mu w = false ->
  run (emit_then mk k) w = run k (appended (mk (clock w (ticks w))) (tick w)).
Proof.
  intros Hmu. destruct w as [h r fs mu g cb cc cl tk ck rg sd].
  simpl in Hmu. subst mu. unfold emit_then, appended. simpl.
  rewrite lookup_app_r by lia. rewrite Nat.sub_diag. simpl.
  unfold set_heap, set_findings, set_mu, tick. simpl.
  rewrite insert_last. reflexivity.
Qed.

Lemma wf_appended f w : wf w -> wf (appended f w).
Proof.
  unfold wf, appended. simpl. intros H. rewrite length_app. simpl.
  apply Forall_app. split.
  - eapply Forall_impl; [exact H|]. simpl. intros; lia.
  - constructor; [lia|constructor].
Qed.

Lemma omap_lookup_app_l (h h' : list Finding) (l : list loc) :
  Forall (fun p => p < length h)%nat l ->
  omap (fun p => (h ++ h') !! p) l = omap (fun p => h !! p) l.
Proof.
  induction 1 as [|p l Hp _ IH]; [reflexivity|].
  unfold omap in *. simpl. rewrite lookup_app_l by exact Hp. by rewrite IH.
Qed.

Lemma findings_of_appended f w :
  wf w ->
  findings_of (appended f w) = findings_of w ++ [set_Region (s_region w) f].
Proof.
  intros H. unfold findings_of, appended. simpl.
  rewrite omap_app. simpl.
  rewrite lookup_app_r by lia. rewrite Nat.sub_diag. simpl.
  by rewrite omap_lookup_app_l.
Qed.

Lemma findings_of_tick w : findings_of (tick w) = findings_of w.
Proof. reflexivity. Qed.

Lemma findings_of_next_range w : findings_of (next_range w) = findings_of w.
Proof. reflexivity. Qed.

Lemma insert_at_perm {X : Type} (n : nat) (x : X) (l : list X) :
  insert_at n x l ≡ₚ x :: l.
Proof.
  revert n. induction l as [|y l IH]; intros [|n]; simpl; try reflexivity.
  rewrite IH. apply perm_swap.
Qed.

Lemma shuffle_perm {X : Type} (seed : list nat) (l : list X) :
  shuffle seed l ≡ₚ l.
Proof.
  revert seed. induction l as [|x l IH]; intros seed; simpl; [reflexivity|].
  destruct seed as [|n seed].
  - by rewrite IH.
  - rewrite insert_at_perm. by rewrite IH.
Qed.

(** ** Programs that only report findings *)

(** The finding a check built, as it is compared across runs: without the
    time of its creation. *)
Definition strip (f : Finding) : Finding := set_Timestamp 0 f.

(** [Acts p es errs d a]: whatever the clock and the iteration orders,
    [p] reports the findings [es] (up to their timestamps, and up to
    order below a map iteration) through [addFinding], sends the errors
    [errs] on the error channel, ends with [d] calls of [wg.Done] (none
    or one), returns [a], and does nothing else to the shared state. *)
Inductive Acts {A : Type} : Prog A -> list Finding -> list string -> nat -> A -> Prop :=
| Acts_Ret a : Acts (Ret a) [] [] 0 a
| Acts_emit mk k f es errs d a :
    (forall t, strip (mk t) = f) ->
    Acts k es errs d a ->
    Acts (emit_then mk k) (f :: es) errs d a
| Acts_Range m k (eso : list (Z * string) -> list Finding) es errs d a :
    (forall o, o ≡ₚ m -> eso o ≡ₚ es) ->
    (forall o, o ≡ₚ m -> Acts (k o) (eso o) errs d a) ->
    Acts (RangeMap m k) es errs d a
| Acts_Send e k es errs d a :
    Acts k es errs d a ->
    Acts (ChanSend e k) es (e :: errs) d a
| Acts_Done a : Acts (WgDone (Ret a)) [] [] 1 a.

(** A program that only reports findings. *)
Definition Emits {A : Type} (p : Prog A) (es : list Finding) (a : A) : Prop :=
  Acts p es [] 0%nat a.

Lemma Emits_Ret {A : Type} (a : A) : Emits (Ret a) [] a.
Proof. constructor. Qed.

Lemma Acts_bind {A B : Type} (p : Prog A) (f : A -> Prog B) es es' errs d a b :
  Emits p es a -> Acts (f a) es' errs d b -> Acts (bind p f) (es ++ es') errs d b.
Proof.
  unfold Emits. intros Hp Hf.
  remember (@nil string) as no eqn:Hno. remember 0%nat as z eqn:Hz.
  induction Hp as [a|mk k g es errs0 d0 a Hmk Hk IH|m k eso es errs0 d0 a Hes Hk IH
                  |e k es errs0 d0 a Hk IH|a]; try discriminate.
  - exact Hf.
  - simpl. apply (Acts_emit mk (bind k f) g (es ++ es') errs d b Hmk).
    exact (IH Hno Hz Hf).
  - simpl. apply (Acts_Range m _ (fun o => eso o ++ es')).
    + intros o Ho. by rewrite (Hes o Ho).
    + intros o Ho. exact (IH o Ho Hno Hz Hf).
Qed.

Lemma Emits_bind {A B : Type} (p : Prog A) (f : A -> Prog B) es es' a b :
  Emits p es a -> Emits (f a) es' b -> Emits (bind p f) (es ++ es') b.
Proof. apply Acts_bind. Qed.

Lemma Emits_seq {B : Type} (p : Prog unit) (q : Prog B) es es' b :
  Emits p es tt -> Emits q es' b -> Emits (p ;; q) (es ++ es') b.
Proof. intros Hp Hq. exact (Emits_bind p (fun _ => q) es es' tt b Hp Hq). Qed.

Lemma Emits_for_each {X : Type} (xs : list X) (body : X -> Prog unit)
    (out : X -> list Finding) :
  (forall x, x ∈ xs -> Emits (body x) (out x) tt) ->
  Emits (for_each xs body) (concat (map out xs)) tt.
Proof.
  induction xs as [|x xs IH]; intros H; simpl.
  - apply Emits_Ret.
  - apply Emits_seq.
    + apply H. left.
    + apply IH. intros y Hy. apply H. by right.
Qed.

Lemma Emits_for_each_ex {X : Type} (xs : list X) (body : X -> Prog unit) :
  (forall x, x ∈ xs -> exists es, Emits (body x) es tt) ->
  exists es, Emits (for_each xs body) es tt.
Proof.
  induction xs as [|x xs IH]; intros H; simpl.
  - exists []. apply Emits_Ret.
  - destruct (H x) as [es Hes]; [left|].
    destruct IH as [es' Hes']; [intros y Hy; apply H; by right|].
    exists (es ++ es'). by apply Emits_seq.
Qed.

(** The findings reported by a program, as the store holds them. *)
Definition stored (w : World) (es : list Finding) : list Finding :=
  map (set_Region (s_region w)) es.

(** Run by one goroutine, such a program returns, and the store grows by
    the findings it reports. *)
Lemma run_Emits {A : Type} (p : Prog A) es a :
  Emits p es a ->
  forall w, s_mu w = false -> wf w ->
  exists w' fs,
    run p w = Some (a, w') /\
    s_mu w' = false /\ wf w' /\ s_region w' = s_region w /\
    findings_of w' = findings_of w ++ fs /\
    map strip fs ≡ₚ stored w es.
Proof.
  unfold Emits. intros Hp.
  remember (@nil string) as no eqn:Hno. remember 0%nat as z eqn:Hz.
  induction Hp as [a|mk k g es errs0 d0 a Hmk Hk IH|m k eso es errs0 d0 a Hes Hk IH
                  |e k es errs0 d0 a Hk IH|a]; try discriminate;
    intros w Hmu Hwf.
  - exists w, []. rewrite app_nil_r. by repeat split.
  - rewrite run_emit_then by exact Hmu.
    set (f := mk (clock w (ticks w))).
    destruct (IH Hno Hz (appended f (tick w)))
      as (w' & fs & Hrun & Hmu' & Hwf' & Hreg & Hfs & Hperm).
    { exact Hmu. } { apply wf_appended. exact Hwf. }
    exists w', (set_Region (s_region w) f :: fs).
    repeat split; auto.
    + rewrite Hfs. rewrite findings_of_appended by exact Hwf.
      simpl. by rewrite <- app_assoc.
    + simpl. rewrite Hperm. unfold stored. simpl.
      rewrite <- (Hmk (clock w (ticks w))). reflexivity.
  - simpl.
    destruct (IH (shuffle (seeds w (ranges w)) m) (shuffle_perm _ _) Hno Hz (next_range w))
      as (w' & fs & Hrun & Hmu' & Hwf' & Hreg & Hfs & Hperm); auto.
    exists w', fs. repeat split; auto.
    rewrite Hperm. unfold stored. simpl.
    by rewrite (Hes _ (shuffle_perm (seeds w (ranges w)) m)).
Qed.

(** *** What each check reports *)

Definition finding0 (resourceID resourceType severity title description : string)
    : Finding :=
  {| ResourceID := resourceID; ResourceType := resourceType;
     Severity := severity; Title := title; Description := description;
     Region := ""; Account := ""; Timestamp := 0 |}.

Lemma Emits_report (resourceID resourceType severity title description : string) :
  Emits (finding ← NewFinding resourceID resourceType severity title description;
         addFinding finding)
        [finding0 resourceID resourceType severity title description] tt.
Proof.
  apply (Acts_emit
           (fun t => {| ResourceID := resourceID; ResourceType := resourceType;
                        Severity := severity; Title := title;
                        Description := description; Region := "";
                        Account := ""; Timestamp := t |})
           (Ret tt) _ [] [] 0%nat tt).
  - reflexivity.
  - constructor.
Qed.

Definition port_finding (sgID sgName : string) (entry : Z * string) : Finding :=
  finding0 sgID ResourceSecurityGroup SeverityCritical
    (port_title entry.2) (port_description sgName sgID entry.2 entry.1).

Definition all_ports_finding (sgID sgName : string) : Finding :=
  finding0 sgID ResourceSecurityGroup SeverityCritical
    "All Ports Publicly Accessible" (all_ports_description sgName sgID).

Definition in_range (fromPort toPort : Z) (entry : Z * string) : bool :=
  (entry.1 >=? fromPort) && (entry.1 <=? toPort).

Definition public_access_findings (sgID sgName : string) (fromPort toPort : Z)
    : list Finding :=
  map (port_finding sgID sgName)
      (List.filter (in_range fromPort toPort) criticalPorts)
  ++ (if (fromPort =? 0) && (toPort =? 65535)
      then [all_ports_finding sgID sgName] else []).

Lemma concat_map_if {X Y : Type} (c : X -> bool) (g : X -> Y) (l : list X) :
  concat (map (fun x => if c x then [g x] else []) l) = map g (List.filter c l).
Proof.
  induction l as [|x l IH]; simpl; [reflexivity|].
  destruct (c x); simpl; by rewrite IH.
Qed.

Lemma Emits_checkPublicAccess sgID sgName fromPort toPort :
  Emits (checkPublicAccess sgID sgName fromPort toPort)
        (public_access_findings sgID sgName fromPort toPort) tt.
Proof.
  unfold checkPublicAccess.
  apply (Acts_Range _ _
    (fun o => concat (map (fun e => if in_range fromPort toPort e
                                    then [port_finding sgID sgName e] else []) o)
              ++ (if (fromPort =? 0) && (toPort =? 65535)
                  then [all_ports_finding sgID sgName] else []))).
  - intros o Ho. unfold public_access_findings. apply Permutation_app_tail.
    rewrite <- concat_map_if. rewrite Ho. reflexivity.
  - intros o Ho. apply Emits_seq.
    + apply Emits_for_each. intros [port service] _. unfold in_range. simpl.
      destruct ((port >=? fromPort) && (port <=? toPort)).
      * apply Emits_report.
      * apply Emits_Ret.
    + destruct ((fromPort =? 0) && (toPort =? 65535)).
      * apply Emits_report.
      * apply Emits_Ret.
Qed.

Definition unrestricted (ipRange : IpRange) : bool :=
  bool_decide (CidrIp ipRange = "0.0.0.0/0").

Definition permission_findings (sgID sgName : string) (permission : IpPermission)
    : list Finding :=
  concat (map (fun ipRange =>
                 if unrestricted ipRange
                 then public_access_findings sgID sgName
                        (default 0 (FromPort permission))
                        (default 0 (ToPort permission))
                 else [])
              (IpRanges permission)).

Lemma Emits_check_permission sgID sgName permission :
  Emits (check_permission sgID sgName permission)
        (permission_findings sgID sgName permission) tt.
Proof.
  unfold check_permission, permission_findings.
  apply Emits_for_each. intros r _. unfold unrestricted.
  case_bool_decide.
  - destruct (FromPort permission), (ToPort permission); apply Emits_checkPublicAccess.
  - apply Emits_Ret.
Qed.

Lemma Emits_checkSecurityGroupRules sg :
  Emits (checkSecurityGroupRules sg)
        (concat (map (permission_findings (GroupId sg) (GroupName sg))
                     (IpPermissions sg))) tt.
Proof.
  unfold checkSecurityGroupRules. apply Emits_for_each.
  intros p _. apply Emits_check_permission.
Qed.

Definition is_public (grant : Grant) : bool :=
  match URI (grant_Grantee grant) with
  | Some uri => bool_decide (uri = AllUsers) || bool_decide (uri = AuthenticatedUsers)
  | None => false
  end.

Definition public_bucket_finding (bucketName : string) : Finding :=
  finding0 bucketName ResourceS3 SeverityCritical
    "S3 Bucket Publicly Accessible"
    ("Bucket '" +:+ bucketName +:+ "' allows public access via ACL. "
       +:+ "This could expose sensitive data to the internet.").

Lemma Emits_scan_grants bucketName grants :
  Emits (scan_grants bucketName grants)
        (if existsb is_public grants then [public_bucket_finding bucketName] else [])
        tt.
Proof.
  induction grants as [|g grants IH]; simpl.
  - apply Emits_Ret.
  - unfold is_public at 1. destruct (URI (grant_Grantee g)) as [uri|]; simpl.
    + destruct (bool_decide (uri = AllUsers) || bool_decide (uri = AuthenticatedUsers)); simpl.
      * apply Emits_report.
      * exact IH.
    + exact IH.
Qed.

(** Once a public grant is met, the grants after it are not looked at. *)
Lemma scan_grants_stops bucketName pre g post post' :
  is_public g = true ->
  scan_grants bucketName (pre ++ g :: post) = scan_grants bucketName (pre ++ g :: post').
Proof.
  intros Hg. induction pre as [|x pre IH]; simpl.
  - unfold is_public in Hg. destruct (URI (grant_Grantee g)) as [uri|]; [|discriminate].
    by rewrite Hg.
  - destruct (URI (grant_Grantee x)) as [uri|]; [|exact IH].
    destruct (bool_decide (uri = AllUsers) || bool_decide (uri = AuthenticatedUsers));
      [reflexivity|exact IH].
Qed.

Lemma existsb_filter_length {X : Type} (c : X -> bool) (l : list X) :
  (1 <= length (List.filter c l))%nat -> existsb c l = true.
Proof.
  induction l as [|x l IH]; simpl; [lia|].
  destruct (c x); simpl; auto.
Qed.

Definition mfa_finding (userName : string) : Finding :=
  finding0 userName ResourceIAM SeverityHigh
    "IAM User Without MFA"
    ("IAM user '" +:+ userName
       +:+ "' has console access but no MFA device configured. "
       +:+ "MFA provides critical additional security layer.").

Lemma Emits_scan_keys keys : Emits (scan_keys keys) [] tt.
Proof.
  unfold scan_keys.
  change (@nil Finding) with (concat (map (fun _ : AccessKeyMetadata => @nil Finding) [])).
  induction keys as [|k keys IH]; simpl; [apply Emits_Ret|].
  destruct (bool_decide (key_Status k = "Active")); exact IH.
Qed.

Section Checks.

Variable svc : Cloud.

Definition mfa_findings (user : User) : list Finding :=
  match GetLoginProfile svc (UserName user) with
  | Err _ => []
  | Ok _ =>
      match ListMFADevices svc (UserName user) with
      | Ok [] => [mfa_finding (UserName user)]
      | _ => []
      end
  end.

Lemma Emits_checkUserMFA user :
  Emits (checkUserMFA svc user) (mfa_findings user) tt.
Proof.
  unfold checkUserMFA, mfa_findings.
  destruct (GetLoginProfile svc (UserName user)); [|apply Emits_Ret].
  destruct (ListMFADevices svc (UserName user)) as [[|d ds]|]; simpl;
    try apply Emits_Ret.
  apply Emits_report.
Qed.

Lemma Emits_checkUserAccessKeys user :
  Emits (checkUserAccessKeys svc user) [] tt.
Proof.
  unfold checkUserAccessKeys.
  destruct (ListAccessKeys svc (UserName user)); [apply Emits_scan_keys|apply Emits_Ret].
Qed.

Lemma Emits_checkBucketEncryption bucket :
  exists es, Emits (checkBucketEncryption svc bucket) es tt.
Proof.
  unfold checkBucketEncryption.
  destruct (GetBucketEncryption svc (bucket_Name bucket)).
  - exists []. apply Emits_Ret.
  - eexists. apply Emits_report.
Qed.

Lemma Emits_checkBucketPublicAccess bucket :
  exists es, Emits (checkBucketPublicAccess svc bucket) es tt.
Proof.
  unfold checkBucketPublicAccess.
  destruct (GetBucketAcl svc (bucket_Name bucket)).
  - eexists. apply Emits_scan_grants.
  - exists []. apply Emits_Ret.
Qed.

Lemma Emits_checkBucketVersioning bucket :
  exists es, Emits (checkBucketVersioning svc bucket) es tt.
Proof.
  unfold checkBucketVersioning.
  destruct (GetBucketVersioning svc (bucket_Name bucket)) as [st|].
  - destruct (match st with
              | Some st0 => negb (bool_decide (st0 = "Enabled"))
              | None => true
              end).
    + eexists. apply Emits_report.
    + exists []. apply Emits_Ret.
  - exists []. apply Emits_Ret.
Qed.

(** What a check returns is fixed by the answer to its listing call. *)
Definition s3_result : error :=
  match ListBuckets svc with
  | Err err => Some ("failed to list S3 buckets: " +:+ err)
  | Ok _ => None
  end.

Definition sg_result : error :=
  match DescribeSecurityGroups svc with
  | Err err => Some ("failed to describe security groups: " +:+ err)
  | Ok _ => None
  end.

Definition iam_result : error :=
  match ListUsers svc with
  | Err err => Some ("failed to list IAM users: " +:+ err)
  | Ok _ => None
  end.

Lemma Emits_scanS3 : exists es, Emits (scanS3 svc) es s3_result.
Proof.
  unfold scanS3, s3_result. destruct (ListBuckets svc) as [buckets|err].
  - destruct (Emits_for_each_ex buckets (fun bucket =>
        checkBucketEncryption svc bucket ;;
        checkBucketPublicAccess svc bucket ;;
        checkBucketVersioning svc bucket)) as [es Hes].
    { intros b _.
      destruct (Emits_checkBucketEncryption b) as [e1 H1].
      destruct (Emits_checkBucketPublicAccess b) as [e2 H2].
      destruct (Emits_checkBucketVersioning b) as [e3 H3].
      exists (e1 ++ e2 ++ e3). apply Emits_seq; [exact H1|].
      apply Emits_seq; [exact H2|exact H3]. }
    exists (es ++ []). apply Emits_seq; [exact Hes|apply Emits_Ret].
  - exists []. apply Emits_Ret.
Qed.

Lemma Emits_scanSecurityGroups : exists es, Emits (scanSecurityGroups svc) es sg_result.
Proof.
  unfold scanSecurityGroups, sg_result.
  destruct (DescribeSecurityGroups svc) as [groups|err].
  - eexists. apply Emits_seq; [|apply Emits_Ret].
    apply Emits_for_each. intros sg _. apply Emits_checkSecurityGroupRules.
  - exists []. apply Emits_Ret.
Qed.

Lemma Emits_scanIAM : exists es, Emits (scanIAM svc) es iam_result.
Proof.
  unfold scanIAM, iam_result. destruct (ListUsers svc) as [users|err].
  - eexists. apply Emits_seq; [|apply Emits_Ret].
    apply (Emits_for_each users _ (fun user => mfa_findings user ++ [])).
    intros u _. apply Emits_seq; [apply Emits_checkUserMFA|apply Emits_checkUserAccessKeys].
  - exists []. apply Emits_Ret.
Qed.

End Checks.

(** The scanner [NewScanner] returns once the session is made: nothing
    found yet.  The clock and the iteration seeds are the environment's. *)
Definition NewScanner (region : string) (clk : nat -> Z) (sds : nat -> list nat)
    : World :=
  {| heap := []; s_region := region; s_findings := []; s_mu := false;
     wg := 0; ch_buf := []; ch_cap := 0; ch_closed := false;
     ticks := 0; clock := clk; ranges := 0; seeds := sds |}.

(** ** The scheduler: basic facts *)

Lemma exec_app {A : Type} (s1 s2 : list nat) (st : Pool A * World) :
  exec (s1 ++ s2) st = exec s2 (exec s1 st).
Proof. unfold exec. apply fold_left_app. Qed.

Lemma exec_cons {A : Type} (i : nat) (s : list nat) (st : Pool A * World) :
  exec (i :: s) st = exec s (turn i st).
Proof. reflexivity. Qed.

Lemma exec_main_returned {A : Type} (n : nat) (a : A) (kids : list (Prog unit)) (w : World) :
  exec (replicate n 0%nat) (Build_Pool (Ret a) kids, w) = (Build_Pool (Ret a) kids, w).
Proof. induction n as [|n IH]; [reflexivity|]. simpl replicate. rewrite exec_cons. exact IH. Qed.

(** ** The finding store *)

(** C1. Region override: [addFinding] on a scanner of region [R] returns
    with the finding's region equal to [R] and the finding appended,
    whatever region (empty or not) the finding had; and at every moment
    of the call, either the store is still as it was or the region is
    already overwritten, so that no reader of the store sees the finding
    with another region. *)
Theorem addFinding_region_override (w : World) (p : loc) (f : Finding) :
  heap w !! p = Some f ->
  s_mu w = false ->
  (exists w',
     run (addFinding p) w = Some (tt, w') /\
     heap w' !! p = Some (set_Region (s_region w) f) /\
     Region <$> heap w' !! p = Some (s_region w') /\
     s_findings w' = s_findings w ++ [p] /\
     s_region w' = s_region w) /\
  (forall n,
     let w_n := (exec (replicate n 0%nat) (Build_Pool (addFinding p) [], w)).2 in
     s_findings w_n = s_findings w \/
     Region <$> heap w_n !! p = Some (s_region w)).
Proof.
  intros Hp Hmu.
  assert (Hlen : (p < length (heap w))%nat) by (eapply lookup_lt_Some; exact Hp).
  split.
  - unfold addFinding. simpl. rewrite Hmu, Hp. simpl.
    eexists. split; [reflexivity|]. simpl.
    rewrite list_lookup_insert_eq by exact Hlen. auto.
  - intros n. unfold addFinding.
    destruct n as [|n]; [left; reflexivity|].
    simpl replicate. rewrite exec_cons. simpl. rewrite Hmu. simpl.
    destruct n as [|n]; [left; reflexivity|].
    simpl replicate. rewrite exec_cons. simpl. rewrite Hp. simpl.
    do 3 (destruct n as [|n];
          [right; simpl; rewrite list_lookup_insert_eq by exact Hlen; reflexivity|
           simpl replicate; rewrite exec_cons; simpl]).
    rewrite exec_main_returned. right. simpl.
    rewrite list_lookup_insert_eq by exact Hlen. reflexivity.
Qed.

Definition example_finding : Finding :=
  {| ResourceID := "bucket-1"; ResourceType := ResourceS3;
     Severity := SeverityHigh; Title := "t"; Description := "d";
     Region := "eu-west-1"; Account := ""; Timestamp := 7 |}.

Definition example_world : World :=
  set_heap [example_finding] (NewScanner "us-east-1" (fun n => Z.of_nat n) (fun _ => [])).

Lemma addFinding_region_override_witness :
  (exists w',
     run (addFinding 0%nat) example_world = Some (tt, w') /\
     heap w' !! 0%nat = Some (set_Region (s_region example_world) example_finding) /\
     Region <$> heap w' !! 0%nat = Some (s_region w') /\
     s_findings w' = s_findings example_world ++ [0%nat] /\
     s_region w' = s_region example_world) /\
  (forall n,
     let w_n := (exec (replicate n 0%nat) (Build_Pool (addFinding 0%nat) [], example_world)).2 in
     s_findings w_n = s_findings example_world \/
     Region <$> heap w_n !! 0%nat = Some (s_region example_world)).
Proof.
  apply (addFinding_region_override example_world 0%nat example_finding);
    reflexivity.
Defined.

(** ** The network-exposure check *)

Lemma map_strip_nil_inv (fs : list Finding) : map strip fs ≡ₚ [] -> fs = [].
Proof.
  intros H. apply Permutation_nil_r in H. by destruct fs.
Qed.

Lemma map_strip_singleton_inv (fs : list Finding) (g : Finding) :
  map strip fs ≡ₚ [g] -> exists f, fs = [f] /\ strip f = g.
Proof.
  intros H. apply Permutation_singleton_r in H.
  destruct fs as [|f [|f' fs]]; try discriminate.
  exists f. split; [reflexivity|]. simpl in H. revert H. generalize (strip f).
  intros x Hx. congruence.
Qed.

Lemma Severity_strip f : Severity (strip f) = Severity f.
Proof. reflexivity. Qed.

Lemma Title_strip f : Title (strip f) = Title f.
Proof. reflexivity. Qed.

Lemma filter_length_one {X : Type} (c : X -> bool) (g : X -> list Finding)
    (E : list Finding) (l : list X) :
  length (List.filter c l) = 1%nat ->
  concat (map (fun x => if c x then E else []) l) = E.
Proof.
  induction l as [|x l IH]; simpl; [discriminate|].
  destruct (c x) eqn:Hc; simpl; intros Hlen.
  - injection Hlen as Hlen.
    assert (Hnone : forall l', length (List.filter c l') = 0%nat ->
              concat (map (fun x => if c x then E else []) l') = []).
    { induction l' as [|y l' IH']; simpl; [reflexivity|].
      destruct (c y); simpl; [discriminate|exact IH']. }
    rewrite (Hnone l Hlen). apply app_nil_r.
  - exact (IH Hlen).
Qed.

(** C4. Port-table completeness: a rule open to 0.0.0.0/0 on the ports
    0 to 65535 adds exactly 8 findings to the store, all CRITICAL: one
    for each of the ports 22, 3389, 5432, 3306, 1433, 27017 and 6379,
    naming its service, and one "All Ports Publicly Accessible". *)
Theorem port_table_completeness (sgID sgName : string) (permission : IpPermission)
    (w : World) :
  FromPort permission = Some 0 ->
  ToPort permission = Some 65535 ->
  length (List.filter unrestricted (IpRanges permission)) = 1%nat ->
  s_mu w = false ->
  wf w ->
  exists w' fs,
    run (check_permission sgID sgName permission) w = Some (tt, w') /\
    findings_of w' = findings_of w ++ fs /\
    length fs = 8%nat /\
    Forall (fun f => Severity f = "CRITICAL") fs /\
    map strip fs ≡ₚ
      map (set_Region (s_region w))
        (map (port_finding sgID sgName)
           [ (22, "SSH"); (3389, "RDP"); (5432, "PostgreSQL"); (3306, "MySQL");
             (1433, "SQL Server"); (27017, "MongoDB"); (6379, "Redis") ]
         ++ [all_ports_finding sgID sgName]) /\
    map Title fs ≡ₚ
      [ "SSH Port Publicly Accessible"; "RDP Port Publicly Accessible";
        "PostgreSQL Port Publicly Accessible"; "MySQL Port Publicly Accessible";
        "SQL Server Port Publicly Accessible"; "MongoDB Port Publicly Accessible";
        "Redis Port Publicly Accessible"; "All Ports Publicly Accessible" ].
Proof.
  intros Hfrom Hto Hone Hmu Hwf.
  destruct (run_Emits _ _ _ (Emits_check_permission sgID sgName permission) w Hmu Hwf)
    as (w' & fs & Hrun & _ & _ & _ & Hfs & Hperm).
  unfold permission_findings in Hperm. rewrite Hfrom, Hto in Hperm. simpl in Hperm.
  rewrite (filter_length_one unrestricted (fun _ => []) _ _ Hone) in Hperm.
  exists w', fs. split; [exact Hrun|]. split; [exact Hfs|].
  assert (Hlen : length fs = 8%nat).
  { rewrite <- (length_map strip). rewrite Hperm. reflexivity. }
  split; [exact Hlen|]. split; [|split].
  - apply Forall_forall. intros f Hf.
    assert (Hin : strip f ∈ map strip fs) by (apply list_elem_of_fmap; eauto).
    rewrite Hperm in Hin. rewrite <- Severity_strip.
    revert Hin. generalize (strip f). intros g Hg.
    unfold stored, public_access_findings in Hg. simpl in Hg.
    repeat (apply elem_of_cons in Hg as [->|Hg]; [reflexivity|]).
    by apply elem_of_nil in Hg.
  - exact Hperm.
  - assert (Ht : map Title fs = map Title (map strip fs)).
    { rewrite map_map. reflexivity. }
    rewrite Ht, Hperm. reflexivity.
Qed.

Definition example_rule : IpPermission :=
  {| FromPort := Some 0; ToPort := Some 65535;
     IpRanges := [ {| CidrIp := "10.0.0.0/8" |}; {| CidrIp := "0.0.0.0/0" |} ] |}.

Definition fresh_world : World :=
  NewScanner "us-east-1" (fun n => Z.of_nat n) (fun _ => [3%nat; 0%nat; 5%nat]).

Lemma wf_NewScanner region clk sds : wf (NewScanner region clk sds).
Proof. constructor. Qed.

Lemma port_table_completeness_witness :
  exists w' fs,
    run (check_permission "sg-1" "web" example_rule) fresh_world = Some (tt, w') /\
    findings_of w' = findings_of fresh_world ++ fs /\
    length fs = 8%nat /\
    Forall (fun f => Severity f = "CRITICAL") fs /\
    map strip fs ≡ₚ
      map (set_Region (s_region fresh_world))
        (map (port_finding "sg-1" "web")
           [ (22, "SSH"); (3389, "RDP"); (5432, "PostgreSQL"); (3306, "MySQL");
             (1433, "SQL Server"); (27017, "MongoDB"); (6379, "Redis") ]
         ++ [all_ports_finding "sg-1" "web"]) /\
    map Title fs ≡ₚ
      [ "SSH Port Publicly Accessible"; "RDP Port Publicly Accessible";
        "PostgreSQL Port Publicly Accessible"; "MySQL Port Publicly Accessible";
        "SQL Server Port Publicly Accessible"; "MongoDB Port Publicly Accessible";
        "Redis Port Publicly Accessible"; "All Ports Publicly Accessible" ].
Proof.
  apply (port_table_completeness "sg-1" "web" example_rule fresh_world);
    solve [reflexivity | apply wf_NewScanner].
Defined.

(** C10. A rule open to 0.0.0.0/0 whose [FromPort] and [ToPort] are both
    absent is checked on the range 0 to 0: no critical port lies in it and
    it is not the range 0 to 65535, so the rule adds no finding. *)
Theorem absent_ports_no_findings (sgID sgName : string) (permission : IpPermission)
    (w : World) :
  FromPort permission = None ->
  ToPort permission = None ->
  (exists ipRange, ipRange ∈ IpRanges permission /\ CidrIp ipRange = "0.0.0.0/0") ->
  s_mu w = false ->
  wf w ->
  public_access_findings sgID sgName 0 0 = [] /\
  exists w',
    run (check_permission sgID sgName permission) w = Some (tt, w') /\
    findings_of w' = findings_of w.
Proof.
  intros Hfrom Hto _ Hmu Hwf. split; [reflexivity|].
  destruct (run_Emits _ _ _ (Emits_check_permission sgID sgName permission) w Hmu Hwf)
    as (w' & fs & Hrun & _ & _ & _ & Hfs & Hperm).
  unfold permission_findings in Hperm. rewrite Hfrom, Hto in Hperm. simpl in Hperm.
  assert (Hnil : concat (map (fun ipRange : IpRange =>
                     if unrestricted ipRange
                     then public_access_findings sgID sgName 0 0 else [])
                   (IpRanges permission)) = []).
  { clear. induction (IpRanges permission) as [|r rs IH]; simpl; [reflexivity|].
    destruct (unrestricted r); simpl; exact IH. }
  rewrite Hnil in Hperm. apply map_strip_nil_inv in Hperm. subst fs.
  exists w'. split; [exact Hrun|]. rewrite Hfs. apply app_nil_r.
Qed.

Definition all_traffic_rule : IpPermission :=
  {| FromPort := None; ToPort := None;
     IpRanges := [ {| CidrIp := "0.0.0.0/0" |} ] |}.

Lemma absent_ports_no_findings_witness :
  public_access_findings "sg-1" "web" 0 0 = [] /\
  exists w',
    run (check_permission "sg-1" "web" all_traffic_rule) fresh_world = Some (tt, w') /\
    findings_of w' = findings_of fresh_world.
Proof.
  apply (absent_ports_no_findings "sg-1" "web" all_traffic_rule fresh_world);
    try reflexivity.
  - exists {| CidrIp := "0.0.0.0/0" |}. split; [left|reflexivity].
  - apply wf_NewScanner.
Defined.

(** ** The storage check *)

(** C5. At most one public-access finding: for a bucket whose ACL has two
    or more grants to the "all users" or "all authenticated users"
    groups, [checkBucketPublicAccess] adds exactly one finding, CRITICAL
    and titled "S3 Bucket Publicly Accessible"; and the grants after a
    public one are not scanned: the check is the same program whatever
    follows that grant in the ACL. *)
Theorem one_public_access_finding (svc : Cloud) (bucket : Bucket)
    (grants : list Grant) (w : World) :
  GetBucketAcl svc (bucket_Name bucket) = Ok grants ->
  (2 <= length (List.filter is_public grants))%nat ->
  s_mu w = false ->
  wf w ->
  (exists w' f,
     run (checkBucketPublicAccess svc bucket) w = Some (tt, w') /\
     findings_of w' = findings_of w ++ [f] /\
     strip f = set_Region (s_region w) (public_bucket_finding (bucket_Name bucket)) /\
     Severity f = "CRITICAL" /\
     Title f = "S3 Bucket Publicly Accessible") /\
  (forall pre g post,
     grants = pre ++ g :: post ->
     is_public g = true ->
     forall svc' post',
       GetBucketAcl svc' (bucket_Name bucket) = Ok (pre ++ g :: post') ->
       checkBucketPublicAccess svc' bucket = checkBucketPublicAccess svc bucket).
Proof.
  intros Hacl Hn Hmu Hwf. split.
  - assert (Hem : Emits (checkBucketPublicAccess svc bucket)
                    [public_bucket_finding (bucket_Name bucket)] tt).
    { unfold checkBucketPublicAccess. rewrite Hacl.
      pose proof (Emits_scan_grants (bucket_Name bucket) grants) as H.
      rewrite existsb_filter_length in H by lia. exact H. }
    destruct (run_Emits _ _ _ Hem w Hmu Hwf)
      as (w' & fs & Hrun & _ & _ & _ & Hfs & Hperm).
    apply map_strip_singleton_inv in Hperm as (f & -> & Hf).
    exists w', f. repeat split; auto.
    + rewrite <- Severity_strip. by rewrite Hf.
    + rewrite <- Title_strip. by rewrite Hf.
  - intros pre g post -> Hg svc' post' Hacl'.
    unfold checkBucketPublicAccess. rewrite Hacl, Hacl'.
    by apply scan_grants_stops.
Qed.

Definition public_grant (uri : string) : Grant :=
  {| grant_Grantee := {| URI := Some uri |} |}.

Definition owner_grant : Grant :=
  {| grant_Grantee := {| URI := None |} |}.

Definition example_cloud : Cloud :=
  {| ListBuckets := Ok [ {| bucket_Name := "logs" |} ];
     GetBucketEncryption := fun _ => Ok tt;
     GetBucketAcl := fun _ =>
       Ok [ owner_grant; public_grant AllUsers; public_grant AuthenticatedUsers ];
     GetBucketVersioning := fun _ => Ok (Some "Enabled");
     DescribeSecurityGroups := Ok [];
     ListUsers := Ok [ {| UserName := "ci" |}; {| UserName := "ana" |} ];
     GetLoginProfile := fun u =>
       if bool_decide (u = "ana") then Ok tt else Err "NoSuchEntity";
     ListMFADevices := fun _ => Ok [];
     ListAccessKeys := fun _ => Ok [] |}.

Lemma one_public_access_finding_witness :
  (exists w' f,
     run (checkBucketPublicAccess example_cloud {| bucket_Name := "logs" |}) fresh_world
       = Some (tt, w') /\
     findings_of w' = findings_of fresh_world ++ [f] /\
     strip f = set_Region (s_region fresh_world) (public_bucket_finding "logs") /\
     Severity f = "CRITICAL" /\
     Title f = "S3 Bucket Publicly Accessible") /\
  (forall pre g post,
     [ owner_grant; public_grant AllUsers; public_grant AuthenticatedUsers ]
       = pre ++ g :: post ->
     is_public g = true ->
     forall svc' post',
       GetBucketAcl svc' "logs" = Ok (pre ++ g :: post') ->
       checkBucketPublicAccess svc' {| bucket_Name := "logs" |}
       = checkBucketPublicAccess example_cloud {| bucket_Name := "logs" |}).
Proof.
  apply (one_public_access_finding example_cloud {| bucket_Name := "logs" |}
           [ owner_grant; public_grant AllUsers; public_grant AuthenticatedUsers ]
           fresh_world).
  - reflexivity.
  - vm_compute. lia.
  - reflexivity.
  - apply wf_NewScanner.
Defined.

(** ** The identity check *)

(** C8. MFA skip: a user without a login profile gets no MFA finding,
    whatever the MFA devices ([checkUserMFA] does nothing at all); a user
    with a login profile and no MFA device gets exactly one finding, of
    severity HIGH. *)
Theorem mfa_skip (svc : Cloud) (user : User) (w : World) :
  s_mu w = false ->
  wf w ->
  match GetLoginProfile svc (UserName user), ListMFADevices svc (UserName user) with
  | Err _, _ =>
      checkUserMFA svc user = Ret tt /\
      run (checkUserMFA svc user) w = Some (tt, w)
  | Ok _, Ok [] =>
      exists w' f,
        run (checkUserMFA svc user) w = Some (tt, w') /\
        findings_of w' = findings_of w ++ [f] /\
        strip f = set_Region (s_region w) (mfa_finding (UserName user)) /\
        Severity f = "HIGH" /\
        Title f = "IAM User Without MFA"
  | Ok _, _ =>
      run (checkUserMFA svc user) w = Some (tt, w)
  end.
Proof.
  intros Hmu Hwf.
  pose proof (Emits_checkUserMFA svc user) as Hem.
  unfold checkUserMFA, mfa_findings in *.
  destruct (GetLoginProfile svc (UserName user)) as [u|e]; [|split; reflexivity].
  destruct (ListMFADevices svc (UserName user)) as [[|d ds]|e]; try reflexivity.
  destruct (run_Emits _ _ _ Hem w Hmu Hwf)
    as (w' & fs & Hrun & _ & _ & _ & Hfs & Hperm).
  apply map_strip_singleton_inv in Hperm as (f & -> & Hf).
  exists w', f. repeat split; auto.
  - rewrite <- Severity_strip. by rewrite Hf.
  - rewrite <- Title_strip. by rewrite Hf.
Qed.

Lemma mfa_skip_witness :
  (checkUserMFA example_cloud {| UserName := "ci" |} = Ret tt /\
   run (checkUserMFA example_cloud {| UserName := "ci" |}) fresh_world
     = Some (tt, fresh_world)) /\
  (exists w' f,
     run (checkUserMFA example_cloud {| UserName := "ana" |}) fresh_world
       = Some (tt, w') /\
     findings_of w' = findings_of fresh_world ++ [f] /\
     strip f = set_Region (s_region fresh_world) (mfa_finding "ana") /\
     Severity f = "HIGH" /\
     Title f = "IAM User Without MFA").
Proof.
  split.
  - apply (mfa_skip example_cloud {| UserName := "ci" |} fresh_world);
      [reflexivity|apply wf_NewScanner].
  - apply (mfa_skip example_cloud {| UserName := "ana" |} fresh_world);
      [reflexivity|apply wf_NewScanner].
Defined.

(** ** The sequential scan *)

(** C6. Sequential abort with partial results: [Scan] runs the storage,
    network-exposure and identity checks in this order; when a check
    fails it returns that check's error under the check's name
    ("S3 scan failed: ...", "Security Group scan failed: ...",
    "IAM scan failed: ...") and the store is the one the checks before it
    left: the later checks have not run and nothing is rolled back.  In
    particular, when the listing of the security groups fails, the store
    is exactly the store after the storage check. *)
Theorem sequential_abort (svc : Cloud) (w : World) :
  s_mu w = false ->
  wf w ->
  exists w1 w2 w3,
    run (scanS3 svc) w = Some (s3_result svc, w1) /\
    run (scanSecurityGroups svc) w1 = Some (sg_result svc, w2) /\
    run (scanIAM svc) w2 = Some (iam_result svc, w3) /\
    (s3_result svc <> None -> w1 = w) /\
    (sg_result svc <> None -> w2 = w1) /\
    (iam_result svc <> None -> w3 = w2) /\
    run (Scan svc) w =
      match s3_result svc with
      | Some e => Some (Some ("S3 scan failed: " +:+ e), w)
      | None =>
          match sg_result svc with
          | Some e => Some (Some ("Security Group scan failed: " +:+ e), w1)
          | None =>
              match iam_result svc with
              | Some e => Some (Some ("IAM scan failed: " +:+ e), w2)
              | None => Some (None, w3)
              end
          end
      end /\
    (forall e, DescribeSecurityGroups svc = Err e -> s3_result svc = None ->
       run (Scan svc) w =
         Some (Some ("Security Group scan failed: failed to describe security groups: "
                       +:+ e), w1)).
Proof.
  intros Hmu Hwf.
  destruct (Emits_scanS3 svc) as [e1 H1].
  destruct (Emits_scanSecurityGroups svc) as [e2 H2].
  destruct (Emits_scanIAM svc) as [e3 H3].
  destruct (run_Emits _ _ _ H1 w Hmu Hwf) as (w1 & fs1 & Hr1 & Hmu1 & Hwf1 & _).
  destruct (run_Emits _ _ _ H2 w1 Hmu1 Hwf1) as (w2 & fs2 & Hr2 & Hmu2 & Hwf2 & _).
  destruct (run_Emits _ _ _ H3 w2 Hmu2 Hwf2) as (w3 & fs3 & Hr3 & _).
  exists w1, w2, w3.
  assert (Hw1 : s3_result svc <> None -> w1 = w).
  { clear - Hr1. unfold scanS3, s3_result in *.
    destruct (ListBuckets svc); [congruence|]. simpl in Hr1. congruence. }
  assert (Hw2 : sg_result svc <> None -> w2 = w1).
  { clear - Hr2. unfold scanSecurityGroups, sg_result in *.
    destruct (DescribeSecurityGroups svc); [congruence|]. simpl in Hr2. congruence. }
  assert (Hw3 : iam_result svc <> None -> w3 = w2).
  { clear - Hr3. unfold scanIAM, iam_result in *.
    destruct (ListUsers svc); [congruence|]. simpl in Hr3. congruence. }
  assert (Hscan : run (Scan svc) w =
      match s3_result svc with
      | Some e => Some (Some ("S3 scan failed: " +:+ e), w)
      | None =>
          match sg_result svc with
          | Some e => Some (Some ("Security Group scan failed: " +:+ e), w1)
          | None =>
              match iam_result svc with
              | Some e => Some (Some ("IAM scan failed: " +:+ e), w2)
              | None => Some (None, w3)
              end
          end
      end).
  { unfold Scan. unfold mbind, Prog_bind. unfold error in *. rewrite run_bind, Hr1.
    destruct (s3_result svc) as [e|] eqn:E1.
    { rewrite Hw1 by congruence. reflexivity. }
    rewrite run_bind, Hr2.
    destruct (sg_result svc) as [e|] eqn:E2.
    { rewrite Hw2 by congruence. reflexivity. }
    rewrite run_bind, Hr3.
    destruct (iam_result svc) as [e|] eqn:E3; [|reflexivity].
    rewrite Hw3 by congruence. reflexivity. }
  repeat split; auto.
  intros e He Hs3. rewrite Hscan, Hs3. unfold sg_result. rewrite He. reflexivity.
Qed.

Definition failing_ec2_cloud : Cloud :=
  {| ListBuckets := ListBuckets example_cloud;
     GetBucketEncryption := fun _ => Err "ServerSideEncryptionConfigurationNotFoundError";
     GetBucketAcl := GetBucketAcl example_cloud;
     GetBucketVersioning := GetBucketVersioning example_cloud;
     DescribeSecurityGroups := Err "RequestLimitExceeded";
     ListUsers := ListUsers example_cloud;
     GetLoginProfile := GetLoginProfile example_cloud;
     ListMFADevices := ListMFADevices example_cloud;
     ListAccessKeys := ListAccessKeys example_cloud |}.

Lemma sequential_abort_witness :
  exists w1 w2 w3,
    run (scanS3 failing_ec2_cloud) fresh_world = Some (s3_result failing_ec2_cloud, w1) /\
    run (scanSecurityGroups failing_ec2_cloud) w1 = Some (sg_result failing_ec2_cloud, w2) /\
    run (scanIAM failing_ec2_cloud) w2 = Some (iam_result failing_ec2_cloud, w3) /\
    (s3_result failing_ec2_cloud <> None -> w1 = fresh_world) /\
    (sg_result failing_ec2_cloud <> None -> w2 = w1) /\
    (iam_result failing_ec2_cloud <> None -> w3 = w2) /\
    run (Scan failing_ec2_cloud) fresh_world =
      match s3_result failing_ec2_cloud with
      | Some e => Some (Some ("S3 scan failed: " +:+ e), fresh_world)
      | None =>
          match sg_result failing_ec2_cloud with
          | Some e => Some (Some ("Security Group scan failed: " +:+ e), w1)
          | None =>
              match iam_result failing_ec2_cloud with
              | Some e => Some (Some ("IAM scan failed: " +:+ e), w2)
              | None => Some (None, w3)
              end
          end
      end /\
    (forall e, DescribeSecurityGroups failing_ec2_cloud = Err e ->
       s3_result failing_ec2_cloud = None ->
       run (Scan failing_ec2_cloud) fresh_world =
         Some (Some ("Security Group scan failed: failed to describe security groups: "
                       +:+ e), w1)).
Proof.
  apply (sequential_abort failing_ec2_cloud fresh_world);
    [reflexivity|apply wf_NewScanner].
Defined.

(** The run of the example: the storage check reports the unencrypted
    public bucket (two findings), the listing of the security groups
    fails, the identity check does not run. *)
Example sequential_abort_example :
  exists w',
    run (Scan failing_ec2_cloud) fresh_world =
      Some (Some "Security Group scan failed: failed to describe security groups: RequestLimitExceeded",
            w') /\
    map Title (findings_of w') = [ "S3 Bucket Not Encrypted"; "S3 Bucket Publicly Accessible" ].
Proof. eexists. split; vm_compute; reflexivity. Qed.

(** ** Goroutines that report findings, interleaved *)

(** What is known of a goroutine in the middle of its work: the findings
    [g_es] it has still to store, the errors [g_errs] it has still to
    send, the calls of [wg.Done] it has still to make, the finding it
    allocated and has not stored yet, and whether it holds [s.mu]. *)
Record Ghost : Type := {
  g_es   : list Finding;
  g_errs : list string;
  g_done : nat;
  g_own  : option loc;
  g_crit : bool
}.

(** [addFinding q] after [finding.Region = s.region]. *)
Definition store_tail (q : loc) (k : Prog unit) : Prog unit :=
  LoadFindings (fun fs => StoreFindings (fs ++ [q]) (MuUnlock k)).

(** The states a reporting goroutine goes through. *)
Inductive Thread (w : World) : Prog unit -> Ghost -> Prop :=
| T_idle p es errs d :
    Acts p es errs d tt ->
    Thread w p (Build_Ghost es errs d None false)
| T_now f0 k es errs d :
    Acts k es errs d tt ->
    Thread w (Alloc f0 (fun q => MuLock (AssignRegion q (store_tail q k))))
           (Build_Ghost (strip f0 :: es) errs d None false)
| T_alloc q f' k es errs d :
    heap w !! q = Some f' ->
    Acts k es errs d tt ->
    Thread w (MuLock (AssignRegion q (store_tail q k)))
           (Build_Ghost (strip f' :: es) errs d (Some q) false)
| T_locked q f' k es errs d :
    heap w !! q = Some f' ->
    Acts k es errs d tt ->
    Thread w (AssignRegion q (store_tail q k))
           (Build_Ghost (strip f' :: es) errs d (Some q) true)
| T_assigned q f' f k es errs d :
    heap w !! q = Some f' ->
    strip f' = set_Region (s_region w) f ->
    Acts k es errs d tt ->
    Thread w (store_tail q k)
           (Build_Ghost (f :: es) errs d (Some q) true)
| T_loaded q f' f k es errs d :
    heap w !! q = Some f' ->
    strip f' = set_Region (s_region w) f ->
    Acts k es errs d tt ->
    Thread w (StoreFindings (s_findings w ++ [q]) (MuUnlock k))
           (Build_Ghost (f :: es) errs d (Some q) true)
| T_stored k es errs d :
    Acts k es errs d tt ->
    Thread w (MuUnlock k) (Build_Ghost es errs d None true).

(** What one step of a reporting goroutine does to the shared state and
    to what is known of the goroutine. *)
Inductive Trans (w : World) (gh : Ghost) : World -> Ghost -> Prop :=
| Tr_now :
    g_own gh = None -> g_crit gh = false ->
    Trans w gh (tick w) gh
| Tr_range es' :
    es' ≡ₚ g_es gh -> g_own gh = None -> g_crit gh = false ->
    Trans w gh (next_range w)
          (Build_Ghost es' (g_errs gh) (g_done gh) None false)
| Tr_alloc f0 :
    g_own gh = None -> g_crit gh = false ->
    Trans w gh (set_heap (heap w ++ [f0]) w)
          (Build_Ghost (g_es gh) (g_errs gh) (g_done gh) (Some (length (heap w))) false)
| Tr_lock q :
    s_mu w = false -> g_own gh = Some q -> g_crit gh = false ->
    Trans w gh (set_mu true w)
          (Build_Ghost (g_es gh) (g_errs gh) (g_done gh) (Some q) true)
| Tr_assign q f' :
    g_own gh = Some q -> g_crit gh = true -> heap w !! q = Some f' ->
    Trans w gh (set_heap (<[q := set_Region (s_region w) f']> (heap w)) w) gh
| Tr_load q :
    g_own gh = Some q -> g_crit gh = true ->
    Trans w gh w gh
| Tr_store q f' f es :
    g_own gh = Some q -> g_crit gh = true ->
    heap w !! q = Some f' -> strip f' = set_Region (s_region w) f ->
    g_es gh = f :: es ->
    Trans w gh (set_findings (s_findings w ++ [q]) w)
          (Build_Ghost es (g_errs gh) (g_done gh) None true)
| Tr_unlock :
    s_mu w = true -> g_own gh = None -> g_crit gh = true ->
    Trans w gh (set_mu false w)
          (Build_Ghost (g_es gh) (g_errs gh) (g_done gh) None false)
| Tr_send e errs :
    g_errs gh = e :: errs -> g_own gh = None -> g_crit gh = false ->
    ch_closed w = false -> (length (ch_buf w) < ch_cap w)%nat ->
    Trans w gh (set_chan (ch_buf w ++ [e]) (ch_cap w) false w)
          (Build_Ghost (g_es gh) errs (g_done gh) None false)
| Tr_done n :
    wg w = S n -> g_done gh = 1%nat -> g_es gh = [] -> g_errs gh = [] ->
    g_own gh = None -> g_crit gh = false ->
    Trans w gh (set_wg n w) (Build_Ghost [] [] 0 None false).

(** A step of a goroutine in state [Thread] is one of these, starts no
    goroutine, and leaves it in state [Thread]. *)
Lemma Acts_step (p : Prog unit) es errs d (w : World) p' w' new :
  Acts p es errs d tt ->
  step p w = Step p' w' new ->
  new = [] /\
  exists gh', Thread w' p' gh' /\
              Trans w (Build_Ghost es errs d None false) w' gh' /\
              (d = 1%nat -> g_done gh' = 1%nat \/ p' = Ret tt).
Proof.
  intros Hp. revert p' w' new.
  induction Hp as [a|mk k g es errs d a Hmk Hk IH|m k eso es errs d a Hes Hk IH
                  |e k es errs d a Hk IH|a]; intros p' w' new Hstep; simpl in Hstep;
    destruct a.
  - discriminate.
  - injection Hstep as <- <- <-. split; [reflexivity|].
    eexists. split; [|split].
    + rewrite <- (Hmk (clock w (ticks w))). apply T_now. exact Hk.
    + rewrite (Hmk (clock w (ticks w))). by apply Tr_now.
    + intros ->. by left.
  - injection Hstep as <- <- <-. split; [reflexivity|].
    eexists. split; [|split].
    + apply T_idle. apply Hk. apply shuffle_perm.
    + apply (Tr_range w (Build_Ghost es errs d None false)); auto.
      simpl. apply Hes. apply shuffle_perm.
    + intros ->. by left.
  - destruct (ch_closed w) eqn:Hcl; [discriminate|].
    case_bool_decide; [|discriminate].
    injection Hstep as <- <- <-. split; [reflexivity|].
    eexists. split; [|split].
    + apply T_idle. exact Hk.
    + by apply (Tr_send w (Build_Ghost es (e :: errs) d None false) e errs).
    + intros ->. by left.
  - destruct (wg w) as [|n] eqn:Hwg; [discriminate|].
    injection Hstep as <- <- <-. split; [reflexivity|].
    eexists. split; [|split].
    + apply T_idle. constructor.
    + by apply (Tr_done w (Build_Ghost [] [] 1 None false) n).
    + intros _. by right.
Qed.

Lemma Acts_done_le {A : Type} (p : Prog A) es errs d a :
  Acts p es errs d a -> (d <= 1)%nat.
Proof. induction 1; auto. specialize (H1 m (reflexivity m)). exact H1. Qed.

Lemma Thread_step (w : World) (p : Prog unit) (gh : Ghost) p' w' new :
  Thread w p gh ->
  step p w = Step p' w' new ->
  new = [] /\
  exists gh', Thread w' p' gh' /\ Trans w gh w' gh' /\
              (g_done gh = 1%nat -> g_done gh' = 1%nat \/ p' = Ret tt).
Proof.
  intros Ht Hstep.
  destruct Ht as [p es errs d Hp|f0 k es errs d Hk|q f' k es errs d Hq Hk
                 |q f' k es errs d Hq Hk|q f' f k es errs d Hq Hf Hk
                 |q f' f k es errs d Hq Hf Hk|k es errs d Hk].
  - exact (Acts_step p es errs d w p' w' new Hp Hstep).
  - simpl in Hstep. injection Hstep as <- <- <-. split; [reflexivity|].
    eexists. split; [|split].
    + apply (T_alloc _ (length (heap w)) f0); [|exact Hk].
      simpl. rewrite lookup_app_r by lia. by rewrite Nat.sub_diag.
    + by apply (Tr_alloc w (Build_Ghost (strip f0 :: es) errs d None false) f0).
    + simpl. auto.
  - simpl in Hstep. destruct (s_mu w) eqn:Hmu; [discriminate|].
    injection Hstep as <- <- <-. split; [reflexivity|].
    eexists. split; [|split].
    + apply (T_locked _ q f'); [exact Hq|exact Hk].
    + by apply (Tr_lock w (Build_Ghost (strip f' :: es) errs d (Some q) false) q).
    + simpl. auto.
  - simpl in Hstep. rewrite Hq in Hstep.
    injection Hstep as <- <- <-. split; [reflexivity|].
    eexists. split; [|split].
    + apply (T_assigned _ q (set_Region (s_region w) f') (strip f')); [|reflexivity|exact Hk].
      simpl. apply list_lookup_insert_eq. eapply lookup_lt_Some. exact Hq.
    + by apply (Tr_assign w (Build_Ghost (strip f' :: es) errs d (Some q) true) q f').
    + simpl. auto.
  - simpl in Hstep. injection Hstep as <- <- <-. split; [reflexivity|].
    eexists. split; [|split].
    + apply (T_loaded _ q f' f); [exact Hq|exact Hf|exact Hk].
    + by apply (Tr_load w (Build_Ghost (f :: es) errs d (Some q) true) q).
    + simpl. auto.
  - simpl in Hstep. injection Hstep as <- <- <-. split; [reflexivity|].
    eexists. split; [|split].
    + apply T_stored. exact Hk.
    + by apply (Tr_store w (Build_Ghost (f :: es) errs d (Some q) true) q f' f es).
    + simpl. auto.
  - simpl in Hstep. destruct (s_mu w) eqn:Hmu; [|discriminate].
    injection Hstep as <- <- <-. split; [reflexivity|].
    eexists. split; [|split].
    + apply T_idle. exact Hk.
    + by apply (Tr_unlock w (Build_Ghost es errs d None true)).
    + simpl. auto.
Qed.

(** The state of a goroutine is not disturbed by what the others do, as
    long as they keep off the finding it owns and, while it holds the
    lock, off the store. *)
Lemma Thread_stable (w w' : World) (p : Prog unit) (gh : Ghost) :
  Thread w p gh ->
  s_region w' = s_region w ->
  (forall q, g_own gh = Some q -> heap w' !! q = heap w !! q) ->
  (g_crit gh = true -> s_findings w' = s_findings w) ->
  Thread w' p gh.
Proof.
  intros Ht Hreg Hheap Hfs.
  destruct Ht as [p es errs d Hp|f0 k es errs d Hk|q f' k es errs d Hq Hk
                 |q f' k es errs d Hq Hk|q f' f k es errs d Hq Hf Hk
                 |q f' f k es errs d Hq Hf Hk|k es errs d Hk]; simpl in *.
  - by apply T_idle.
  - by apply T_now.
  - apply (T_alloc _ q f'); [|exact Hk]. by rewrite Hheap.
  - apply (T_locked _ q f'); [|exact Hk]. by rewrite Hheap.
  - apply (T_assigned _ q f' f); [|by rewrite Hreg|exact Hk]. by rewrite Hheap.
  - rewrite <- Hfs by reflexivity.
    apply (T_loaded _ q f' f); [|by rewrite Hreg|exact Hk]. by rewrite Hheap.
  - by apply T_stored.
Qed.

Lemma Thread_own (w : World) (p : Prog unit) (gh : Ghost) (q : loc) :
  Thread w p gh -> g_own gh = Some q -> (q < length (heap w))%nat.
Proof.
  intros Ht Hq.
  destruct Ht; simpl in Hq; try discriminate; injection Hq as <-;
    eapply lookup_lt_Some; eassumption.
Qed.

Lemma Thread_returned (w : World) (a : unit) (gh : Ghost) :
  Thread w (Ret a) gh -> gh = Build_Ghost [] [] 0 None false.
Proof.
  intros Ht. inversion Ht as [p es errs d Hp| | | | | |]; subst.
  inversion Hp; subst. reflexivity.
Qed.

(** *** The invariant of a pool of reporting goroutines *)

Record Inv (total : list Finding) (w : World)
    (kids : list (Prog unit)) (gs : list Ghost) : Prop := {
  inv_threads : Forall2 (Thread w) kids gs;
  inv_wf : wf w;
  (* at most one goroutine is inside [addFinding]'s critical section,
     and none when the mutex is free *)
  inv_crit_uniq : forall i j gi gj,
      gs !! i = Some gi -> gs !! j = Some gj ->
      g_crit gi = true -> g_crit gj = true -> i = j;
  inv_mu_free : forall i gi,
      s_mu w = false -> gs !! i = Some gi -> g_crit gi = false;
  inv_mu_held :
      s_mu w = true -> exists i gi, gs !! i = Some gi /\ g_crit gi = true;
  (* a finding not yet stored belongs to one goroutine *)
  inv_own_fresh : forall i gi q,
      gs !! i = Some gi -> g_own gi = Some q -> q ∉ s_findings w;
  inv_own_uniq : forall i j gi gj q,
      gs !! i = Some gi -> gs !! j = Some gj ->
      g_own gi = Some q -> g_own gj = Some q -> i = j;
  (* nothing is lost and nothing is added twice *)
  inv_total :
      map strip (findings_of w) ++ stored w (concat (map g_es gs)) ≡ₚ total
}.

Lemma lookup_insert_cases {X : Type} (l : list X) (j i : nat) (x y : X) :
  <[j := x]> l !! i = Some y ->
  (i = j /\ y = x) \/ (i <> j /\ l !! i = Some y).
Proof.
  intros H. apply list_lookup_insert_Some in H as [(-> & -> & _)|[Hne H]]; auto.
Qed.

Lemma concat_map_insert {X Y : Type} (f : X -> list Y) (l : list X) (j : nat) (x x' : X) :
  l !! j = Some x ->
  concat (map f (<[j := x']> l)) ++ f x ≡ₚ concat (map f l) ++ f x'.
Proof.
  revert j. induction l as [|y l IH]; intros [|j] H; simpl in *; try discriminate.
  - injection H as ->. rewrite <- !app_assoc.
    rewrite (Permutation_app_comm (f x')). rewrite !app_assoc.
    apply Permutation_app_tail. apply Permutation_app_comm.
  - rewrite <- !app_assoc. apply Permutation_app_head. by apply IH.
Qed.

Lemma concat_map_insert_perm {X Y : Type} (f : X -> list Y) (l : list X) (j : nat) (x x' : X) :
  l !! j = Some x -> f x' ≡ₚ f x ->
  concat (map f (<[j := x']> l)) ≡ₚ concat (map f l).
Proof.
  intros H Hp. apply (Permutation_app_inv_r (f x)).
  rewrite (concat_map_insert f l j x x' H). by rewrite Hp.
Qed.

Lemma threads_update (w w' : World) kids gs (j : nat) g' gh gh' :
  Forall2 (Thread w) kids gs ->
  gs !! j = Some gh ->
  Thread w' g' gh' ->
  s_region w' = s_region w ->
  (forall i gi q, i <> j -> gs !! i = Some gi -> g_own gi = Some q ->
     heap w' !! q = heap w !! q) ->
  (forall i gi, i <> j -> gs !! i = Some gi -> g_crit gi = true ->
     s_findings w' = s_findings w) ->
  Forall2 (Thread w') (<[j := g']> kids) (<[j := gh']> gs).
Proof.
  intros Hall Hj Hnew Hreg Hheap Hfs.
  apply Forall2_same_length_lookup in Hall as [Hlen Hall].
  apply Forall2_same_length_lookup. split.
  - by rewrite !length_insert.
  - intros i g gi Hg Hgi.
    apply lookup_insert_cases in Hg as [[-> ->]|[Hne Hg]].
    + rewrite list_lookup_insert_eq in Hgi by (eapply lookup_lt_Some; exact Hj).
      injection Hgi as <-. exact Hnew.
    + rewrite list_lookup_insert_ne in Hgi by auto.
      apply (Thread_stable w); eauto.
Qed.

Lemma held_insert (gs : list Ghost) (j : nat) (gh gh' : Ghost) :
  gs !! j = Some gh ->
  (g_crit gh = true -> g_crit gh' = true) ->
  (exists i gi, gs !! i = Some gi /\ g_crit gi = true) ->
  exists i gi, <[j := gh']> gs !! i = Some gi /\ g_crit gi = true.
Proof.
  intros Hj Himp (i & gi & Hi & Hc).
  destruct (decide (i = j)) as [->|Hne].
  - exists j, gh'. rewrite list_lookup_insert_eq by (eapply lookup_lt_Some; exact Hj).
    split; [reflexivity|]. apply Himp. congruence.
  - exists i, gi. by rewrite list_lookup_insert_ne.
Qed.

Lemma held_here (gs : list Ghost) (j : nat) (gh gh' : Ghost) :
  gs !! j = Some gh -> g_crit gh' = true ->
  exists i gi, <[j := gh']> gs !! i = Some gi /\ g_crit gi = true.
Proof.
  intros Hj Hc. exists j, gh'.
  rewrite list_lookup_insert_eq by (eapply lookup_lt_Some; exact Hj). auto.
Qed.

(** A step that leaves the heap, the store and the mutex alone. *)
Lemma Inv_quiet total w w' kids gs (j : nat) g' gh gh' :
  Inv total w kids gs ->
  gs !! j = Some gh ->
  Thread w' g' gh' ->
  heap w' = heap w -> s_findings w' = s_findings w ->
  s_mu w' = s_mu w -> s_region w' = s_region w ->
  g_own gh' = g_own gh -> g_crit gh' = g_crit gh -> g_es gh' ≡ₚ g_es gh ->
  Inv total w' (<[j := g']> kids) (<[j := gh']> gs).
Proof.
  intros [Hth Hwf Hcu Hmf Hmh Hof Hou Htot] Hj Hnew Hh Hf Hm Hr Hown Hcrit Hes.
  split.
  - apply (threads_update w w' kids gs j g' gh gh'); auto.
    intros i gi q _ _ _. by rewrite Hh.
  - unfold wf. rewrite Hh, Hf. exact Hwf.
  - intros i i' gi gi' Hi Hi' Hc Hc'.
    apply lookup_insert_cases in Hi as [[-> ->]|[Hne Hi]];
      apply lookup_insert_cases in Hi' as [[-> ->]|[Hne' Hi']]; auto.
    + rewrite Hcrit in Hc. eapply Hcu; eauto.
    + rewrite Hcrit in Hc'. eapply Hcu; eauto.
    + eapply Hcu; eauto.
  - intros i gi Hmu Hi. rewrite Hm in Hmu.
    apply lookup_insert_cases in Hi as [[-> ->]|[Hne Hi]].
    + rewrite Hcrit. eapply Hmf; eauto.
    + eapply Hmf; eauto.
  - intros Hmu. rewrite Hm in Hmu.
    apply (held_insert gs j gh gh' Hj); [congruence|auto].
  - intros i gi q Hi Hq. rewrite Hf.
    apply lookup_insert_cases in Hi as [[-> ->]|[Hne Hi]].
    + rewrite Hown in Hq. eapply Hof; eauto.
    + eapply Hof; eauto.
  - intros i i' gi gi' q Hi Hi' Hq Hq'.
    apply lookup_insert_cases in Hi as [[-> ->]|[Hne Hi]];
      apply lookup_insert_cases in Hi' as [[-> ->]|[Hne' Hi']]; auto.
    + rewrite Hown in Hq. eapply Hou; eauto.
    + rewrite Hown in Hq'. eapply Hou; eauto.
    + eapply Hou; eauto.
  - rewrite <- Htot. unfold findings_of, stored. rewrite Hh, Hf, Hr.
    apply Permutation_app_head. apply Permutation_map.
    by apply (concat_map_insert_perm g_es gs j gh gh').
Qed.

Lemma omap_lookup_insert_notin (h : list Finding) (l : list loc) (q : loc) (f : Finding) :
  q ∉ l ->
  omap (fun p => <[q := f]> h !! p) l = omap (fun p => h !! p) l.
Proof.
  induction l as [|p l IH]; intros Hq; [reflexivity|].
  apply not_elem_of_cons in Hq as [Hne Hq].
  unfold omap in *. simpl. rewrite list_lookup_insert_ne by auto.
  by rewrite IH.
Qed.

Lemma Inv_thread total w kids gs (j : nat) g :
  Inv total w kids gs -> kids !! j = Some g ->
  exists gh, gs !! j = Some gh /\ Thread w g gh.
Proof.
  intros HI Hj. destruct (Forall2_lookup_l _ _ _ _ _ (inv_threads _ _ _ _ HI) Hj)
    as (gh & Hgh & Ht). eauto.
Qed.

Lemma Inv_ghost_thread total w kids gs (i : nat) gi :
  Inv total w kids gs -> gs !! i = Some gi ->
  exists g, kids !! i = Some g /\ Thread w g gi.
Proof.
  intros HI Hi. destruct (Forall2_lookup_r _ _ _ _ _ (inv_threads _ _ _ _ HI) Hi)
    as (g & Hg & Ht). eauto.
Qed.

(** Every step of a goroutine of the pool keeps the invariant. *)
Lemma Inv_trans total w w' kids gs (j : nat) g' gh gh' :
  Inv total w kids gs ->
  gs !! j = Some gh ->
  Thread w' g' gh' ->
  Trans w gh w' gh' ->
  Inv total w' (<[j := g']> kids) (<[j := gh']> gs).
Proof.
  intros HI Hj Hnew Htr.
  destruct Htr as [Hown Hcrit|es' Hes Hown Hcrit|f0 Hown Hcrit|q Hmu Hown Hcrit
                  |q f' Hown Hcrit Hq|q Hown Hcrit|q f' f es Hown Hcrit Hq Hf Hes
                  |Hmu Hown Hcrit|e errs Herrs Hown Hcrit Hcl Hcap
                  |n Hwg Hd Hes Herrs Hown Hcrit].
  - apply (Inv_quiet total w _ kids gs j g' gh gh); auto.
  - apply (Inv_quiet total w _ kids gs j g' gh); auto.
  - (* the allocation *)
    destruct HI as [Hth Hwf Hcu Hmf Hmh Hof Hou Htot].
    assert (Hlt : forall i gi q, gs !! i = Some gi -> g_own gi = Some q ->
                    (q < length (heap w))%nat).
    { intros i gi q Hi Hgq.
      destruct (Forall2_lookup_r _ _ _ _ _ Hth Hi) as (g & _ & Ht).
      eapply Thread_own; eauto. }
    split.
    + apply (threads_update w _ kids gs j g' gh _); auto.
      intros i gi q _ Hi Hgq. simpl. apply lookup_app_l. eauto.
    + unfold wf in *. simpl. rewrite length_app. simpl.
      eapply Forall_impl; [exact Hwf|]. simpl. intros; lia.
    + intros i i' gi gi' Hi Hi' Hc Hc'.
      apply lookup_insert_cases in Hi as [[-> ->]|[Hne Hi]];
        apply lookup_insert_cases in Hi' as [[-> ->]|[Hne' Hi']]; auto;
        simpl in *; try discriminate.
      eapply Hcu; eauto.
    + intros i gi Hmu Hi. simpl in Hmu.
      apply lookup_insert_cases in Hi as [[-> ->]|[Hne Hi]]; [reflexivity|].
      eapply Hmf; eauto.
    + intros Hmu. simpl in Hmu.
      apply (held_insert gs j gh _ Hj); [congruence|auto].
    + intros i gi q Hi Hgq. simpl.
      apply lookup_insert_cases in Hi as [[-> ->]|[Hne Hi]].
      * simpl in Hgq. injection Hgq as <-. intros Hin.
        unfold wf in Hwf. rewrite Forall_forall in Hwf.
        specialize (Hwf _ Hin). lia.
      * eapply Hof; eauto.
    + intros i i' gi gi' q Hi Hi' Hgq Hgq'.
      apply lookup_insert_cases in Hi as [[-> ->]|[Hne Hi]];
        apply lookup_insert_cases in Hi' as [[-> ->]|[Hne' Hi']]; auto;
        simpl in *.
      * injection Hgq as <-. specialize (Hlt _ _ _ Hi' Hgq'). lia.
      * injection Hgq' as <-. specialize (Hlt _ _ _ Hi Hgq). lia.
      * eapply Hou; eauto.
    + rewrite <- Htot. unfold findings_of, stored. simpl.
      rewrite omap_lookup_app_l by exact Hwf.
      apply Permutation_app_head. apply Permutation_map.
      by apply (concat_map_insert_perm g_es gs j gh).
  - (* Lock *)
    destruct HI as [Hth Hwf Hcu Hmf Hmh Hof Hou Htot].
    split.
    + apply (threads_update w _ kids gs j g' gh _); auto.
    + exact Hwf.
    + intros i i' gi gi' Hi Hi' Hc Hc'.
      apply lookup_insert_cases in Hi as [[-> ->]|[Hne Hi]];
        apply lookup_insert_cases in Hi' as [[-> ->]|[Hne' Hi']]; auto.
      * rewrite (Hmf _ _ Hmu Hi') in Hc'. discriminate.
      * rewrite (Hmf _ _ Hmu Hi) in Hc. discriminate.
      * eapply Hcu; eauto.
    + intros i gi Hmu' Hi. simpl in Hmu'. discriminate.
    + intros _. by apply (held_here gs j gh).
    + intros i gi q' Hi Hgq. simpl.
      apply lookup_insert_cases in Hi as [[-> ->]|[Hne Hi]].
      * simpl in Hgq. injection Hgq as <-. eapply Hof; eauto.
      * eapply Hof; eauto.
    + intros i i' gi gi' q' Hi Hi' Hgq Hgq'.
      apply lookup_insert_cases in Hi as [[-> ->]|[Hne Hi]];
        apply lookup_insert_cases in Hi' as [[-> ->]|[Hne' Hi']]; auto;
        simpl in *.
      * injection Hgq as <-. eapply Hou; eauto.
      * injection Hgq' as <-. eapply Hou; eauto.
      * eapply Hou; eauto.
    + rewrite <- Htot. unfold findings_of, stored. simpl.
      apply Permutation_app_head. apply Permutation_map.
      by apply (concat_map_insert_perm g_es gs j gh).
  - (* finding.Region = s.region *)
    destruct HI as [Hth Hwf Hcu Hmf Hmh Hof Hou Htot].
    split.
    + apply (threads_update w _ kids gs j g' gh gh); auto.
      intros i gi q' Hne Hi Hgq. simpl. apply list_lookup_insert_ne.
      intros <-. apply Hne. eapply Hou; eauto.
    + unfold wf in *. simpl. by rewrite length_insert.
    + intros i i' gi gi' Hi Hi' Hc Hc'.
      apply lookup_insert_cases in Hi as [[-> ->]|[Hne Hi]];
        apply lookup_insert_cases in Hi' as [[-> ->]|[Hne' Hi']]; auto;
        eapply Hcu; eauto.
    + intros i gi Hmu Hi. simpl in Hmu.
      apply lookup_insert_cases in Hi as [[-> ->]|[Hne Hi]]; eapply Hmf; eauto.
    + intros _. by apply (held_here gs j gh).
    + intros i gi q' Hi Hgq. simpl.
      apply lookup_insert_cases in Hi as [[-> ->]|[Hne Hi]]; eapply Hof; eauto.
    + intros i i' gi gi' q' Hi Hi' Hgq Hgq'.
      apply lookup_insert_cases in Hi as [[-> ->]|[Hne Hi]];
        apply lookup_insert_cases in Hi' as [[-> ->]|[Hne' Hi']]; auto;
        eapply Hou; eauto.
    + rewrite <- Htot. unfold findings_of, stored. simpl.
      rewrite omap_lookup_insert_notin by (eapply Hof; eauto).
      apply Permutation_app_head. apply Permutation_map.
      by apply (concat_map_insert_perm g_es gs j gh).
  - apply (Inv_quiet total w _ kids gs j g' gh gh); auto.
  - (* s.findings = append(s.findings, finding) *)
    destruct HI as [Hth Hwf Hcu Hmf Hmh Hof Hou Htot].
    split.
    + apply (threads_update w _ kids gs j g' gh _); auto.
      intros i gi Hne Hi Hc. exfalso. apply Hne. eapply Hcu; eauto.
    + unfold wf in *. simpl. apply Forall_app. split; [exact Hwf|].
      constructor; [|constructor]. eapply lookup_lt_Some; eauto.
    + intros i i' gi gi' Hi Hi' Hc Hc'.
      apply lookup_insert_cases in Hi as [[-> ->]|[Hne Hi]];
        apply lookup_insert_cases in Hi' as [[-> ->]|[Hne' Hi']]; auto;
        eapply Hcu; eauto.
    + intros i gi Hmu Hi. simpl in Hmu.
      rewrite (Hmf _ _ Hmu Hj) in Hcrit. discriminate.
    + intros _. by apply (held_here gs j gh).
    + intros i gi q' Hi Hgq. simpl.
      apply lookup_insert_cases in Hi as [[-> ->]|[Hne Hi]]; [discriminate|].
      apply not_elem_of_app. split; [eapply Hof; eauto|].
      intros Hin. apply list_elem_of_singleton in Hin as ->.
      apply Hne. eapply Hou; eauto.
    + intros i i' gi gi' q' Hi Hi' Hgq Hgq'.
      apply lookup_insert_cases in Hi as [[-> ->]|[Hne Hi]];
        apply lookup_insert_cases in Hi' as [[-> ->]|[Hne' Hi']]; auto;
        simpl in *; try discriminate.
      eapply Hou; eauto.
    + rewrite <- Htot. unfold findings_of, stored. simpl.
      rewrite omap_app. simpl. rewrite Hq. simpl.
      rewrite map_app. simpl. rewrite Hf.
      pose proof (concat_map_insert g_es gs j gh
                    (Build_Ghost es (g_errs gh) (g_done gh) None true) Hj) as Hc.
      simpl in Hc. rewrite Hes in Hc.
      assert (Hc' : concat (map g_es gs) ≡ₚ
                    f :: concat (map g_es (<[j := Build_Ghost es (g_errs gh) (g_done gh) None true]> gs))).
      { apply (Permutation_app_inv_r es). rewrite <- Hc.
        simpl. symmetry. apply Permutation_middle. }
      rewrite Hc'. simpl. rewrite <- app_assoc. simpl. reflexivity.
  - (* Unlock *)
    destruct HI as [Hth Hwf Hcu Hmf Hmh Hof Hou Htot].
    split.
    + apply (threads_update w _ kids gs j g' gh _); auto.
    + exact Hwf.
    + intros i i' gi gi' Hi Hi' Hc Hc'.
      apply lookup_insert_cases in Hi as [[-> ->]|[Hne Hi]];
        apply lookup_insert_cases in Hi' as [[-> ->]|[Hne' Hi']]; auto;
        simpl in *; try discriminate.
      eapply Hcu; eauto.
    + intros i gi _ Hi.
      apply lookup_insert_cases in Hi as [[-> ->]|[Hne Hi]]; [reflexivity|].
      destruct (g_crit gi) eqn:Hc; [|reflexivity].
      exfalso. apply Hne. eapply Hcu; eauto.
    + intros Hmu'. simpl in Hmu'. discriminate.
    + intros i gi q' Hi Hgq. simpl.
      apply lookup_insert_cases in Hi as [[-> ->]|[Hne Hi]]; [discriminate|].
      eapply Hof; eauto.
    + intros i i' gi gi' q' Hi Hi' Hgq Hgq'.
      apply lookup_insert_cases in Hi as [[-> ->]|[Hne Hi]];
        apply lookup_insert_cases in Hi' as [[-> ->]|[Hne' Hi']]; auto;
        simpl in *; try discriminate.
      eapply Hou; eauto.
    + rewrite <- Htot. unfold findings_of, stored. simpl.
      apply Permutation_app_head. apply Permutation_map.
      by apply (concat_map_insert_perm g_es gs j gh).
  - apply (Inv_quiet total w _ kids gs j g' gh); auto.
  - apply (Inv_quiet total w _ kids gs j g' gh); auto.
    simpl. by rewrite Hes.
Qed.

(** A step of the caller that leaves the heap, the store and the mutex
    alone keeps the invariant of the goroutines. *)
Lemma Inv_frame total w w' kids gs :
  Inv total w kids gs ->
  heap w' = heap w -> s_findings w' = s_findings w ->
  s_mu w' = s_mu w -> s_region w' = s_region w ->
  Inv total w' kids gs.
Proof.
  intros [Hth Hwf Hcu Hmf Hmh Hof Hou Htot] Hh Hf Hm Hr. split; auto.
  - eapply Forall2_impl; [exact Hth|]. intros g gh Ht.
    apply (Thread_stable w); auto. intros q _. by rewrite Hh.
  - unfold wf. by rewrite Hh, Hf.
  - intros i gi Hmu. rewrite Hm in Hmu. eauto.
  - intros Hmu. rewrite Hm in Hmu. eauto.
  - intros i gi q. rewrite Hf. eauto.
  - unfold findings_of, stored. by rewrite Hh, Hf, Hr.
Qed.

Definition sum_done (gs : list Ghost) : nat :=
  foldr (fun gh n => (g_done gh + n)%nat) 0%nat gs.

Lemma sum_done_insert (gs : list Ghost) (j : nat) (gh gh' : Ghost) :
  gs !! j = Some gh ->
  (sum_done (<[j := gh']> gs) + g_done gh = sum_done gs + g_done gh')%nat.
Proof.
  revert j. induction gs as [|x gs IH]; intros [|j] H; simpl in *; try discriminate.
  - injection H as ->. lia.
  - specialize (IH j H). lia.
Qed.

Lemma sum_done_zero (gs : list Ghost) (i : nat) (gh : Ghost) :
  sum_done gs = 0%nat -> gs !! i = Some gh -> g_done gh = 0%nat.
Proof.
  revert i. induction gs as [|x gs IH]; intros [|i] Hs H; simpl in *; try discriminate.
  - injection H as ->. lia.
  - apply (IH i); [lia|exact H].
Qed.

(** The goroutine of [ScanConcurrent] around a check that reports [es]
    and returns [r]. *)
Lemma Acts_scan_task (check : Prog error) es (r : error) :
  Emits check es r ->
  Acts (scan_task check) (es ++ []) (option_list r) 1 tt.
Proof.
  intros H. unfold scan_task. apply (Acts_bind check _ es [] _ _ r tt H).
  destruct r as [e|]; simpl.
  - apply Acts_Send. apply Acts_Done.
  - apply Acts_Done.
Qed.

(** *** No deadlock: the goroutines can always be run to their end *)

Lemma turn_kid {A : Type} (main : Prog A) (kids : list (Prog unit)) (w : World)
    (j : nat) (g g' : Prog unit) (w' : World) :
  kids !! j = Some g ->
  step g w = Step g' w' [] ->
  turn (S j) (Build_Pool main kids, w) = (Build_Pool main (<[j := g']> kids), w').
Proof. intros Hj Hs. simpl. rewrite Hj, Hs. by rewrite app_nil_r. Qed.

Lemma exec_replicate_S {A : Type} (k i : nat) (st : Pool A * World) :
  exec (replicate (S k) i) st = exec (replicate k i) (turn i st).
Proof. reflexivity. Qed.

Section Solo.

Context {A : Type}.
Variable total : list Finding.

(** What is known of the pool: kept by the turns of the goroutines, it
    contains the invariant of the goroutines, and it makes sure that a
    send on the error channel and a call of [wg.Done] can proceed. *)
Variable P : Pool A * World -> Prop.
Hypothesis P_turn : forall j st, P st -> P (turn (S j) st).
Hypothesis P_Inv : forall st, P st -> exists gs, Inv total st.2 (p_kids st.1) gs.
Hypothesis P_send : forall main kids w j e k,
  P (Build_Pool main kids, w) -> kids !! j = Some (ChanSend e k) ->
  ch_closed w = false /\ (length (ch_buf w) < ch_cap w)%nat.
Hypothesis P_done : forall main kids w j k,
  P (Build_Pool main kids, w) -> kids !! j = Some (WgDone k) ->
  wg w <> 0%nat.

Lemma P_exec_kid (k j : nat) (st : Pool A * World) :
  P st -> P (exec (replicate k (S j)) st).
Proof.
  revert st. induction k as [|k IH]; intros st HP; [exact HP|].
  rewrite exec_replicate_S. apply IH. by apply P_turn.
Qed.

(** With the mutex free, a goroutine that is not in the middle of a
    report runs to its end when it is given enough turns in a row. *)
Lemma solo_Acts (p : Prog unit) es errs d :
  Acts p es errs d tt ->
  forall main kids w j,
    P (Build_Pool main kids, w) -> kids !! j = Some p -> s_mu w = false ->
    exists k w',
      exec (replicate k (S j)) (Build_Pool main kids, w)
        = (Build_Pool main (<[j := Ret tt]> kids), w') /\
      s_mu w' = false.
Proof.
  intros Hp.
  induction Hp as [a|mk k0 g es errs d a Hmk Hk IH|m k0 eso es errs d a Hes Hk IH
                  |e k0 es errs d a Hk IH|a]; intros main kids w j HP Hj Hmu;
    destruct a.
  - exists 0%nat, w. simpl. rewrite list_insert_id by exact Hj. auto.
  - pose proof (P_exec_kid 7 j _ HP) as HP'.
    assert (Hrun : exec (replicate 7 (S j)) (Build_Pool main kids, w)
              = (Build_Pool main (<[j := k0]> kids),
                 appended (mk (clock w (ticks w))) (tick w))).
    { unfold emit_then in Hj.
      rewrite exec_replicate_S. erewrite turn_kid; [|exact Hj|simpl; reflexivity].
      assert (Hlt : (j < length kids)%nat) by (eapply lookup_lt_Some; exact Hj).
      rewrite exec_replicate_S.
      erewrite turn_kid; [|by apply list_lookup_insert_eq|simpl; reflexivity].
      rewrite list_insert_insert_eq.
      rewrite exec_replicate_S.
      erewrite turn_kid; [|by apply list_lookup_insert_eq|simpl; rewrite Hmu; reflexivity].
      rewrite list_insert_insert_eq.
      rewrite exec_replicate_S.
      erewrite turn_kid; [|by apply list_lookup_insert_eq
                          |simpl; rewrite lookup_app_r by lia;
                           rewrite Nat.sub_diag; simpl; reflexivity].
      rewrite list_insert_insert_eq.
      rewrite exec_replicate_S.
      erewrite turn_kid; [|by apply list_lookup_insert_eq|simpl; reflexivity].
      rewrite list_insert_insert_eq.
      rewrite exec_replicate_S.
      erewrite turn_kid; [|by apply list_lookup_insert_eq|simpl; reflexivity].
      rewrite list_insert_insert_eq.
      rewrite exec_replicate_S.
      erewrite turn_kid; [|by apply list_lookup_insert_eq|simpl; reflexivity].
      rewrite list_insert_insert_eq. simpl.
      f_equal. destruct w as [h r fs mu g0 cb cc cl tk ck rg sd].
      simpl in Hmu. subst mu. unfold appended, set_heap, set_findings, set_mu, tick.
      simpl. rewrite insert_last. reflexivity. }
    rewrite Hrun in HP'.
    destruct (IH main (<[j := k0]> kids) _ j HP') as (k & w' & Hk' & Hmu').
    { apply list_lookup_insert_eq. eapply lookup_lt_Some; exact Hj. }
    { exact Hmu. }
    exists (7 + k)%nat, w'. rewrite replicate_add, exec_app, Hrun, Hk'.
    by rewrite list_insert_insert_eq.
  - pose proof (P_turn j _ HP) as HP'.
    erewrite turn_kid in HP'; [|exact Hj|simpl; reflexivity].
    destruct (IH (shuffle (seeds w (ranges w)) m) (shuffle_perm _ _) main _ (next_range w) j HP')
      as (k & w' & Hk' & Hmu').
    { apply list_lookup_insert_eq. eapply lookup_lt_Some; exact Hj. }
    { exact Hmu. }
    exists (S k), w'. rewrite exec_replicate_S.
    erewrite turn_kid; [|exact Hj|simpl; reflexivity].
    rewrite Hk'. by rewrite list_insert_insert_eq.
  - destruct (P_send main kids w j e k0 HP Hj) as [Hcl Hcap].
    assert (Hstep : step (ChanSend e k0) w
              = Step k0 (set_chan (ch_buf w ++ [e]) (ch_cap w) false w) []).
    { simpl. rewrite Hcl. by rewrite bool_decide_true. }
    pose proof (P_turn j _ HP) as HP'.
    erewrite turn_kid in HP'; [|exact Hj|exact Hstep].
    destruct (IH main _ _ j HP') as (k & w' & Hk' & Hmu').
    { apply list_lookup_insert_eq. eapply lookup_lt_Some; exact Hj. }
    { exact Hmu. }
    exists (S k), w'. rewrite exec_replicate_S.
    erewrite turn_kid; [|exact Hj|exact Hstep].
    rewrite Hk'. by rewrite list_insert_insert_eq.
  - pose proof (P_done main kids w j (Ret tt) HP Hj) as Hwg.
    destruct (wg w) as [|n] eqn:Hn; [congruence|].
    exists 1%nat, (set_wg n w). rewrite exec_replicate_S.
    erewrite turn_kid; [|exact Hj|simpl; rewrite Hn; reflexivity].
    simpl. auto.
Qed.

Lemma solo_Thread (w : World) (g : Prog unit) (gh : Ghost) :
  Thread w g gh -> g_crit gh = false ->
  forall main kids j,
    P (Build_Pool main kids, w) -> kids !! j = Some g -> s_mu w = false ->
    exists k w',
      exec (replicate k (S j)) (Build_Pool main kids, w)
        = (Build_Pool main (<[j := Ret tt]> kids), w') /\
      s_mu w' = false.
Proof.
  intros Ht Hcrit main kids j HP Hj Hmu.
  assert (Hlt : (j < length kids)%nat) by (eapply lookup_lt_Some; exact Hj).
  destruct Ht as [p es errs d Hp|f0 k0 es errs d Hk|q f' k0 es errs d Hq Hk
                 |q f' k0 es errs d Hq Hk|q f' f k0 es errs d Hq Hf Hk
                 |q f' f k0 es errs d Hq Hf Hk|k0 es errs d Hk];
    simpl in Hcrit; try discriminate.
  - eapply solo_Acts; eauto.
  - pose proof (P_exec_kid 6 j _ HP) as HP'.
    assert (Hrun : exists w6,
              exec (replicate 6 (S j)) (Build_Pool main kids, w)
                = (Build_Pool main (<[j := k0]> kids), w6) /\ s_mu w6 = false).
    { eexists. split.
      - rewrite exec_replicate_S. erewrite turn_kid; [|exact Hj|simpl; reflexivity].
        rewrite exec_replicate_S.
        erewrite turn_kid; [|by apply list_lookup_insert_eq|simpl; rewrite Hmu; reflexivity].
        rewrite list_insert_insert_eq.
        rewrite exec_replicate_S.
        erewrite turn_kid; [|by apply list_lookup_insert_eq
                            |simpl; rewrite lookup_app_r by lia;
                             rewrite Nat.sub_diag; simpl; reflexivity].
        rewrite list_insert_insert_eq.
        rewrite exec_replicate_S.
        erewrite turn_kid; [|by apply list_lookup_insert_eq|simpl; reflexivity].
        rewrite list_insert_insert_eq.
        rewrite exec_replicate_S.
        erewrite turn_kid; [|by apply list_lookup_insert_eq|simpl; reflexivity].
        rewrite list_insert_insert_eq.
        rewrite exec_replicate_S.
        erewrite turn_kid; [|by apply list_lookup_insert_eq|simpl; reflexivity].
        rewrite list_insert_insert_eq. reflexivity.
      - reflexivity. }
    destruct Hrun as (w6 & Hrun & Hmu6). rewrite Hrun in HP'.
    destruct (solo_Acts k0 es errs d Hk main (<[j := k0]> kids) w6 j HP')
      as (k & w' & Hk' & Hmu'); auto.
    { by apply list_lookup_insert_eq. }
    exists (6 + k)%nat, w'. rewrite replicate_add, exec_app, Hrun, Hk'.
    by rewrite list_insert_insert_eq.
  - pose proof (P_exec_kid 5 j _ HP) as HP'.
    assert (Hrun : exists w5,
              exec (replicate 5 (S j)) (Build_Pool main kids, w)
                = (Build_Pool main (<[j := k0]> kids), w5) /\ s_mu w5 = false).
    { eexists. split.
      - rewrite exec_replicate_S.
        erewrite turn_kid; [|exact Hj|simpl; rewrite Hmu; reflexivity].
        rewrite exec_replicate_S.
        erewrite turn_kid; [|by apply list_lookup_insert_eq
                            |simpl; rewrite Hq; reflexivity].
        rewrite list_insert_insert_eq.
        rewrite exec_replicate_S.
        erewrite turn_kid; [|by apply list_lookup_insert_eq|simpl; reflexivity].
        rewrite list_insert_insert_eq.
        rewrite exec_replicate_S.
        erewrite turn_kid; [|by apply list_lookup_insert_eq|simpl; reflexivity].
        rewrite list_insert_insert_eq.
        rewrite exec_replicate_S.
        erewrite turn_kid; [|by apply list_lookup_insert_eq|simpl; reflexivity].
        rewrite list_insert_insert_eq. reflexivity.
      - reflexivity. }
    destruct Hrun as (w5 & Hrun & Hmu5). rewrite Hrun in HP'.
    destruct (solo_Acts k0 es errs d Hk main (<[j := k0]> kids) w5 j HP')
      as (k & w' & Hk' & Hmu'); auto.
    { by apply list_lookup_insert_eq. }
    exists (5 + k)%nat, w'. rewrite replicate_add, exec_app, Hrun, Hk'.
    by rewrite list_insert_insert_eq.
Qed.

(** The goroutine that holds the mutex releases it when it is given
    enough turns in a row. *)
Lemma release (w : World) (g : Prog unit) (gh : Ghost) :
  Thread w g gh -> g_crit gh = true ->
  forall (main : Prog A) kids j,
    kids !! j = Some g -> s_mu w = true ->
    exists k g' w',
      exec (replicate k (S j)) (Build_Pool main kids, w)
        = (Build_Pool main (<[j := g']> kids), w') /\
      s_mu w' = false.
Proof.
  intros Ht Hcrit main kids j Hj Hmu.
  assert (Hlt : (j < length kids)%nat) by (eapply lookup_lt_Some; exact Hj).
  destruct Ht as [p es errs d Hp|f0 k0 es errs d Hk|q f' k0 es errs d Hq Hk
                 |q f' k0 es errs d Hq Hk|q f' f k0 es errs d Hq Hf Hk
                 |q f' f k0 es errs d Hq Hf Hk|k0 es errs d Hk];
    simpl in Hcrit; try discriminate.
  - exists 4%nat. eexists. eexists. split.
    + rewrite exec_replicate_S.
      erewrite turn_kid; [|exact Hj|simpl; rewrite Hq; reflexivity].
      rewrite exec_replicate_S.
      erewrite turn_kid; [|by apply list_lookup_insert_eq|simpl; reflexivity].
      rewrite list_insert_insert_eq.
      rewrite exec_replicate_S.
      erewrite turn_kid; [|by apply list_lookup_insert_eq|simpl; reflexivity].
      rewrite list_insert_insert_eq.
      rewrite exec_replicate_S.
      erewrite turn_kid; [|by apply list_lookup_insert_eq|simpl; rewrite Hmu; reflexivity].
      rewrite list_insert_insert_eq. reflexivity.
    + reflexivity.
  - exists 3%nat. eexists. eexists. split.
    + rewrite exec_replicate_S.
      erewrite turn_kid; [|exact Hj|simpl; reflexivity].
      rewrite exec_replicate_S.
      erewrite turn_kid; [|by apply list_lookup_insert_eq|simpl; reflexivity].
      rewrite list_insert_insert_eq.
      rewrite exec_replicate_S.
      erewrite turn_kid; [|by apply list_lookup_insert_eq|simpl; rewrite Hmu; reflexivity].
      rewrite list_insert_insert_eq. reflexivity.
    + reflexivity.
  - exists 2%nat. eexists. eexists. split.
    + rewrite exec_replicate_S.
      erewrite turn_kid; [|exact Hj|simpl; reflexivity].
      rewrite exec_replicate_S.
      erewrite turn_kid; [|by apply list_lookup_insert_eq|simpl; rewrite Hmu; reflexivity].
      rewrite list_insert_insert_eq. reflexivity.
    + reflexivity.
  - exists 1%nat. eexists. eexists. split.
    + rewrite exec_replicate_S.
      erewrite turn_kid; [|exact Hj|simpl; rewrite Hmu; reflexivity].
      reflexivity.
    + reflexivity.
Qed.

Lemma P_exec_kids (sch : list nat) (st : Pool A * World) :
  Forall (fun i => i <> 0%nat) sch -> P st -> P (exec sch st).
Proof.
  revert st. induction sch as [|i sch IH]; intros st Hs HP; [exact HP|].
  inversion Hs as [|? ? Hi Hs']; subst. rewrite exec_cons. apply IH; [exact Hs'|].
  destruct i as [|j]; [congruence|]. by apply P_turn.
Qed.

Lemma Forall_replicate_S (k j : nat) : Forall (fun i => i <> 0%nat) (replicate k (S j)).
Proof. apply Forall_replicate. discriminate. Qed.

(** Whatever the state of the pool, there are turns of the goroutines
    after which the mutex is free. *)
Lemma unlock_all (main : Prog A) (kids : list (Prog unit)) (w : World) :
  P (Build_Pool main kids, w) ->
  exists sch kids' w',
    Forall (fun i => i <> 0%nat) sch /\
    exec sch (Build_Pool main kids, w) = (Build_Pool main kids', w') /\
    length kids' = length kids /\ s_mu w' = false.
Proof.
  intros HP. destruct (s_mu w) eqn:Hmu.
  - destruct (P_Inv _ HP) as [gs HI]. simpl in HI.
    destruct (inv_mu_held _ _ _ _ HI Hmu) as (i & gi & Hi & Hc).
    destruct (Inv_ghost_thread _ _ _ _ _ _ HI Hi) as (g & Hg & Ht).
    destruct (release w g gi Ht Hc main kids i Hg Hmu) as (k & g' & w' & Hrun & Hmu').
    exists (replicate k (S i)), (<[i := g']> kids), w'.
    split; [apply Forall_replicate_S|]. split; [exact Hrun|].
    split; [apply length_insert|exact Hmu'].
  - exists [], kids, w. repeat split; auto.
Qed.

(** ... and after which, moreover, the first [m] goroutines have
    returned. *)
Lemma finish_first (m : nat) (main : Prog A) (kids : list (Prog unit)) (w : World) :
  P (Build_Pool main kids, w) ->
  (m <= length kids)%nat ->
  exists sch kids' w',
    Forall (fun i => i <> 0%nat) sch /\
    exec sch (Build_Pool main kids, w) = (Build_Pool main kids', w') /\
    length kids' = length kids /\ s_mu w' = false /\
    forall j, (j < m)%nat -> kids' !! j = Some (Ret tt).
Proof.
  intros HP. induction m as [|m IH]; intros Hm.
  - destruct (unlock_all main kids w HP) as (sch & kids' & w' & Hs & Hrun & Hlen & Hmu).
    exists sch, kids', w'. repeat split; auto. intros j Hj. lia.
  - destruct IH as (sch & kids' & w' & Hs & Hrun & Hlen & Hmu & Hdone); [lia|].
    pose proof (P_exec_kids sch _ Hs HP) as HP'. rewrite Hrun in HP'.
    destruct (lookup_lt_is_Some_2 kids' m) as [g Hg]; [lia|].
    destruct (P_Inv _ HP') as [gs HI]. simpl in HI.
    destruct (Inv_thread _ _ _ _ _ _ HI Hg) as (gh & Hgh & Ht).
    pose proof (inv_mu_free _ _ _ _ HI _ _ Hmu Hgh) as Hcrit.
    destruct (solo_Thread w' g gh Ht Hcrit main kids' m HP' Hg Hmu)
      as (k & w'' & Hrun' & Hmu'').
    exists (sch ++ replicate k (S m)), (<[m := Ret tt]> kids'), w''.
    split; [apply Forall_app; split; [exact Hs|apply Forall_replicate_S]|].
    split; [by rewrite exec_app, Hrun, Hrun'|].
    split; [by rewrite length_insert|]. split; [exact Hmu''|].
    intros j Hj. destruct (decide (j = m)) as [->|Hne].
    + apply list_lookup_insert_eq. lia.
    + rewrite list_lookup_insert_ne by auto. apply Hdone. lia.
Qed.

(** ... and after which all the goroutines have returned. *)
Lemma finish_all (main : Prog A) (kids : list (Prog unit)) (w : World) :
  P (Build_Pool main kids, w) ->
  exists sch w',
    Forall (fun i => i <> 0%nat) sch /\
    exec sch (Build_Pool main kids, w)
      = (Build_Pool main (replicate (length kids) (Ret tt)), w').
Proof.
  intros HP.
  destruct (finish_first (length kids) main kids w HP (le_n _))
    as (sch & kids' & w' & Hs & Hrun & Hlen & _ & Hdone).
  exists sch, w'. split; [exact Hs|]. rewrite Hrun. do 2 f_equal.
  apply list_eq. intros j. destruct (decide (j < length kids)%nat) as [Hj|Hj].
  - rewrite (Hdone j Hj). symmetry. by apply lookup_replicate_2.
  - rewrite !lookup_ge_None_2; auto; [rewrite length_replicate|]; lia.
Qed.

End Solo.

Section Concurrent.

Local Open Scope nat_scope.

Variable svc : Cloud.
Variables es1 es2 es3 : list Finding.
Hypothesis Hes1 : Emits (scanS3 svc) es1 (s3_result svc).
Hypothesis Hes2 : Emits (scanSecurityGroups svc) es2 (sg_result svc).
Hypothesis Hes3 : Emits (scanIAM svc) es3 (iam_result svc).

Definition tasks : list (Prog unit) :=
  [ scan_task (scanS3 svc); scan_task (scanSecurityGroups svc);
    scan_task (scanIAM svc) ].

Definition ghosts0 : list Ghost :=
  [ Build_Ghost (es1 ++ []) (option_list (s3_result svc)) 1 None false;
    Build_Ghost (es2 ++ []) (option_list (sg_result svc)) 1 None false;
    Build_Ghost (es3 ++ []) (option_list (iam_result svc)) 1 None false ].

(** The errors of the checks that fail. *)
Definition all_errs : list string :=
  option_list (s3_result svc) ++ option_list (sg_result svc)
    ++ option_list (iam_result svc).

(** The caller of [ScanConcurrent], step after step. *)
Definition m11 : Prog error := LoadFindings (fun _ => Ret None).
Definition m10 : Prog error :=
  ChanRecv (fun r => match r with Some err => Ret (Some err) | None => m11 end).
Definition m9 : Prog error := ChanClose m10.
Definition m8 : Prog error := WgWait m9.
Definition m7 : Prog error := Go (scan_task (scanIAM svc)) m8.
Definition m6 : Prog error := WgAdd 1 m7.
Definition m5 : Prog error := Go (scan_task (scanSecurityGroups svc)) m6.
Definition m4 : Prog error := WgAdd 1 m5.
Definition m3 : Prog error := Go (scan_task (scanS3 svc)) m4.
Definition m2 : Prog error := WgAdd 1 m3.
Definition m1 : Prog error := ChanMake 3 m2.
Definition m0 : Prog error := WgNew m1.

Lemma ScanConcurrent_m0 : ScanConcurrent svc = m0.
Proof. reflexivity. Qed.

Definition main_at (n : nat) : option (Prog error) :=
  nth_error [m0; m1; m2; m3; m4; m5; m6; m7; m8; m9; m10; m11] n.

Definition spawned (n : nat) : nat :=
  match n with
  | 0 | 1 | 2 | 3 => 0
  | 4 | 5 => 1
  | 6 | 7 => 2
  | _ => 3
  end.

Definition pend (n : nat) : nat :=
  match n with
  | 3 | 5 | 7 => 1
  | _ => 0
  end.

Definition errs_ok (w : World) (gs : list Ghost) : Prop :=
  ch_buf w ++ concat (map g_errs gs) ≡ₚ all_errs.

Definition wg_ok (n : nat) (w : World) (gs : list Ghost) : Prop :=
  (sum_done gs + pend n = wg w + (3 - spawned n))%nat.

Definition phase_ok (n : nat) (main : Prog error) (w : World) (gs : list Ghost) : Prop :=
  match n with
  | 0 => main = m0 /\ gs = ghosts0
  | 1 => main = m1 /\ gs = ghosts0 /\ wg w = 0%nat
  | 2 | 3 | 4 | 5 | 6 | 7 | 8 =>
      main_at n = Some main /\ errs_ok w gs /\ wg_ok n w gs /\
      ch_closed w = false /\ ch_cap w = 3%nat
  | 9 => main = m9 /\ errs_ok w gs /\ sum_done gs = 0%nat /\ ch_closed w = false
  | 10 => main = m10 /\ errs_ok w gs /\ sum_done gs = 0%nat /\ ch_closed w = true
  | 11 => main = m11 /\ all_errs = [] /\ sum_done gs = 0%nat
  | 12 => sum_done gs = 0%nat /\
          ((main = Ret None /\ all_errs = []) \/
           (exists e, main = Ret (Some e) /\ e ∈ all_errs))
  | _ => False
  end.

(** The invariant of [ScanConcurrent]: the goroutines started so far,
    and the tasks not started yet as goroutines that have not moved. *)
Definition MainInv (total : list Finding) (n : nat) (st : Pool error * World) : Prop :=
  exists gs,
    Inv total st.2 (p_kids st.1 ++ drop (spawned n) tasks) gs /\
    length (p_kids st.1) = spawned n /\
    (forall i g gh, (p_kids st.1 ++ drop (spawned n) tasks) !! i = Some g ->
                    gs !! i = Some gh -> g_done gh = 1%nat \/ g = Ret tt) /\
    phase_ok n (p_main st.1) st.2 gs.

(** A step of a goroutine started by [ScanConcurrent]. *)
Lemma kid_step total (n : nat) (w : World) (kids : list (Prog unit)) (gs : list Ghost)
    (j : nat) (g g' : Prog unit) (w' : World) (new : list (Prog unit)) :
  Inv total w (kids ++ drop (spawned n) tasks) gs ->
  (forall i x gh, (kids ++ drop (spawned n) tasks) !! i = Some x ->
                  gs !! i = Some gh -> g_done gh = 1 \/ x = Ret tt) ->
  errs_ok w gs -> wg_ok n w gs -> ch_closed w = false -> ch_cap w = 3 ->
  kids !! j = Some g ->
  step g w = Step g' w' new ->
  new = [] /\
  exists gs',
    Inv total w' (<[j := g']> kids ++ drop (spawned n) tasks) gs' /\
    (forall i x gh, (<[j := g']> kids ++ drop (spawned n) tasks) !! i = Some x ->
                    gs' !! i = Some gh -> g_done gh = 1 \/ x = Ret tt) /\
    errs_ok w' gs' /\ wg_ok n w' gs' /\ ch_closed w' = false /\ ch_cap w' = 3.
Proof.
  intros HI HD Herrs Hwg Hcl Hcap Hj Hstep.
  assert (Hj' : (kids ++ drop (spawned n) tasks) !! j = Some g).
  { apply lookup_app_l_Some. exact Hj. }
  destruct (Inv_thread _ _ _ _ _ _ HI Hj') as (gh & Hgh & Ht).
  destruct (Thread_step _ _ _ _ _ _ Ht Hstep) as (-> & gh' & Ht' & Htr & Hdone).
  split; [reflexivity|].
  exists (<[j := gh']> gs).
  assert (Hlt : j < length kids) by (eapply lookup_lt_Some; exact Hj).
  split; [|split].
  - rewrite <- insert_app_l by exact Hlt.
    eapply Inv_trans; eauto.
  - intros i x ghi Hx Hi. rewrite <- insert_app_l in Hx by exact Hlt.
    apply lookup_insert_cases in Hx as [[-> ->]|[Hne Hx]].
    + rewrite list_lookup_insert_eq in Hi by (eapply lookup_lt_Some; exact Hgh).
      injection Hi as <-.
      destruct (HD _ _ _ Hj' Hgh) as [H1| ->]; [auto|].
      simpl in Hstep. discriminate.
    + rewrite list_lookup_insert_ne in Hi by auto. eauto.
  - unfold errs_ok, wg_ok in *.
    pose proof (sum_done_insert gs j gh gh' Hgh) as Hsum.
    pose proof (concat_map_insert g_errs gs j gh gh' Hgh) as Hcat.
    destruct Htr as [Hown Hcrit|es' Hes Hown Hcrit|f0 Hown Hcrit|q Hmu Hown Hcrit
                    |q f' Hown Hcrit Hq|q Hown Hcrit|q f' f es Hown Hcrit Hq Hf Hes
                    |Hmu Hown Hcrit|e errs Herrs' Hown Hcrit Hcl' Hcap'
                    |n' Hwg' Hd Hes Herrs' Hown Hcrit]; simpl in *;
      try (repeat split; auto; [|lia];
           rewrite <- Herrs; apply Permutation_app_head;
           apply (Permutation_app_inv_r (g_errs gh)); rewrite Hcat; reflexivity).
    + (* errChan <- err *)
      repeat split; auto; [|lia].
      rewrite <- Herrs. rewrite <- app_assoc. apply Permutation_app_head.
      rewrite Herrs' in Hcat. simpl.
      apply (Permutation_app_inv_r errs).
      rewrite <- Hcat. simpl. apply Permutation_middle.
    + (* wg.Done() *)
      repeat split; auto; [|lia].
      rewrite <- Herrs. apply Permutation_app_head.
      apply (Permutation_app_inv_r (g_errs gh)). rewrite Hcat.
      rewrite Herrs'. reflexivity.
Qed.

(** When the wait group is back at zero, every goroutine has returned. *)
Lemma all_returned total (w : World) (kids : list (Prog unit)) (gs : list Ghost) :
  Inv total w kids gs ->
  (forall i x gh, kids !! i = Some x -> gs !! i = Some gh ->
                  g_done gh = 1 \/ x = Ret tt) ->
  sum_done gs = 0 ->
  Forall (fun x => x = Ret tt) kids /\
  concat (map g_es gs) = [] /\ concat (map g_errs gs) = [].
Proof.
  intros HI HD Hsum.
  assert (Hall : forall i gh, gs !! i = Some gh ->
                   kids !! i = Some (Ret tt) /\ gh = Build_Ghost [] [] 0 None false).
  { intros i gh Hi.
    destruct (Inv_ghost_thread _ _ _ _ _ _ HI Hi) as (x & Hx & Ht).
    pose proof (sum_done_zero gs i gh Hsum Hi) as Hz.
    destruct (HD _ _ _ Hx Hi) as [H1| ->]; [lia|].
    split; [exact Hx|]. eapply Thread_returned; eauto. }
  pose proof (Forall2_length _ _ _ (inv_threads _ _ _ _ HI)) as Hlen.
  assert (Hgs : Forall (fun gh => gh = Build_Ghost [] [] 0 None false) gs).
  { apply Forall_forall. intros gh Hgh. apply list_elem_of_lookup in Hgh as [i Hi].
    by destruct (Hall i gh Hi). }
  split; [|split].
  - apply Forall_forall. intros x Hx. apply list_elem_of_lookup in Hx as [i Hi].
    destruct (lookup_lt_is_Some_2 gs i) as [gh Hgh].
    { rewrite <- Hlen. eapply lookup_lt_Some; eauto. }
    destruct (Hall i gh Hgh) as [Hk _]. congruence.
  - clear - Hgs. induction Hgs as [|gh gs -> _ IH]; [reflexivity|exact IH].
  - clear - Hgs. induction Hgs as [|gh gs -> _ IH]; [reflexivity|exact IH].
Qed.

(** A step of the caller. *)
Definition next_ok (n : nat) (w : World) (n' : nat) : Prop :=
  match n with
  | 8 => wg w = 0 -> n' = 9
  | 10 => n' = 11 \/ n' = 12
  | 12 => n' = 12
  | _ => n' = S n
  end.

Lemma main_step total (n : nat) (st : Pool error * World) :
  MainInv total n st ->
  exists n', MainInv total n' (turn 0 st) /\ next_ok n st.2 n'.
Proof.
  intros (gs & HI & Hlen & HD & Hph). destruct st as [[main kids] w]. simpl in *.
  destruct n as [|[|[|[|[|[|[|[|[|[|[|[|[|n]]]]]]]]]]]]]; simpl in Hph, Hlen, HI, HD;
    try contradiction; rewrite ?app_nil_r in HI, HD.
  all: try (destruct Hph as (Hm & Herrs & Hwg & Hcl & Hcap); injection Hm as <-).
  - (* var wg *)
    destruct Hph as [-> ->]. exists 1. (split; [|simpl; auto; try (intros; congruence)]). exists ghosts0. unfold m0. simpl. rewrite !app_nil_r.
    split; [apply (Inv_frame total w); auto|split; [exact Hlen|split; [exact HD|]]].
    simpl. auto.
  - (* make(chan error, 3) *)
    destruct Hph as (-> & -> & Hwg). exists 2. (split; [|simpl; auto; try (intros; congruence)]). exists ghosts0. unfold m1. simpl.
    rewrite !app_nil_r.
    split; [apply (Inv_frame total w); auto|split; [exact Hlen|split; [exact HD|]]].
    simpl. repeat split; auto.
    + unfold errs_ok, all_errs. simpl. by rewrite app_nil_r.
    + unfold wg_ok. simpl. lia.
  - (* wg.Add(1) *)
    exists 3. (split; [|simpl; auto; try (intros; congruence)]). exists gs. unfold m2. simpl. rewrite !app_nil_r.
    split; [apply (Inv_frame total w); auto|split; [exact Hlen|split; [exact HD|]]].
    simpl. repeat split; auto. unfold wg_ok in *. simpl in *. lia.
  - (* go scanS3 *)
    destruct kids; [|discriminate].
    exists 4. (split; [|simpl; auto; try (intros; congruence)]). exists gs. unfold m3. simpl.
    split; [exact HI|split; [reflexivity|split; [exact HD|]]].
    simpl. repeat split; auto. unfold wg_ok in *. simpl in *. lia.
  - (* wg.Add(1) *)
    exists 5. (split; [|simpl; auto; try (intros; congruence)]). exists gs. unfold m4. simpl. rewrite !app_nil_r.
    split; [apply (Inv_frame total w); auto|split; [exact Hlen|split; [exact HD|]]].
    simpl. repeat split; auto. unfold wg_ok in *. simpl in *. lia.
  - (* go scanSecurityGroups *)
    exists 6. (split; [|simpl; auto; try (intros; congruence)]). exists gs. unfold m5. simpl. rewrite <- !app_assoc.
    split; [exact HI|split; [rewrite length_app; simpl; lia|split; [exact HD|]]].
    simpl. repeat split; auto. unfold wg_ok in *. simpl in *. lia.
  - (* wg.Add(1) *)
    exists 7. (split; [|simpl; auto; try (intros; congruence)]). exists gs. unfold m6. simpl. rewrite !app_nil_r.
    split; [apply (Inv_frame total w); auto|split; [exact Hlen|split; [exact HD|]]].
    simpl. repeat split; auto. unfold wg_ok in *. simpl in *. lia.
  - (* go scanIAM *)
    exists 8. (split; [|simpl; auto; try (intros; congruence)]). exists gs. unfold m7. simpl. rewrite <- !app_assoc. simpl. rewrite ?app_nil_r.
    split; [exact HI|split; [rewrite length_app; simpl; lia|split; [exact HD|]]].
    simpl. repeat split; auto. unfold wg_ok in *. simpl in *. lia.
  - (* wg.Wait() *)
    unfold m8. simpl. destruct (wg w) eqn:Hw.
    + exists 9. (split; [|simpl; auto; try (intros; congruence)]). exists gs. simpl. rewrite !app_nil_r.
      unfold wg_ok in Hwg. simpl in Hwg. rewrite Hw in Hwg.
      split; [exact HI|split; [exact Hlen|split; [exact HD|]]].
      simpl. repeat split; auto. lia.
    + exists 8. (split; [|simpl; auto; try (intros; congruence)]). exists gs. simpl. rewrite !app_nil_r.
      split; [exact HI|split; [exact Hlen|split; [exact HD|]]].
      simpl. repeat split; auto.
  - (* close(errChan) *)
    destruct Hph as (-> & Herrs & Hsum & Hcl).
    exists 10. (split; [|simpl; auto; try (intros; congruence)]). exists gs. unfold m9. simpl. rewrite Hcl. simpl. rewrite !app_nil_r.
    split; [apply (Inv_frame total w); auto|split; [exact Hlen|split; [exact HD|]]].
    simpl. repeat split; auto.
  - (* range errChan *)
    destruct Hph as (-> & Herrs & Hsum & Hcl).
    unfold m10. simpl. destruct (ch_buf w) as [|e rest] eqn:Hbuf.
    + rewrite Hcl. exists 11. (split; [|simpl; auto; try (intros; congruence)]). exists gs. simpl. rewrite !app_nil_r.
      split; [exact HI|split; [exact Hlen|split; [exact HD|]]].
      simpl. repeat split; auto.
      destruct (all_returned total w _ gs HI HD Hsum) as (_ & _ & Hnone).
      unfold errs_ok in Herrs. rewrite Hbuf, Hnone in Herrs. simpl in Herrs.
      by apply Permutation_nil_l in Herrs.
    + exists 12. (split; [|simpl; auto; try (intros; congruence)]). exists gs. simpl. rewrite !app_nil_r.
      split; [apply (Inv_frame total w); auto|split; [exact Hlen|split; [exact HD|]]].
      simpl. split; [exact Hsum|]. right. exists e. split; [reflexivity|].
      unfold errs_ok in Herrs. rewrite Hbuf in Herrs. rewrite <- Herrs. left.
  - (* len(s.findings) *)
    destruct Hph as (-> & Herrs & Hsum).
    exists 12. (split; [|simpl; auto; try (intros; congruence)]). exists gs. unfold m11. simpl. rewrite !app_nil_r.
    split; [exact HI|split; [exact Hlen|split; [exact HD|]]].
    simpl. split; [exact Hsum|]. left. auto.
  - (* returned *)
    destruct Hph as (Hsum & [[-> Herrs]|(e & -> & He)]);
      exists 12; (split; [|reflexivity]); exists gs; simpl; rewrite ?app_nil_r;
      (split; [exact HI|split; [exact Hlen|split; [exact HD|]]]);
      simpl; (split; [exact Hsum|]); [left|right]; eauto.
Qed.

(** A step of a goroutine. *)
Lemma kid_turn total (n j : nat) (st : Pool error * World) :
  MainInv total n st -> MainInv total n (turn (S j) st).
Proof.
  intros HM. destruct st as [[main kids] w]. simpl.
  destruct (kids !! j) as [g|] eqn:Hj; [|exact HM].
  destruct (step g w) as [a|g' w' new| |] eqn:Hstep; try exact HM.
  destruct HM as (gs & HI & Hlen & HD & Hph). simpl in *.
  destruct n as [|[|[|[|[|[|[|[|[|[|[|[|[|n]]]]]]]]]]]]]; simpl in Hph, Hlen;
    try contradiction.
  1-4: (destruct kids; [discriminate|discriminate]).
  1-5: (destruct Hph as (Hm & Herrs & Hwg & Hcl & Hcap);
        destruct (kid_step total _ w kids gs j g g' w' new HI HD Herrs Hwg Hcl Hcap Hj Hstep)
          as (-> & gs' & HI' & HD' & Herrs' & Hwg' & Hcl' & Hcap');
        exists gs'; cbn [fst snd p_kids p_main];
        rewrite (app_nil_r (<[j := g']> kids));
        (split; [exact HI'|split; [rewrite length_insert; exact Hlen|split; [exact HD'|]]]);
        simpl; auto).
  all: simpl in HI, HD; rewrite app_nil_r in HI, HD.
  all: assert (Hsum : sum_done gs = 0) by (destruct Hph; intuition).
  all: destruct (all_returned total w kids gs HI HD Hsum) as (Hret & _ & _).
  all: rewrite Forall_forall in Hret; rewrite (Hret g) in Hstep
    by (eapply list_elem_of_lookup_2; exact Hj); discriminate.
Qed.

Lemma MainInv_exec total (sch : list nat) (n : nat) (st : Pool error * World) :
  MainInv total n st -> exists n', MainInv total n' (exec sch st).
Proof.
  revert n st. induction sch as [|i sch IH]; intros n st HM.
  - by exists n.
  - rewrite exec_cons.
    destruct i as [|j].
    + destruct (main_step total n st HM) as (n' & HM' & _). eauto.
    + pose proof (kid_turn total n j st HM) as HM'. eauto.
Qed.

(** The finding store and all findings to come, before the call. *)
Definition total0 (w : World) : list Finding :=
  map strip (findings_of w) ++ stored w (es1 ++ es2 ++ es3).

Lemma MainInv_start (w : World) :
  s_mu w = false -> wf w ->
  MainInv (total0 w) 0 (Build_Pool (ScanConcurrent svc) [], w).
Proof.
  intros Hmu Hwf. exists ghosts0. simpl.
  split; [|split; [reflexivity|split; [|split; reflexivity]]].
  - split.
    + repeat constructor; apply Acts_scan_task; assumption.
    + exact Hwf.
    + intros i j gi gj Hi _ Hc _. exfalso.
      destruct i as [|[|[|i]]]; simpl in Hi; try discriminate;
        injection Hi as <-; discriminate.
    + intros i gi _ Hi.
      destruct i as [|[|[|i]]]; simpl in Hi; try discriminate;
        injection Hi as <-; reflexivity.
    + intros Hmu'. congruence.
    + intros i gi q Hi Hq. exfalso.
      destruct i as [|[|[|i]]]; simpl in Hi; try discriminate;
        injection Hi as <-; discriminate.
    + intros i j gi gj q Hi _ Hq _. exfalso.
      destruct i as [|[|[|i]]]; simpl in Hi; try discriminate;
        injection Hi as <-; discriminate.
    + unfold total0. simpl. rewrite !app_nil_r. reflexivity.
  - intros i g gh _ Hi. left.
    destruct i as [|[|[|i]]]; simpl in Hi; try discriminate;
      injection Hi as <-; reflexivity.
Qed.

(** Once the caller is past [wg.Wait], the goroutines have returned and
    their turns change nothing. *)
Lemma kids_returned total (n : nat) (st : Pool error * World) :
  MainInv total n st -> 9 <= n ->
  p_kids st.1 = [Ret tt; Ret tt; Ret tt] /\
  map strip (findings_of st.2) ≡ₚ total.
Proof.
  intros (gs & HI & Hlen & HD & Hph) Hn. destruct st as [[main kids] w]. simpl in *.
  assert (Hsp : spawned n = 3).
  { do 9 (destruct n as [|n]; [lia|]). reflexivity. }
  rewrite Hsp in *. simpl in HI, HD. rewrite app_nil_r in HI, HD.
  assert (Hsum : sum_done gs = 0).
  { do 9 (destruct n as [|n]; [lia|]).
    destruct n as [|[|[|[|n]]]]; simpl in Hph; intuition. }
  destruct (all_returned total w kids gs HI HD Hsum) as (Hret & Hes & _).
  split.
  - destruct kids as [|a [|b [|c [|d kids]]]]; try discriminate.
    inversion Hret as [|? ? -> Hret1]; subst.
    inversion Hret1 as [|? ? -> Hret2]; subst.
    inversion Hret2 as [|? ? -> Hret3]; subst. reflexivity.
  - rewrite <- (inv_total _ _ _ _ HI). rewrite Hes. unfold stored. simpl.
    by rewrite app_nil_r.
Qed.

Lemma kid_turn_returned total (n j : nat) (st : Pool error * World) :
  MainInv total n st -> 9 <= n -> turn (S j) st = st.
Proof.
  intros HM Hn. destruct (kids_returned total n st HM Hn) as [Hk _].
  destruct st as [[main kids] w]. simpl in *. subst kids.
  destruct j as [|[|[|j]]]; reflexivity.
Qed.

(** What the caller returns. *)
Lemma MainInv_returned total (n : nat) (st : Pool error * World) (r : error) :
  MainInv total n st -> p_main st.1 = Ret r ->
  n = 12 /\ ((r = None /\ all_errs = []) \/ (exists e, r = Some e /\ e ∈ all_errs)).
Proof.
  intros (gs & HI & Hlen & HD & Hph) Hr. destruct st as [[main kids] w].
  simpl in *. subst main.
  destruct n as [|[|[|[|[|[|[|[|[|[|[|[|[|n]]]]]]]]]]]]]; simpl in Hph;
    try contradiction;
    try (destruct Hph as [Hm _]; discriminate).
  split; [reflexivity|].
  destruct Hph as (_ & [[Hm Hnone]|(e & Hm & He)]).
  - injection Hm as ->. by left.
  - injection Hm as ->. right. eauto.
Qed.

(** The error returned is the one at the head of the channel when the
    caller starts to range over it: the first one sent. *)
Definition recv_state total (h : error) (st : Pool error * World) : Prop :=
  (MainInv total 10 st /\ head (ch_buf st.2) = h) \/
  (MainInv total 11 st /\ h = None) \/
  (MainInv total 12 st /\ p_main st.1 = Ret h).

Lemma recv_state_turn total (h : error) (i : nat) (st : Pool error * World) :
  recv_state total h st -> recv_state total h (turn i st).
Proof.
  intros Hst. destruct i as [|j].
  - destruct Hst as [[HM Hh]|[[HM Hh]|[HM Hh]]].
    + destruct (main_step total 10 st HM) as (n' & HM' & Hn'). simpl in Hn'.
      destruct HM as (gs & _ & _ & _ & Hph). simpl in Hph.
      destruct Hph as (Hm & _ & _ & Hcl).
      destruct st as [[main kids] w]. simpl in *. subst main.
      unfold m10 in *. simpl in *.
      destruct (ch_buf w) as [|e rest] eqn:Hbuf; simpl in *.
      * rewrite Hcl in *. subst h.
        destruct Hn' as [-> | ->]; [right; left; auto|].
        exfalso. destruct HM' as (gs' & _ & _ & _ & Hph'). simpl in Hph'.
        destruct Hph' as (_ & [[Hm _]|(e & Hm & _)]); discriminate.
      * subst h. right. right.
        destruct Hn' as [-> | ->]; [|auto].
        exfalso. destruct HM' as (gs' & _ & _ & _ & Hph'). simpl in Hph'.
        destruct Hph' as (Hm & _). discriminate.
    + destruct (main_step total 11 st HM) as (n' & HM' & Hn'). simpl in Hn'. subst n'.
      right. right. split; [exact HM'|].
      destruct HM as (gs & _ & _ & _ & Hph). simpl in Hph. destruct Hph as (Hm & _).
      destruct st as [[main kids] w]. simpl in *. subst. reflexivity.
    + right. right.
      destruct st as [[main kids] w]. simpl in *. subst. simpl. auto.
  - destruct Hst as [[HM Hh]|[[HM Hh]|[HM Hh]]];
      rewrite (kid_turn_returned total _ j st HM) by lia;
      [left|right; left|right; right]; auto.
Qed.

Lemma recv_state_exec total (h : error) (sch : list nat) (st : Pool error * World) :
  recv_state total h st -> recv_state total h (exec sch st).
Proof.
  revert st. induction sch as [|i sch IH]; intros st Hst; [exact Hst|].
  rewrite exec_cons. apply IH. by apply recv_state_turn.
Qed.

(** *** [ScanConcurrent] can always return *)

Lemma Thread_send (w : World) (e : string) (k : Prog unit) (gh : Ghost) :
  Thread w (ChanSend e k) gh -> g_errs gh <> [].
Proof.
  intros Ht. inversion Ht as [p es errs d Hp| | | | | |]; subst.
  inversion Hp; subst. simpl. discriminate.
Qed.

Lemma Thread_done (w : World) (k : Prog unit) (gh : Ghost) :
  Thread w (WgDone k) gh -> g_done gh = 1.
Proof.
  intros Ht. inversion Ht as [p es errs d Hp| | | | | |]; subst.
  inversion Hp; subst. reflexivity.
Qed.

Lemma sum_done_ge (gs : list Ghost) (j : nat) (gh : Ghost) :
  gs !! j = Some gh -> g_done gh <= sum_done gs.
Proof.
  revert j. induction gs as [|x gs IH]; intros [|j] H; simpl in *; try discriminate.
  - injection H as ->. lia.
  - specialize (IH j H). lia.
Qed.

Lemma concat_errs_ge (gs : list Ghost) (j : nat) (gh : Ghost) :
  gs !! j = Some gh -> length (g_errs gh) <= length (concat (map g_errs gs)).
Proof.
  revert j. induction gs as [|x gs IH]; intros [|j] H; simpl in *; try discriminate.
  - injection H as ->. rewrite length_app. lia.
  - specialize (IH j H). rewrite length_app. lia.
Qed.

Lemma all_errs_length : length all_errs <= 3.
Proof.
  unfold all_errs. rewrite !length_app.
  destruct (s3_result svc), (sg_result svc), (iam_result svc); simpl; lia.
Qed.

Lemma MainInv8_Inv total (st : Pool error * World) :
  MainInv total 8 st -> exists gs, Inv total st.2 (p_kids st.1) gs.
Proof.
  intros (gs & HI & _). simpl in HI. rewrite app_nil_r in HI. eauto.
Qed.

Lemma MainInv8_send total main kids w j e k :
  MainInv total 8 (Build_Pool main kids, w) -> kids !! j = Some (ChanSend e k) ->
  ch_closed w = false /\ length (ch_buf w) < ch_cap w.
Proof.
  intros (gs & HI & _ & _ & Hph) Hj. simpl in *. rewrite app_nil_r in HI.
  destruct Hph as (_ & Herrs & _ & Hcl & Hcap). split; [exact Hcl|].
  destruct (Inv_thread _ _ _ _ _ _ HI Hj) as (gh & Hgh & Ht).
  apply Thread_send in Ht.
  pose proof (concat_errs_ge gs j gh Hgh) as Hge.
  pose proof all_errs_length as Hle.
  unfold errs_ok in Herrs. rewrite <- Herrs, length_app in Hle.
  destruct (g_errs gh); [congruence|]. simpl in Hge. lia.
Qed.

Lemma MainInv8_done total main kids w j k :
  MainInv total 8 (Build_Pool main kids, w) -> kids !! j = Some (WgDone k) ->
  wg w <> 0.
Proof.
  intros (gs & HI & _ & _ & Hph) Hj. simpl in *. rewrite app_nil_r in HI.
  destruct Hph as (_ & _ & Hwg & _).
  destruct (Inv_thread _ _ _ _ _ _ HI Hj) as (gh & Hgh & Ht).
  apply Thread_done in Ht.
  pose proof (sum_done_ge gs j gh Hgh) as Hge.
  unfold wg_ok in Hwg. simpl in Hwg. lia.
Qed.

(** The caller starts its three goroutines without waiting. *)
Lemma reach_wait total (n : nat) (st : Pool error * World) :
  MainInv total n st -> n <= 8 ->
  exists k, MainInv total 8 (exec (replicate k 0) st).
Proof.
  intros HM Hn. remember (8 - n) as m eqn:Hm. revert n st HM Hn Hm.
  induction m as [|m IH]; intros n st HM Hn Hm.
  - assert (n = 8) by lia. subst n. by exists 0.
  - destruct (main_step total n st HM) as (n' & HM' & Hnext).
    assert (n' = S n).
    { destruct n as [|[|[|[|[|[|[|[|n]]]]]]]]; simpl in Hnext; auto; lia. }
    subst n'. destruct (IH (S n) _ HM') as [k Hk]; [lia|lia|].
    exists (S k). by rewrite exec_replicate_S.
Qed.

Lemma returned_sum_done total (w : World) (kids : list (Prog unit)) (gs : list Ghost) :
  Inv total w kids gs -> Forall (fun x => x = Ret tt) kids -> sum_done gs = 0.
Proof.
  intros HI Hret.
  assert (Hall : Forall (fun gh => gh = Build_Ghost [] [] 0 None false) gs).
  { apply Forall_forall. intros gh Hgh. apply list_elem_of_lookup in Hgh as [i Hi].
    destruct (Inv_ghost_thread _ _ _ _ _ _ HI Hi) as (x & Hx & Ht).
    rewrite Forall_forall in Hret.
    rewrite (Hret x) in Ht by (eapply list_elem_of_lookup_2; exact Hx).
    eapply Thread_returned; eauto. }
  clear - Hall. induction Hall as [|gh gs -> _ IH]; [reflexivity|exact IH].
Qed.

(** After [wg.Wait] the caller returns within three steps. *)
Lemma after_wait total (n : nat) (st : Pool error * World) :
  MainInv total n st -> 9 <= n ->
  exists r, p_main (exec [0; 0; 0] st).1 = Ret r.
Proof.
  intros HM Hn.
  assert (Hadv : forall n st, MainInv total n st -> 9 <= n ->
            exists n', MainInv total n' (turn 0 st) /\ n' <= 12 /\ n <= n' /\
                       (n < 12 -> n < n')).
  { clear. intros n st HM Hn.
    destruct (main_step total n st HM) as (n' & HM' & Hnext).
    exists n'. split; [exact HM'|].
    do 9 (destruct n as [|n]; [lia|]).
    destruct n as [|[|[|[|n]]]]; simpl in Hnext; try lia.
    destruct HM as (gs & _ & _ & _ & Hph). simpl in Hph. contradiction. }
  destruct (Hadv n st HM Hn) as (n1 & HM1 & Hle1 & Hge1 & Hlt1).
  destruct (Hadv n1 _ HM1) as (n2 & HM2 & Hle2 & Hge2 & Hlt2); [lia|].
  destruct (Hadv n2 _ HM2) as (n3 & HM3 & Hle3 & Hge3 & Hlt3); [lia|].
  assert (n3 = 12) by lia. subst n3.
  change (exec [0; 0; 0] st) with (turn 0 (turn 0 (turn 0 st))).
  destruct HM3 as (gs & _ & _ & _ & Hph). simpl in Hph.
  destruct Hph as (_ & [[Hm _]|(e & Hm & _)]); rewrite Hm; eauto.
Qed.

(** From any state it has reached, [ScanConcurrent] can return. *)
Lemma can_return total (n : nat) (st : Pool error * World) :
  MainInv total n st ->
  exists sch r, p_main (exec sch st).1 = Ret r.
Proof.
  intros HM. destruct (decide (n <= 8)) as [Hn|Hn].
  - destruct (reach_wait total n st HM Hn) as [k HM8].
    destruct (exec (replicate k 0) st) as [[main kids] w] eqn:Hst.
    destruct (finish_all total (MainInv total 8)
                (fun j st => kid_turn total 8 j st)
                (MainInv8_Inv total) (MainInv8_send total) (MainInv8_done total)
                main kids w HM8) as (sch & w' & Hs & Hrun).
    pose proof (P_exec_kids (MainInv total 8) (fun j st => kid_turn total 8 j st)
                  sch _ Hs HM8) as HM8'.
    rewrite Hrun in HM8'.
    destruct (main_step total 8 _ HM8') as (n' & HM9 & Hnext). simpl in Hnext.
    assert (Hwg : wg w' = 0).
    { destruct HM8' as (gs & HI & _ & _ & Hph). simpl in *. rewrite app_nil_r in HI.
      destruct Hph as (_ & _ & Hwg & _). unfold wg_ok in Hwg. simpl in Hwg.
      rewrite (returned_sum_done total w' _ gs HI) in Hwg; [lia|].
      apply Forall_replicate. reflexivity. }
    specialize (Hnext Hwg). subst n'.
    destruct (after_wait total 9 _ HM9) as [r Hr]; [lia|].
    exists (replicate k 0 ++ sch ++ [0] ++ [0; 0; 0]), r.
    rewrite !exec_app, Hst, Hrun. exact Hr.
  - destruct (after_wait total n st HM) as [r Hr]; [lia|]. eauto.
Qed.

End Concurrent.


(** ** The concurrent scan *)

(** The caller is about to range over the error channel. *)
Definition ranging : Prog error := m10.

Lemma MainInv_ranging svc es1 es2 es3 total (n : nat) (st : Pool error * World) :
  MainInv svc es1 es2 es3 total n st -> p_main st.1 = ranging -> n = 10%nat.
Proof.
  intros (gs & _ & _ & _ & Hph) Hm. destruct st as [[main kids] w]. simpl in *.
  subst main.
  destruct n as [|[|[|[|[|[|[|[|[|[|[|[|[|n]]]]]]]]]]]]]; simpl in Hph;
    try contradiction; try reflexivity;
    try (destruct Hph as [Hm _]; discriminate).
  destruct Hph as (_ & [[Hm _]|(e & Hm & _)]); discriminate.
Qed.

Lemma all_errs_nil svc :
  all_errs svc = [] <->
  s3_result svc = None /\ sg_result svc = None /\ iam_result svc = None.
Proof.
  unfold all_errs.
  destruct (s3_result svc), (sg_result svc), (iam_result svc); simpl;
    split; intros H; try discriminate; auto; destruct H as (? & ? & ?); discriminate.
Qed.

Lemma all_errs_elem svc (e : string) :
  e ∈ all_errs svc ->
  Some e = s3_result svc \/ Some e = sg_result svc \/ Some e = iam_result svc.
Proof.
  unfold all_errs. intros H.
  apply elem_of_app in H as [H|H]; [|apply elem_of_app in H as [H|H]];
    [destruct (s3_result svc)|destruct (sg_result svc)|destruct (iam_result svc)];
    simpl in H; try (by apply elem_of_nil in H);
    apply list_elem_of_singleton in H as ->; auto.
Qed.

(** C7. Concurrent error aggregation, for every schedule of the
    goroutines:
    - whatever has happened so far, the call can still return (nothing
      is deadlocked, whichever checks fail);
    - when it has returned, its three goroutines have returned too; the
      error is not nil exactly when some check failed, and it is then the
      error of one of the failing checks; the store holds the findings of
      all three checks (a failing check reports none, its siblings are
      not cancelled);
    - the error returned is the one at the head of the channel when the
      caller starts to range over it, that is the first one sent. *)
Theorem concurrent_error_aggregation (svc : Cloud) (w : World) (sch : list nat) :
  s_mu w = false ->
  wf w ->
  let st0 := (Build_Pool (ScanConcurrent svc) [], w) in
  (exists sch' r, p_main (exec (sch ++ sch') st0).1 = Ret r) /\
  (forall r, p_main (exec sch st0).1 = Ret r ->
     p_kids (exec sch st0).1 = [Ret tt; Ret tt; Ret tt] /\
     (r <> None <->
        s3_result svc <> None \/ sg_result svc <> None \/ iam_result svc <> None) /\
     (forall e, r = Some e ->
        Some e = s3_result svc \/ Some e = sg_result svc \/ Some e = iam_result svc) /\
     exists es1 es2 es3,
       Emits (scanS3 svc) es1 (s3_result svc) /\
       Emits (scanSecurityGroups svc) es2 (sg_result svc) /\
       Emits (scanIAM svc) es3 (iam_result svc) /\
       map strip (findings_of (exec sch st0).2)
         ≡ₚ map strip (findings_of w) ++ stored w (es1 ++ es2 ++ es3)) /\
  (forall sch1 sch2 r,
     sch = sch1 ++ sch2 ->
     p_main (exec sch1 st0).1 = ranging ->
     p_main (exec sch st0).1 = Ret r ->
     r = head (ch_buf (exec sch1 st0).2)).
Proof.
  intros Hmu Hwf st0.
  destruct (Emits_scanS3 svc) as [es1 H1].
  destruct (Emits_scanSecurityGroups svc) as [es2 H2].
  destruct (Emits_scanIAM svc) as [es3 H3].
  pose proof (MainInv_start svc es1 es2 es3 H1 H2 H3 w Hmu Hwf) as H0.
  fold st0 in H0.
  split; [|split].
  - destruct (MainInv_exec _ _ _ _ _ sch _ _ H0) as [n HM].
    destruct (can_return svc es1 es2 es3 H1 H2 H3 _ n _ HM) as (sch' & r & Hr).
    exists sch', r. by rewrite exec_app.
  - intros r Hr.
    destruct (MainInv_exec _ _ _ _ _ sch _ _ H0) as [n HM].
    destruct (MainInv_returned _ _ _ _ _ _ _ r HM Hr) as [-> Hres].
    destruct (kids_returned _ _ _ _ _ _ _ HM) as [Hkids Hstore]; [lia|].
    split; [exact Hkids|]. split; [|split].
    + destruct Hres as [[-> Hnone]|(e & -> & He)].
      * apply all_errs_nil in Hnone as (-> & -> & ->).
        split; [congruence|]. intros [H|[H|H]]; congruence.
      * split; [|discriminate]. intros _.
        destruct (all_errs_elem svc e He) as [H|[H|H]]; rewrite <- H; auto.
    + intros e ->. destruct Hres as [[Hr' _]|(e' & Hr' & He)]; [discriminate|].
      injection Hr' as ->. by apply all_errs_elem.
    + exists es1, es2, es3. repeat split; auto.
  - intros sch1 sch2 r -> Hm Hr.
    destruct (MainInv_exec _ _ _ _ _ sch1 _ _ H0) as [n HM].
    pose proof (MainInv_ranging _ _ _ _ _ _ _ HM Hm) as ->.
    assert (Hst : recv_state svc es1 es2 es3 (total0 es1 es2 es3 w)
                    (head (ch_buf (exec sch1 st0).2)) (exec sch1 st0)).
    { left. auto. }
    apply (recv_state_exec _ _ _ _ _ _ sch2) in Hst.
    rewrite <- exec_app in Hst.
    destruct Hst as [[HM' _]|[[HM' _]|[_ Hm']]].
    + destruct (MainInv_returned _ _ _ _ _ _ _ r HM' Hr) as [? _]. discriminate.
    + destruct (MainInv_returned _ _ _ _ _ _ _ r HM' Hr) as [? _]. discriminate.
    + rewrite Hr in Hm'. by injection Hm'.
Qed.

Definition two_failures_cloud : Cloud :=
  {| ListBuckets := Err "AccessDenied";
     GetBucketEncryption := GetBucketEncryption example_cloud;
     GetBucketAcl := GetBucketAcl example_cloud;
     GetBucketVersioning := GetBucketVersioning example_cloud;
     DescribeSecurityGroups := Ok [];
     ListUsers := Err "Throttling";
     GetLoginProfile := GetLoginProfile example_cloud;
     ListMFADevices := ListMFADevices example_cloud;
     ListAccessKeys := ListAccessKeys example_cloud |}.

(** The caller starts its goroutines; the storage check fails first, the
    others follow; the caller then collects. *)
Definition storage_first : list nat :=
  replicate 8 0%nat ++ [1; 1; 3; 3; 2] %nat ++ replicate 3 0%nat.

Definition identity_first : list nat :=
  replicate 8 0%nat ++ [3; 3; 1; 1; 2] %nat ++ replicate 3 0%nat.

Lemma concurrent_error_aggregation_witness :
  let st0 := (Build_Pool (ScanConcurrent two_failures_cloud) [], fresh_world) in
  (exists sch' r, p_main (exec (storage_first ++ sch') st0).1 = Ret r) /\
  (forall r, p_main (exec storage_first st0).1 = Ret r ->
     p_kids (exec storage_first st0).1 = [Ret tt; Ret tt; Ret tt] /\
     (r <> None <->
        s3_result two_failures_cloud <> None \/ sg_result two_failures_cloud <> None
        \/ iam_result two_failures_cloud <> None) /\
     (forall e, r = Some e ->
        Some e = s3_result two_failures_cloud \/ Some e = sg_result two_failures_cloud
        \/ Some e = iam_result two_failures_cloud) /\
     exists es1 es2 es3,
       Emits (scanS3 two_failures_cloud) es1 (s3_result two_failures_cloud) /\
       Emits (scanSecurityGroups two_failures_cloud) es2 (sg_result two_failures_cloud) /\
       Emits (scanIAM two_failures_cloud) es3 (iam_result two_failures_cloud) /\
       map strip (findings_of (exec storage_first st0).2)
         ≡ₚ map strip (findings_of fresh_world) ++ stored fresh_world (es1 ++ es2 ++ es3)) /\
  (forall sch1 sch2 r,
     storage_first = sch1 ++ sch2 ->
     p_main (exec sch1 st0).1 = ranging ->
     p_main (exec storage_first st0).1 = Ret r ->
     r = head (ch_buf (exec sch1 st0).2)).
Proof.
  apply (concurrent_error_aggregation two_failures_cloud fresh_world storage_first);
    [reflexivity|apply wf_NewScanner].
Defined.

(** Which error is returned depends on which goroutine sends first. *)
Example first_error_by_completion_order :
  let st0 := (Build_Pool (ScanConcurrent two_failures_cloud) [], fresh_world) in
  p_main (exec storage_first st0).1 = Ret (Some "failed to list S3 buckets: AccessDenied") /\
  p_main (exec identity_first st0).1 = Ret (Some "failed to list IAM users: Throttling").
Proof. split; vm_compute; reflexivity. Qed.

(** ** Sequential and concurrent scans *)

Lemma run_Scan_ok (svc : Cloud) es1 es2 es3 (w : World) :
  Emits (scanS3 svc) es1 (s3_result svc) ->
  Emits (scanSecurityGroups svc) es2 (sg_result svc) ->
  Emits (scanIAM svc) es3 (iam_result svc) ->
  s3_result svc = None -> sg_result svc = None -> iam_result svc = None ->
  s_mu w = false -> wf w ->
  exists w',
    run (Scan svc) w = Some (None, w') /\
    map strip (findings_of w')
      ≡ₚ map strip (findings_of w) ++ stored w (es1 ++ es2 ++ es3).
Proof.
  intros H1 H2 H3 E1 E2 E3 Hmu Hwf.
  destruct (run_Emits _ _ _ H1 w Hmu Hwf)
    as (w1 & fs1 & Hr1 & Hmu1 & Hwf1 & Hreg1 & Hfs1 & Hp1).
  destruct (run_Emits _ _ _ H2 w1 Hmu1 Hwf1)
    as (w2 & fs2 & Hr2 & Hmu2 & Hwf2 & Hreg2 & Hfs2 & Hp2).
  destruct (run_Emits _ _ _ H3 w2 Hmu2 Hwf2)
    as (w3 & fs3 & Hr3 & Hmu3 & Hwf3 & Hreg3 & Hfs3 & Hp3).
  exists w3. split.
  - unfold Scan. unfold mbind, Prog_bind. unfold error in *.
    rewrite run_bind, Hr1, E1. rewrite run_bind, Hr2, E2.
    rewrite run_bind, Hr3, E3. reflexivity.
  - rewrite Hfs3, Hfs2, Hfs1. rewrite !map_app. rewrite Hp1, Hp2, Hp3.
    unfold stored. rewrite Hreg2, Hreg1. rewrite !map_app.
    by rewrite <- !app_assoc.
Qed.

(** C3. Sequential and concurrent scans agree: on an account where no
    check fails, [Scan] returns nil, [ScanConcurrent] can return under
    every schedule and returns nil, and the two stores hold the same
    findings up to their order and their timestamps. *)
Theorem sequential_concurrent_equivalence (svc : Cloud) (w1 w2 : World)
    (sch : list nat) :
  s3_result svc = None ->
  sg_result svc = None ->
  iam_result svc = None ->
  s_mu w1 = false -> wf w1 ->
  s_mu w2 = false -> wf w2 ->
  s_region w1 = s_region w2 ->
  map strip (findings_of w1) ≡ₚ map strip (findings_of w2) ->
  let st0 := (Build_Pool (ScanConcurrent svc) [], w2) in
  exists w1',
    run (Scan svc) w1 = Some (None, w1') /\
    (exists sch' r, p_main (exec (sch ++ sch') st0).1 = Ret r) /\
    (forall r, p_main (exec sch st0).1 = Ret r ->
       r = None /\
       map strip (findings_of w1') ≡ₚ map strip (findings_of (exec sch st0).2)).
Proof.
  intros E1 E2 E3 Hmu1 Hwf1 Hmu2 Hwf2 Hreg Hstore st0.
  destruct (Emits_scanS3 svc) as [es1 H1].
  destruct (Emits_scanSecurityGroups svc) as [es2 H2].
  destruct (Emits_scanIAM svc) as [es3 H3].
  destruct (run_Scan_ok svc es1 es2 es3 w1 H1 H2 H3 E1 E2 E3 Hmu1 Hwf1)
    as (w1' & Hrun & Hseq).
  pose proof (MainInv_start svc es1 es2 es3 H1 H2 H3 w2 Hmu2 Hwf2) as H0.
  fold st0 in H0.
  destruct (MainInv_exec _ _ _ _ _ sch _ _ H0) as [n HM].
  exists w1'. split; [exact Hrun|]. split.
  - destruct (can_return svc es1 es2 es3 H1 H2 H3 _ n _ HM) as (sch' & r & Hr).
    exists sch', r. by rewrite exec_app.
  - intros r Hr.
    destruct (MainInv_returned _ _ _ _ _ _ _ r HM Hr) as [-> Hres].
    destruct (kids_returned _ _ _ _ _ _ _ HM) as [_ Hconc]; [lia|].
    split.
    + destruct Hres as [[-> _]|(e & _ & He)]; [reflexivity|].
      assert (Hnil : all_errs svc = []) by (apply all_errs_nil; auto).
      rewrite Hnil in He. by apply elem_of_nil in He.
    + rewrite Hseq, Hconc. unfold total0, stored. by rewrite Hstore, Hreg.
Qed.

Definition other_world : World :=
  NewScanner "us-east-1" (fun n => 1000 + 2 * Z.of_nat n) (fun _ => [1%nat; 1%nat]).

Definition interleaved : list nat :=
  replicate 8 0%nat ++ concat (replicate 12 [3; 1; 2]%nat) ++ replicate 4 0%nat.

Lemma sequential_concurrent_equivalence_witness :
  let st0 := (Build_Pool (ScanConcurrent example_cloud) [], other_world) in
  exists w1',
    run (Scan example_cloud) fresh_world = Some (None, w1') /\
    (exists sch' r, p_main (exec (interleaved ++ sch') st0).1 = Ret r) /\
    (forall r, p_main (exec interleaved st0).1 = Ret r ->
       r = None /\
       map strip (findings_of w1') ≡ₚ map strip (findings_of (exec interleaved st0).2)).
Proof.
  apply (sequential_concurrent_equivalence example_cloud fresh_world other_world
           interleaved); try reflexivity; apply wf_NewScanner.
Defined.

(** On the example account the interleaved run returns; the two stores
    hold the same two findings, in different orders. *)
Example sequential_concurrent_example :
  let st := exec interleaved (Build_Pool (ScanConcurrent example_cloud) [], other_world) in
  p_main st.1 = Ret None /\
  map Title (findings_of st.2) = [ "IAM User Without MFA"; "S3 Bucket Publicly Accessible" ] /\
  (exists w', run (Scan example_cloud) fresh_world = Some (None, w') /\
     map Title (findings_of w') = [ "S3 Bucket Publicly Accessible"; "IAM User Without MFA" ]).
Proof.
  split; [vm_compute; reflexivity|]. split; [vm_compute; reflexivity|].
  eexists. split; vm_compute; reflexivity.
Qed.

(** ** The lock discipline of the finding store *)

(** [Guarded held p]: started with the mutex [s.mu] held or not by the
    goroutine, the program [p] reads and writes [s.findings] only while
    the goroutine holds the mutex. *)
Inductive Guarded {A : Type} : bool -> Prog A -> Prop :=
| G_Ret h a : Guarded h (Ret a)
| G_Now h k : (forall t, Guarded h (k t)) -> Guarded h (Now k)
| G_Alloc h f k : (forall q, Guarded h (k q)) -> Guarded h (Alloc f k)
| G_AssignRegion h p k : Guarded h k -> Guarded h (AssignRegion p k)
| G_Deref h p k : (forall f, Guarded h (k f)) -> Guarded h (Deref p k)
| G_MuLock k : Guarded true k -> Guarded false (MuLock k)
| G_MuUnlock k : Guarded false k -> Guarded true (MuUnlock k)
| G_LoadFindings k : (forall l, Guarded true (k l)) -> Guarded true (LoadFindings k)
| G_StoreFindings l k : Guarded true k -> Guarded true (StoreFindings l k)
| G_RangeMap h m k :
    (forall o, o ≡ₚ m -> Guarded h (k o)) -> Guarded h (RangeMap m k)
| G_WgNew h k : Guarded h k -> Guarded h (WgNew k)
| G_WgAdd h n k : Guarded h k -> Guarded h (WgAdd n k)
| G_WgDone h k : Guarded h k -> Guarded h (WgDone k)
| G_WgWait h k : Guarded h k -> Guarded h (WgWait k)
| G_ChanMake h c k : Guarded h k -> Guarded h (ChanMake c k)
| G_ChanSend h e k : Guarded h k -> Guarded h (ChanSend e k)
| G_ChanClose h k : Guarded h k -> Guarded h (ChanClose k)
| G_ChanRecv h k : (forall r, Guarded h (k r)) -> Guarded h (ChanRecv k)
| G_Go h g k : Guarded false g -> Guarded h k -> Guarded h (Go g k).

Lemma Guarded_addFinding (finding : loc) : Guarded false (addFinding finding).
Proof.
  unfold addFinding. simpl. apply G_MuLock. apply G_AssignRegion.
  apply G_LoadFindings. intros l. apply G_StoreFindings. apply G_MuUnlock.
  apply G_Ret.
Qed.

Lemma not_Guarded_GetFindings : ~ Guarded false GetFindings.
Proof. unfold GetFindings. intros H. inversion H. Qed.

Lemma not_Guarded_GetFindingsBySeverity (severity : string) :
  ~ Guarded false (GetFindingsBySeverity severity).
Proof. unfold GetFindingsBySeverity. simpl. intros H. inversion H. Qed.

(** *** Goroutines that only append, interleaved *)

(** The invariant of a pool whose goroutines only report findings. *)
Definition PoolInv (total : list Finding) (st : Pool unit * World) : Prop :=
  exists gs,
    Inv total st.2 (p_kids st.1) gs /\
    Forall (fun gh => g_errs gh = [] /\ g_done gh = 0%nat) gs.

Lemma PoolInv_turn total (j : nat) (st : Pool unit * World) :
  PoolInv total st -> PoolInv total (turn (S j) st).
Proof.
  intros HP. destruct st as [[main kids] w]. simpl.
  destruct (kids !! j) as [g|] eqn:Hj; [|exact HP].
  destruct (step g w) as [a|g' w' new| |] eqn:Hstep; try exact HP.
  destruct HP as (gs & HI & Hq). simpl in *.
  destruct (Inv_thread _ _ _ _ _ _ HI Hj) as (gh & Hgh & Ht).
  destruct (Thread_step _ _ _ _ _ _ Ht Hstep) as (-> & gh' & Ht' & Htr & _).
  rewrite app_nil_r. exists (<[j := gh']> gs). split.
  - eapply Inv_trans; eauto.
  - apply Forall_insert; [exact Hq|].
    assert (Hgh' : g_errs gh = [] /\ g_done gh = 0%nat).
    { rewrite Forall_forall in Hq. apply Hq. eapply list_elem_of_lookup_2; eauto. }
    destruct Hgh' as [He Hd].
    destruct Htr; simpl; auto; congruence.
Qed.

Lemma PoolInv_Inv total (st : Pool unit * World) :
  PoolInv total st -> exists gs, Inv total st.2 (p_kids st.1) gs.
Proof. intros (gs & HI & _). eauto. Qed.

Lemma PoolInv_ghost total main kids w (j : nat) (g : Prog unit) :
  PoolInv total (Build_Pool main kids, w) -> kids !! j = Some g ->
  exists gh, Thread w g gh /\ g_errs gh = [] /\ g_done gh = 0%nat.
Proof.
  intros (gs & HI & Hq) Hj. simpl in *.
  destruct (Inv_thread _ _ _ _ _ _ HI Hj) as (gh & Hgh & Ht).
  exists gh. split; [exact Ht|].
  rewrite Forall_forall in Hq. apply Hq. eapply list_elem_of_lookup_2; eauto.
Qed.

Lemma PoolInv_send total main kids w (j : nat) e k :
  PoolInv total (Build_Pool main kids, w) -> kids !! j = Some (ChanSend e k) ->
  ch_closed w = false /\ (length (ch_buf w) < ch_cap w)%nat.
Proof.
  intros HP Hj. destruct (PoolInv_ghost _ _ _ _ _ _ HP Hj) as (gh & Ht & He & _).
  apply Thread_send in Ht. contradiction.
Qed.

Lemma PoolInv_done total main kids w (j : nat) k :
  PoolInv total (Build_Pool main kids, w) -> kids !! j = Some (WgDone k) ->
  wg w <> 0%nat.
Proof.
  intros HP Hj. destruct (PoolInv_ghost _ _ _ _ _ _ HP Hj) as (gh & Ht & _ & Hd).
  apply Thread_done in Ht. congruence.
Qed.

Lemma PoolInv_exec total (sch : list nat) (kids : list (Prog unit)) (w : World) :
  PoolInv total (Build_Pool (Ret tt) kids, w) ->
  exists kids' w',
    exec sch (Build_Pool (Ret tt) kids, w) = (Build_Pool (Ret tt) kids', w') /\
    PoolInv total (Build_Pool (Ret tt) kids', w').
Proof.
  revert kids w. induction sch as [|i sch IH]; intros kids w HP.
  - exists kids, w. auto.
  - rewrite exec_cons. destruct i as [|j].
    + simpl turn. by apply IH.
    + pose proof (PoolInv_turn total j _ HP) as HP'.
      destruct (turn (S j) (Build_Pool (Ret tt) kids, w)) as [[main kids1] w1] eqn:Ht.
      assert (main = Ret tt) as ->.
      { simpl in Ht. destruct (kids !! j); [|congruence].
        destruct (step p w); congruence. }
      by apply IH.
Qed.

Definition ghost_of (es : list Finding) : Ghost := Build_Ghost es [] 0 None false.

Lemma PoolInv_start (kids : list (Prog unit)) (ess : list (list Finding)) (w : World) :
  Forall2 (fun g es => Emits g es tt) kids ess ->
  s_mu w = false -> wf w ->
  PoolInv (map strip (findings_of w) ++ stored w (concat ess))
          (Build_Pool (Ret tt) kids, w).
Proof.
  intros Hk Hmu Hwf. exists (map ghost_of ess). simpl.
  assert (Hg : forall i gi, map ghost_of ess !! i = Some gi ->
                 exists es, gi = ghost_of es).
  { intros i gi Hi. rewrite list_lookup_fmap in Hi.
    destruct (ess !! i) as [es|]; [|discriminate]. injection Hi as <-. eauto. }
  split; [split|].
  - apply Forall2_fmap_r. eapply Forall2_impl; [exact Hk|].
    intros g es He. by apply T_idle.
  - exact Hwf.
  - intros i j gi gj Hi _ Hc _. destruct (Hg i gi Hi) as [es ->]. discriminate.
  - intros i gi _ Hi. destruct (Hg i gi Hi) as [es ->]. reflexivity.
  - intros Hmu'. congruence.
  - intros i gi q Hi Hq. destruct (Hg i gi Hi) as [es ->]. discriminate.
  - intros i j gi gj q Hi _ Hq _. destruct (Hg i gi Hi) as [es ->]. discriminate.
  - rewrite map_map. simpl. by rewrite map_id.
  - apply Forall_forall. intros gi Hgi. apply list_elem_of_lookup in Hgi as [i Hi].
    destruct (Hg i gi Hi) as [es ->]. auto.
Qed.

Lemma concat_length_same {X : Type} (ls : list (list X)) (m : nat) :
  Forall (fun l => length l = m) ls -> length (concat ls) = (length ls * m)%nat.
Proof.
  induction 1 as [|l ls Hl _ IH]; simpl; [reflexivity|].
  rewrite length_app, Hl, IH. reflexivity.
Qed.

Lemma Acts_Guarded {A : Type} (p : Prog A) es errs d a :
  Acts p es errs d a -> Guarded false p.
Proof.
  induction 1 as [a|mk k g es errs d a Hmk Hk IH|m k eso es errs d a Hes Hk IH
                 |e k es errs d a Hk IH|a].
  - apply G_Ret.
  - unfold emit_then. apply G_Now. intros t. apply G_Alloc. intros q.
    apply G_MuLock. apply G_AssignRegion. apply G_LoadFindings. intros l.
    apply G_StoreFindings. apply G_MuUnlock. exact IH.
  - apply G_RangeMap. exact IH.
  - apply G_ChanSend. exact IH.
  - apply G_WgDone. apply G_Ret.
Qed.

Lemma returned_no_pending total (w : World) (kids : list (Prog unit)) (gs : list Ghost) :
  Inv total w kids gs -> Forall (fun x => x = Ret tt) kids ->
  concat (map g_es gs) = [].
Proof.
  intros HI Hret.
  assert (Hall : Forall (fun gh => gh = Build_Ghost [] [] 0 None false) gs).
  { apply Forall_forall. intros gh Hgh. apply list_elem_of_lookup in Hgh as [i Hi].
    destruct (Inv_ghost_thread _ _ _ _ _ _ HI Hi) as (x & Hx & Ht).
    rewrite Forall_forall in Hret.
    rewrite (Hret x) in Ht by (eapply list_elem_of_lookup_2; exact Hx).
    eapply Thread_returned; eauto. }
  clear - Hall. induction Hall as [|gh gs -> _ IH]; [reflexivity|exact IH].
Qed.

(** C9, as the code has it.  Every goroutine that reports findings --
    each check is one -- reads and writes [s.findings] only inside
    [addFinding], with [s.mu] held; so, for [N] goroutines that each
    append [M] findings and every schedule, the goroutines can all run to
    their end, and then the store has grown by exactly [N * M] findings,
    those appended, none lost and none twice.  The readers [GetFindings]
    and [GetFindingsBySeverity] read [s.findings] without the mutex. *)
Theorem appends_locked_reads_unlocked (kids : list (Prog unit))
    (ess : list (list Finding)) (N M : nat) (w : World) (sch : list nat) :
  Forall2 (fun g es => Emits g es tt) kids ess ->
  length kids = N ->
  Forall (fun es => length es = M) ess ->
  s_mu w = false ->
  wf w ->
  let st0 := (Build_Pool (Ret tt) kids, w) in
  (forall finding, Guarded false (addFinding finding)) /\
  Forall (Guarded false) kids /\
  ~ Guarded false GetFindings /\
  (forall severity, ~ Guarded false (GetFindingsBySeverity severity)) /\
  (exists sch', Forall (fun g => g = Ret tt) (p_kids (exec (sch ++ sch') st0).1)) /\
  (Forall (fun g => g = Ret tt) (p_kids (exec sch st0).1) ->
     length (findings_of (exec sch st0).2) = (length (findings_of w) + N * M)%nat /\
     map strip (findings_of (exec sch st0).2)
       ≡ₚ map strip (findings_of w) ++ stored w (concat ess)).
Proof.
  intros Hk HN HM Hmu Hwf st0.
  split; [exact Guarded_addFinding|].
  split.
  { apply Forall_forall. intros g Hg. apply list_elem_of_lookup in Hg as [i Hi].
    destruct (Forall2_lookup_l _ _ _ _ _ Hk Hi) as (es & _ & He).
    eapply Acts_Guarded. exact He. }
  split; [exact not_Guarded_GetFindings|].
  split; [exact not_Guarded_GetFindingsBySeverity|].
  pose proof (PoolInv_start kids ess w Hk Hmu Hwf) as H0.
  destruct (PoolInv_exec _ sch kids w H0) as (kids' & w' & Hrun & HP).
  fold st0 in Hrun. split.
  - destruct (finish_all _ (PoolInv _) (PoolInv_turn _) (PoolInv_Inv _)
                (PoolInv_send _) (PoolInv_done _) (Ret tt) kids' w' HP)
      as (sch' & w'' & _ & Hrun').
    exists sch'. rewrite exec_app, Hrun, Hrun'. simpl.
    apply Forall_replicate. reflexivity.
  - rewrite Hrun. simpl. intros Hret.
    destruct HP as (gs & HI & _). simpl in HI.
    pose proof (inv_total _ _ _ _ HI) as Htot.
    rewrite (returned_no_pending _ _ _ _ HI Hret) in Htot.
    unfold stored at 1 in Htot. simpl in Htot. rewrite app_nil_r in Htot.
    split; [|exact Htot].
    rewrite <- (length_map strip (findings_of w')), Htot.
    unfold stored. rewrite length_app, !length_map.
    rewrite (concat_length_same ess M HM).
    rewrite <- (Forall2_length _ _ _ Hk), HN. reflexivity.
Qed.

(** The claim as it is written fails on the readers: they take no lock. *)
Lemma reads_take_no_lock :
  ~ ((forall finding, Guarded false (addFinding finding)) /\
     Guarded false GetFindings /\
     (forall severity, Guarded false (GetFindingsBySeverity severity))).
Proof. intros (_ & H & _). exact (not_Guarded_GetFindings H). Qed.

(** A goroutine that appends one HIGH finding per bucket name. *)
Definition append_task (names : list string) : Prog unit :=
  for_each names (fun name =>
    finding ← NewHighFinding name ResourceS3 "S3 Bucket Not Encrypted" "";
    addFinding finding).

Lemma Emits_append_task (names : list string) :
  Emits (append_task names)
        (map (fun name => finding0 name ResourceS3 SeverityHigh
                            "S3 Bucket Not Encrypted" "") names) tt.
Proof.
  induction names as [|name names IH].
  - apply Emits_Ret.
  - apply (Emits_seq
             (finding ← NewHighFinding name ResourceS3 "S3 Bucket Not Encrypted" "";
              addFinding finding)
             (append_task names)
             [finding0 name ResourceS3 SeverityHigh "S3 Bucket Not Encrypted" ""]
             _ tt).
    + apply Emits_report.
    + exact IH.
Qed.

Definition two_tasks : list (Prog unit) :=
  [ append_task ["a"; "b"]; append_task ["c"; "d"] ].

Definition two_tasks_findings : list (list Finding) :=
  [ map (fun name => finding0 name ResourceS3 SeverityHigh "S3 Bucket Not Encrypted" "")
        ["a"; "b"];
    map (fun name => finding0 name ResourceS3 SeverityHigh "S3 Bucket Not Encrypted" "")
        ["c"; "d"] ].

Definition alternating : list nat := concat (replicate 20 [1; 2]%nat).

Lemma appends_locked_reads_unlocked_witness :
  let st0 := (Build_Pool (Ret tt) two_tasks, fresh_world) in
  (forall finding, Guarded false (addFinding finding)) /\
  Forall (Guarded false) two_tasks /\
  ~ Guarded false GetFindings /\
  (forall severity, ~ Guarded false (GetFindingsBySeverity severity)) /\
  (exists sch', Forall (fun g => g = Ret tt) (p_kids (exec (alternating ++ sch') st0).1)) /\
  (Forall (fun g => g = Ret tt) (p_kids (exec alternating st0).1) ->
     length (findings_of (exec alternating st0).2)
       = (length (findings_of fresh_world) + 2 * 2)%nat /\
     map strip (findings_of (exec alternating st0).2)
       ≡ₚ map strip (findings_of fresh_world)
          ++ stored fresh_world (concat two_tasks_findings)).
Proof.
  apply (appends_locked_reads_unlocked two_tasks two_tasks_findings 2 2
           fresh_world alternating).
  - repeat constructor; apply Emits_append_task.
  - reflexivity.
  - repeat constructor.
  - reflexivity.
  - apply wf_NewScanner.
Defined.

(** The run of the example: the two goroutines take turns; both return
    and the store holds the four findings, interleaved. *)
Example two_tasks_example :
  let st := exec alternating (Build_Pool (Ret tt) two_tasks, fresh_world) in
  p_kids st.1 = [Ret tt; Ret tt] /\
  map ResourceID (findings_of st.2) = ["a"; "c"; "b"; "d"].
Proof. split; vm_compute; reflexivity. Qed.

(** * Further properties of the scanner *)

(** ** The iteration orders of a map: every order has a seed *)

Lemma insert_at_middle {X : Type} (l1 l2 : list X) (x : X) :
  insert_at (length l1) x (l1 ++ l2) = l1 ++ x :: l2.
Proof.
  induction l1 as [|y l1 IH]; simpl.
  - destruct l2; reflexivity.
  - by rewrite IH.
Qed.

Lemma shuffle_complete {X : Type} (l l' : list X) :
  l' ≡ₚ l -> exists seed, shuffle seed l = l'.
Proof.
  revert l'. induction l as [|x l IH]; intros l' H.
  - apply Permutation_nil_r in H as ->. by exists [].
  - assert (Hx : x ∈ l') by (rewrite H; left).
    apply list_elem_of_split in Hx as (l1 & l2 & ->).
    symmetry in H. apply Permutation_cons_app_inv in H. symmetry in H.
    destruct (IH (l1 ++ l2) H) as [seed Hseed].
    exists (length l1 :: seed). simpl. rewrite Hseed. apply insert_at_middle.
Qed.

(** ** Reading the store *)

(** The pointer [p] leads to a finding of severity [severity]. *)
Definition has_severity (h : list Finding) (severity : string) (p : loc) : bool :=
  match h !! p with
  | Some f => bool_decide (Severity f = severity)
  | None => false
  end.

Lemma run_filter_severity (severity : string) (fs filtered : list loc) (w : World) :
  Forall (fun p => p < length (heap w))%nat fs ->
  run (filter_severity severity fs filtered) w =
    Some (filtered ++ List.filter (has_severity (heap w) severity) fs, w).
Proof.
  intros Hfs. revert filtered.
  induction Hfs as [|p fs Hp _ IH]; intros filtered; simpl.
  - by rewrite app_nil_r.
  - apply lookup_lt_is_Some_2 in Hp as [f Hf]. 
    unfold has_severity at 1. unfold loc in *. rewrite Hf.
    destruct (bool_decide (Severity f = severity)).
    + rewrite IH. by rewrite <- app_assoc.
    + apply IH.
Qed.

Lemma omap_filter_has_severity (h : list Finding) (severity : string) (ps : list loc) :
  omap (fun p => h !! p) (List.filter (has_severity h severity) ps) =
  List.filter (fun f => bool_decide (Severity f = severity))
              (omap (fun p => h !! p) ps).
Proof.
  induction ps as [|p ps IH]; [reflexivity|].
  unfold omap in *. simpl. unfold has_severity at 1.
  destruct (h !! p) as [f|] eqn:Hf; simpl.
  - destruct (bool_decide (Severity f = severity)); simpl.
    + rewrite Hf. by rewrite IH.
    + exact IH.
  - exact IH.
Qed.

(** X1. [GetFindingsBySeverity] returns the pointers of the store that lead
    to a finding of the severity asked for, in the order of the store,
    and changes nothing; it does so whether [s.mu] is held or not. *)
Theorem GetFindingsBySeverity_filter (severity : string) (w : World) :
  wf w ->
  exists ps,
    run (GetFindingsBySeverity severity) w = Some (ps, w) /\
    ps = List.filter (has_severity (heap w) severity) (s_findings w) /\
    omap (fun p => heap w !! p) ps =
      List.filter (fun f => bool_decide (Severity f = severity)) (findings_of w).
Proof.
  intros Hwf. eexists. split; [|split; [reflexivity|]].
  - unfold GetFindingsBySeverity. simpl.
    rewrite run_filter_severity by exact Hwf. reflexivity.
  - apply omap_filter_has_severity.
Qed.

(** ** Checks that range over no map: the exact store *)

(** The scanner after the finding [f] was built and added: the clock was
    read once, the finding allocated with that time and appended under
    the scanner's region. *)
Definition report (f : Finding) (w : World) : World :=
  appended (set_Timestamp (clock w (ticks w)) f) (tick w).

Definition report_all (es : list Finding) (w : World) : World :=
  fold_left (fun w f => report f w) es w.

(** [Reports p es a]: [p] builds and adds the findings [es], in this
    order, returns [a] and does nothing else. *)
Inductive Reports {A : Type} : Prog A -> list Finding -> A -> Prop :=
| Reports_Ret a : Reports (Ret a) [] a
| Reports_emit mk k f es a :
    Timestamp f = 0 ->
    (forall t, mk t = set_Timestamp t f) ->
    Reports k es a ->
    Reports (emit_then mk k) (f :: es) a.

Lemma Reports_bind {A B : Type} (p : Prog A) (f : A -> Prog B) es es' a b :
  Reports p es a -> Reports (f a) es' b -> Reports (bind p f) (es ++ es') b.
Proof.
  intros Hp Hf. induction Hp as [a|mk k g es a Hg Hmk Hk IH]; [exact Hf|].
  simpl. apply (Reports_emit mk (bind k f) g (es ++ es') b Hg Hmk). exact (IH Hf).
Qed.

Lemma Reports_seq {B : Type} (p : Prog unit) (q : Prog B) es es' b :
  Reports p es tt -> Reports q es' b -> Reports (p ;; q) (es ++ es') b.
Proof. intros Hp Hq. exact (Reports_bind p (fun _ => q) es es' tt b Hp Hq). Qed.

Lemma Reports_for_each {X : Type} (xs : list X) (body : X -> Prog unit)
    (out : X -> list Finding) :
  (forall x, x ∈ xs -> Reports (body x) (out x) tt) ->
  Reports (for_each xs body) (concat (map out xs)) tt.
Proof.
  induction xs as [|x xs IH]; intros H; simpl.
  - apply Reports_Ret.
  - apply Reports_seq.
    + apply H. left.
    + apply IH. intros y Hy. apply H. by right.
Qed.

Lemma Reports_report (resourceID resourceType severity title description : string) :
  Reports (finding ← NewFinding resourceID resourceType severity title description;
           addFinding finding)
          [finding0 resourceID resourceType severity title description] tt.
Proof.
  apply (Reports_emit
           (fun t => {| ResourceID := resourceID; ResourceType := resourceType;
                        Severity := severity; Title := title;
                        Description := description; Region := "";
                        Account := ""; Timestamp := t |})
           (Ret tt) _ [] tt).
  - reflexivity.
  - reflexivity.
  - constructor.
Qed.

Lemma strip_set_Timestamp (t : Z) (f : Finding) :
  Timestamp f = 0 -> strip (set_Timestamp t f) = f.
Proof. destruct f. simpl. intros ->. reflexivity. Qed.

Lemma Reports_Emits {A : Type} (p : Prog A) es a : Reports p es a -> Emits p es a.
Proof.
  induction 1 as [a|mk k g es a Hg Hmk Hk IH]; [apply Emits_Ret|].
  apply (Acts_emit mk k g es [] 0%nat a); [|exact IH].
  intros t. rewrite Hmk. by apply strip_set_Timestamp.
Qed.

Lemma run_Reports {A : Type} (p : Prog A) es a :
  Reports p es a ->
  forall w, s_mu w = false -> run p w = Some (a, report_all es w).
Proof.
  induction 1 as [a|mk k g es a Hg Hmk Hk IH]; intros w Hmu; [reflexivity|].
  rewrite run_emit_then by exact Hmu. rewrite Hmk. simpl. apply IH. exact Hmu.
Qed.

(** The finding [f] as the store holds it when it is the [i]-th finding
    reported from [w] on. *)
Definition stamp (w : World) (i : nat) (f : Finding) : Finding :=
  set_Region (s_region w) (set_Timestamp (clock w (ticks w + i)%nat) f).

Lemma report_all_facts (es : list Finding) (w : World) :
  wf w ->
  wf (report_all es w) /\
  s_mu (report_all es w) = s_mu w /\
  s_region (report_all es w) = s_region w /\
  ticks (report_all es w) = (ticks w + length es)%nat /\
  clock (report_all es w) = clock w /\
  ranges (report_all es w) = ranges w /\
  seeds (report_all es w) = seeds w /\
  findings_of (report_all es w) = findings_of w ++ imap (stamp w) es.
Proof.
  revert w. induction es as [|f es IH]; intros w Hwf.
  - simpl. rewrite app_nil_r. repeat split; auto.
  - assert (Hwf1 : wf (report f w)) by (apply wf_appended; exact Hwf).
    destruct (IH (report f w) Hwf1) as (H1 & H2 & H3 & H4 & H5 & H6 & H7 & H8).
    change (report_all (f :: es) w) with (report_all es (report f w)).
    rewrite H2, H3, H4, H5, H6, H7, H8. simpl.
    repeat split; auto; try lia.
    unfold report at 1. rewrite findings_of_appended by exact Hwf.
    rewrite <- app_assoc. simpl. f_equal. f_equal.
    + unfold stamp. simpl. by rewrite Nat.add_0_r.
    + apply imap_ext. intros i x _. unfold stamp. simpl. do 3 f_equal. lia.
Qed.

(** ** What the storage and identity checks leave in the store *)

Definition encryption_finding (bucketName : string) : Finding :=
  finding0 bucketName ResourceS3 SeverityHigh
    "S3 Bucket Not Encrypted"
    ("Bucket '" +:+ bucketName
       +:+ "' does not have server-side encryption enabled. "
       +:+ "Data at rest is not protected.").

Definition versioning_finding (bucketName : string) : Finding :=
  finding0 bucketName ResourceS3 SeverityMedium
    "S3 Bucket Versioning Disabled"
    ("Bucket '" +:+ bucketName
       +:+ "' does not have versioning enabled. "
       +:+ "Cannot recover from accidental deletion or modification.").

Section Store.

Variable svc : Cloud.

Definition encryption_findings (bucket : Bucket) : list Finding :=
  match GetBucketEncryption svc (bucket_Name bucket) with
  | Err _ => [encryption_finding (bucket_Name bucket)]
  | Ok _ => []
  end.

Definition acl_findings (bucket : Bucket) : list Finding :=
  match GetBucketAcl svc (bucket_Name bucket) with
  | Ok grants =>
      if existsb is_public grants
      then [public_bucket_finding (bucket_Name bucket)] else []
  | Err _ => []
  end.

Definition versioning_findings (bucket : Bucket) : list Finding :=
  match GetBucketVersioning svc (bucket_Name bucket) with
  | Ok (Some st) =>
      if bool_decide (st = "Enabled") then []
      else [versioning_finding (bucket_Name bucket)]
  | Ok None => [versioning_finding (bucket_Name bucket)]
  | Err _ => []
  end.

Definition bucket_findings (bucket : Bucket) : list Finding :=
  encryption_findings bucket ++ acl_findings bucket ++ versioning_findings bucket.

Lemma Reports_scan_grants bucketName grants :
  Reports (scan_grants bucketName grants)
          (if existsb is_public grants then [public_bucket_finding bucketName] else [])
          tt.
Proof.
  induction grants as [|g grants IH]; simpl.
  - apply Reports_Ret.
  - unfold is_public at 1. destruct (URI (grant_Grantee g)) as [uri|]; simpl.
    + destruct (bool_decide (uri = AllUsers) || bool_decide (uri = AuthenticatedUsers)); simpl.
      * apply Reports_report.
      * exact IH.
    + exact IH.
Qed.

Lemma Reports_bucket (bucket : Bucket) :
  Reports (checkBucketEncryption svc bucket ;;
           checkBucketPublicAccess svc bucket ;;
           checkBucketVersioning svc bucket)
          (bucket_findings bucket) tt.
Proof.
  unfold bucket_findings. apply Reports_seq; [|apply Reports_seq].
  - unfold checkBucketEncryption, encryption_findings.
    destruct (GetBucketEncryption svc (bucket_Name bucket));
      [apply Reports_Ret|apply Reports_report].
  - unfold checkBucketPublicAccess, acl_findings.
    destruct (GetBucketAcl svc (bucket_Name bucket));
      [apply Reports_scan_grants|apply Reports_Ret].
  - unfold checkBucketVersioning, versioning_findings.
    destruct (GetBucketVersioning svc (bucket_Name bucket)) as [[st|]|];
      [|apply Reports_report|apply Reports_Ret].
    destruct (bool_decide (st = "Enabled")); simpl;
      [apply Reports_Ret|apply Reports_report].
Qed.

Lemma Reports_scan_keys keys : Reports (scan_keys keys) [] tt.
Proof.
  unfold scan_keys.
  induction keys as [|k keys IH]; simpl; [apply Reports_Ret|].
  destruct (bool_decide (key_Status k = "Active")); exact IH.
Qed.

Lemma Reports_user (user : User) :
  Reports (checkUserMFA svc user ;; checkUserAccessKeys svc user)
          (mfa_findings svc user) tt.
Proof.
  rewrite <- (app_nil_r (mfa_findings svc user)). apply Reports_seq.
  - unfold checkUserMFA, mfa_findings.
    destruct (GetLoginProfile svc (UserName user)); [|apply Reports_Ret].
    destruct (ListMFADevices svc (UserName user)) as [[|d ds]|]; simpl;
      try apply Reports_Ret.
    apply Reports_report.
  - unfold checkUserAccessKeys.
    destruct (ListAccessKeys svc (UserName user));
      [apply Reports_scan_keys|apply Reports_Ret].
Qed.

(** The findings of each check, for any answer to its listing call. *)
Definition s3_findings : list Finding :=
  match ListBuckets svc with
  | Ok buckets => concat (map bucket_findings buckets)
  | Err _ => []
  end.

Definition iam_findings : list Finding :=
  match ListUsers svc with
  | Ok users => concat (map (mfa_findings svc) users)
  | Err _ => []
  end.

Lemma Reports_scanS3 : Reports (scanS3 svc) s3_findings (s3_result svc).
Proof.
  unfold scanS3, s3_findings, s3_result. destruct (ListBuckets svc) as [buckets|e].
  - rewrite <- (app_nil_r (concat (map bucket_findings buckets))).
    apply Reports_seq; [|apply Reports_Ret].
    apply Reports_for_each. intros b _. apply Reports_bucket.
  - apply Reports_Ret.
Qed.

Lemma Reports_scanIAM : Reports (scanIAM svc) iam_findings (iam_result svc).
Proof.
  unfold scanIAM, iam_findings, iam_result. destruct (ListUsers svc) as [users|e].
  - rewrite <- (app_nil_r (concat (map (mfa_findings svc) users))).
    apply Reports_seq; [|apply Reports_Ret].
    apply Reports_for_each. intros u _. apply Reports_user.
  - apply Reports_Ret.
Qed.

(** X2. The storage check on an account whose buckets can be listed:
    [scanS3] returns nil and appends to the store, for each bucket in the
    order of the listing, a HIGH finding when the encryption lookup
    fails (whatever the error), then a CRITICAL finding when the ACL
    could be read and holds a public grant, then a MEDIUM finding when
    the versioning could be read and is not "Enabled"; a failed ACL or
    versioning lookup adds nothing.  Each finding gets the scanner's
    region and the next reading of the clock; the findings already in
    the store stay in place. *)
Theorem scanS3_store (buckets : list Bucket) (w : World) :
  ListBuckets svc = Ok buckets ->
  s_mu w = false ->
  wf w ->
  exists w',
    run (scanS3 svc) w = Some (None, w') /\
    findings_of w' =
      findings_of w ++ imap (stamp w) (concat (map bucket_findings buckets)) /\
    (length (findings_of w') <= length (findings_of w) + 3 * length buckets)%nat /\
    s_mu w' = false /\ wf w'.
Proof.
  intros Hl Hmu Hwf.
  assert (HR : Reports (scanS3 svc) (concat (map bucket_findings buckets)) None).
  { pose proof Reports_scanS3 as HR. unfold s3_findings, s3_result in HR.
    by rewrite Hl in HR. }
  exists (report_all (concat (map bucket_findings buckets)) w).
  destruct (report_all_facts (concat (map bucket_findings buckets)) w Hwf)
    as (Hwf' & Hmu' & _ & _ & _ & _ & _ & Hfs).
  split; [exact (run_Reports _ _ _ HR w Hmu)|].
  split; [exact Hfs|]. split; [|split; [congruence|exact Hwf']].
  rewrite Hfs, length_app, length_imap.
  apply Nat.add_le_mono_l.
  clear. induction buckets as [|b bs IH]; simpl; [lia|].
  rewrite length_app.
  assert (length (bucket_findings b) <= 3)%nat; [|lia].
  unfold bucket_findings, encryption_findings, acl_findings, versioning_findings.
  rewrite !length_app.
  destruct (GetBucketEncryption svc (bucket_Name b));
    destruct (GetBucketAcl svc (bucket_Name b)) as [gr|];
    try destruct (existsb is_public gr);
    destruct (GetBucketVersioning svc (bucket_Name b)) as [[st|]|];
    try destruct (bool_decide (st = "Enabled")); simpl; lia.
Qed.

(** X3. The identity check on an account whose users can be listed:
    [scanIAM] returns nil and appends, for each user in the order of the
    listing, one HIGH finding when the user has a login profile and the
    list of the user's MFA devices could be read and is empty, and
    nothing otherwise.  The access keys play no part: whatever
    [ListAccessKeys] answers, the store is the same. *)
Theorem scanIAM_store (users : list User) (w : World) :
  ListUsers svc = Ok users ->
  s_mu w = false ->
  wf w ->
  exists w',
    run (scanIAM svc) w = Some (None, w') /\
    findings_of w' =
      findings_of w ++ imap (stamp w) (concat (map (mfa_findings svc) users)) /\
    s_mu w' = false /\ wf w'.
Proof.
  intros Hl Hmu Hwf.
  assert (HR : Reports (scanIAM svc) (concat (map (mfa_findings svc) users)) None).
  { pose proof Reports_scanIAM as HR. unfold iam_findings, iam_result in HR.
    by rewrite Hl in HR. }
  exists (report_all (concat (map (mfa_findings svc) users)) w).
  destruct (report_all_facts (concat (map (mfa_findings svc) users)) w Hwf)
    as (Hwf' & Hmu' & _ & _ & _ & _ & _ & Hfs).
  split; [exact (run_Reports _ _ _ HR w Hmu)|].
  split; [exact Hfs|]. split; [congruence|exact Hwf'].
Qed.

End Store.

(** X4. The access keys have no influence on the identity check: two
    accounts that answer [ListUsers], [GetLoginProfile] and
    [ListMFADevices] alike give the same run of [scanIAM], whatever
    [ListAccessKeys] answers in either. *)
Theorem access_keys_ignored (svc svc' : Cloud) (w : World) :
  ListUsers svc = ListUsers svc' ->
  GetLoginProfile svc = GetLoginProfile svc' ->
  ListMFADevices svc = ListMFADevices svc' ->
  s_mu w = false ->
  run (scanIAM svc) w = run (scanIAM svc') w /\
  run (scanIAM svc) w <> None.
Proof.
  intros Hu Hp Hd Hmu.
  rewrite (run_Reports _ _ _ (Reports_scanIAM svc) w Hmu).
  rewrite (run_Reports _ _ _ (Reports_scanIAM svc') w Hmu).
  split; [|discriminate].
  assert (iam_findings svc = iam_findings svc') as ->.
  { unfold iam_findings. rewrite <- Hu. destruct (ListUsers svc); [|reflexivity].
    f_equal. apply map_ext. intros u. unfold mfa_findings. by rewrite Hp, Hd. }
  unfold iam_result. by rewrite Hu.
Qed.

(** ** The network-exposure check *)

Lemma run_seq {B : Type} (p : Prog unit) (q : Prog B) (w w' : World) :
  run p w = Some (tt, w') -> run (p ;; q) w = run q w'.
Proof.
  intros H. unfold mbind, Prog_bind. rewrite run_bind, H. reflexivity.
Qed.

Lemma run_for_each_idle {X : Type} (xs : list X) (body : X -> Prog unit) (w : World) :
  Forall (fun x => run (body x) w = Some (tt, w)) xs ->
  run (for_each xs body) w = Some (tt, w).
Proof.
  induction 1 as [|x xs Hx _ IH]; [reflexivity|].
  simpl. rewrite (run_seq _ _ w w Hx). exact IH.
Qed.

(** X5. Only the CIDR written exactly "0.0.0.0/0" counts as the whole
    internet: on a security group none of whose rules has an IPv4 range
    with that text (whatever the ports, and whatever other ranges such as
    "0.0.0.0/1" it has), [checkSecurityGroupRules] reports nothing, does
    not even look at the port table, and leaves the scanner as it was. *)
Theorem only_exact_cidr_reported (sg : SecurityGroup) (w : World) :
  Forall (fun permission =>
            Forall (fun ipRange => CidrIp ipRange <> "0.0.0.0/0") (IpRanges permission))
         (IpPermissions sg) ->
  run (checkSecurityGroupRules sg) w = Some (tt, w).
Proof.
  intros H. unfold checkSecurityGroupRules. apply run_for_each_idle.
  eapply Forall_impl; [exact H|]. simpl. intros p Hp.
  unfold check_permission. apply run_for_each_idle.
  eapply Forall_impl; [exact Hp|]. simpl. intros r Hr.
  by rewrite bool_decide_eq_false_2.
Qed.

Lemma filter_nil_iff {X : Type} (c : X -> bool) (l : list X) :
  (forall x, x ∈ l -> c x = false) -> List.filter c l = [].
Proof.
  induction l as [|x l IH]; intros H; simpl; [reflexivity|].
  rewrite (H x) by left. apply IH. intros y Hy. apply H. by right.
Qed.

(** X6. The port check for any range: [checkPublicAccess] reports one
    CRITICAL finding on the group for each of the seven table ports that
    lies within [fromPort, toPort], and one more when the range is
    exactly 0-65535; the number of findings is the number of such ports
    (plus one).  A range that holds none of the seven ports (80-443, or
    an inverted range) is not reported at all, although it is open to
    the whole internet. *)
Theorem checkPublicAccess_report (sgID sgName : string) (fromPort toPort : Z)
    (w : World) :
  s_mu w = false ->
  wf w ->
  exists w' fs,
    run (checkPublicAccess sgID sgName fromPort toPort) w = Some (tt, w') /\
    findings_of w' = findings_of w ++ fs /\
    map strip fs ≡ₚ stored w (public_access_findings sgID sgName fromPort toPort) /\
    length fs =
      (length (List.filter (in_range fromPort toPort) criticalPorts)
       + (if Z.eqb fromPort 0%Z && Z.eqb toPort 65535%Z then 1 else 0))%nat /\
    Forall (fun f => Severity f = SeverityCritical /\ ResourceID f = sgID /\
                     ResourceType f = ResourceSecurityGroup /\
                     Region f = s_region w) fs /\
    ((forall entry, entry ∈ criticalPorts -> in_range fromPort toPort entry = false) ->
     fs = []).
Proof.
  intros Hmu Hwf.
  destruct (run_Emits _ _ _ (Emits_checkPublicAccess sgID sgName fromPort toPort)
              w Hmu Hwf) as (w' & fs & Hrun & _ & _ & _ & Hfs & Hperm).
  exists w', fs. split; [exact Hrun|]. split; [exact Hfs|]. split; [exact Hperm|].
  split; [|split].
  - rewrite <- (length_map strip fs), Hperm. unfold stored, public_access_findings.
    rewrite length_map, length_app, length_map.
    destruct ((fromPort =? 0) && (toPort =? 65535)); reflexivity.
  - apply Forall_forall. intros f Hf.
    assert (Hs : strip f ∈ stored w (public_access_findings sgID sgName fromPort toPort)).
    { rewrite <- Hperm. apply list_elem_of_fmap. eauto. }
    unfold stored in Hs. apply list_elem_of_fmap in Hs as (e & He & Hin).
    assert (Severity e = SeverityCritical /\ ResourceID e = sgID /\
            ResourceType e = ResourceSecurityGroup) as (H1 & H2 & H3).
    { unfold public_access_findings in Hin. apply elem_of_app in Hin as [Hin|Hin].
      - apply list_elem_of_fmap in Hin as (x & -> & _). by repeat split.
      - destruct ((fromPort =? 0) && (toPort =? 65535)).
        + apply list_elem_of_singleton in Hin as ->. by repeat split.
        + by apply elem_of_nil in Hin. }
    destruct f, e. simpl in *. injection He as -> -> -> -> -> -> ->.
    subst. by repeat split.
  - intros Hnone. apply map_strip_nil_inv. rewrite Hperm.
    unfold stored, public_access_findings.
    rewrite (filter_nil_iff _ _ Hnone). simpl.
    assert (Hssh : in_range fromPort toPort (22, "SSH") = false).
    { apply Hnone. left. }
    unfold in_range in Hssh. simpl in Hssh.
    destruct (fromPort =? 0) eqn:E1; [|reflexivity].
    destruct (toPort =? 65535) eqn:E2; [|reflexivity].
    apply Z.eqb_eq in E1, E2. subst. discriminate.
Qed.

Lemma concat_map_filter_length {X Y : Type} (c : X -> bool) (out : list Y) (l : list X) :
  length (concat (map (fun x => if c x then out else []) l)) =
  (length (List.filter c l) * length out)%nat.
Proof.
  induction l as [|x l IH]; simpl; [reflexivity|].
  rewrite length_app, IH. destruct (c x); simpl; lia.
Qed.

(** X7. Findings are not de-duplicated: a rule that names "0.0.0.0/0"
    [k] times among its IPv4 ranges gets the findings of its port range
    [k] times. *)
Theorem repeated_cidr_repeats_findings (sgID sgName : string)
    (permission : IpPermission) (w : World) :
  s_mu w = false ->
  wf w ->
  exists w' fs,
    run (check_permission sgID sgName permission) w = Some (tt, w') /\
    findings_of w' = findings_of w ++ fs /\
    length fs =
      (length (List.filter unrestricted (IpRanges permission))
       * length (public_access_findings sgID sgName
                   (default 0%Z (FromPort permission))
                   (default 0%Z (ToPort permission))))%nat.
Proof.
  intros Hmu Hwf.
  destruct (run_Emits _ _ _ (Emits_check_permission sgID sgName permission)
              w Hmu Hwf) as (w' & fs & Hrun & _ & _ & _ & Hfs & Hperm).
  exists w', fs. split; [exact Hrun|]. split; [exact Hfs|].
  rewrite <- (length_map strip fs), Hperm. unfold stored, permission_findings.
  rewrite length_map. apply concat_map_filter_length.
Qed.

(** ** Whole scans *)

Definition group_findings (sg : SecurityGroup) : list Finding :=
  concat (map (permission_findings (GroupId sg) (GroupName sg)) (IpPermissions sg)).

Definition sg_findings (svc : Cloud) : list Finding :=
  match DescribeSecurityGroups svc with
  | Ok groups => concat (map group_findings groups)
  | Err _ => []
  end.

Lemma Emits_scanSecurityGroups_all (svc : Cloud) :
  Emits (scanSecurityGroups svc) (sg_findings svc) (sg_result svc).
Proof.
  unfold scanSecurityGroups, sg_findings, sg_result.
  destruct (DescribeSecurityGroups svc) as [groups|e].
  - rewrite <- (app_nil_r (concat (map group_findings groups))).
    apply Emits_seq; [|apply Emits_Ret].
    apply Emits_for_each. intros sg _. apply Emits_checkSecurityGroupRules.
  - apply Emits_Ret.
Qed.

Lemma Reports_Timestamp {A : Type} (p : Prog A) es a :
  Reports p es a -> Forall (fun f => Timestamp f = 0) es.
Proof. induction 1; constructor; auto. Qed.

Lemma map_strip_imap_stamp (w : World) (es : list Finding) :
  Forall (fun f => Timestamp f = 0) es ->
  map strip (imap (stamp w) es) = stored w es.
Proof.
  intros H. unfold stored. apply list_eq. intros i.
  rewrite !list_lookup_fmap, list_lookup_imap.
  destruct (es !! i) as [f|] eqn:E; [|reflexivity]. simpl. f_equal.
  rewrite Forall_forall in H.
  assert (Hf : Timestamp f = 0) by (apply H; eapply list_elem_of_lookup_2; exact E).
  destruct f. simpl in *. subst. reflexivity.
Qed.

(** The run of [Scan] when no listing call fails. *)
Lemma run_Scan_store (svc : Cloud) (w : World) :
  s3_result svc = None ->
  sg_result svc = None ->
  iam_result svc = None ->
  s_mu w = false ->
  wf w ->
  exists w' fs1 fs2 fs3,
    run (Scan svc) w = Some (None, w') /\
    findings_of w' = findings_of w ++ fs1 ++ fs2 ++ fs3 /\
    map strip fs1 = stored w (s3_findings svc) /\
    map strip fs2 ≡ₚ stored w (sg_findings svc) /\
    map strip fs3 = stored w (iam_findings svc) /\
    s_mu w' = false /\ wf w' /\ s_region w' = s_region w.
Proof.
  intros E1 E2 E3 Hmu Hwf.
  pose proof (Reports_scanS3 svc) as H1.
  pose proof (Emits_scanSecurityGroups_all svc) as H2.
  pose proof (Reports_scanIAM svc) as H3.
  destruct (report_all_facts (s3_findings svc) w Hwf)
    as (Hwf1 & Hmu1 & Hreg1 & _ & _ & _ & _ & Hfs1).
  set (w1 := report_all (s3_findings svc) w) in *.
  rewrite Hmu in Hmu1.
  destruct (run_Emits _ _ _ H2 w1 Hmu1 Hwf1)
    as (w2 & fs2 & Hr2 & Hmu2 & Hwf2 & Hreg2 & Hfs2 & Hp2).
  destruct (report_all_facts (iam_findings svc) w2 Hwf2)
    as (Hwf3 & Hmu3 & Hreg3 & _ & _ & _ & _ & Hfs3).
  set (w3 := report_all (iam_findings svc) w2) in *.
  exists w3, (imap (stamp w) (s3_findings svc)), fs2,
    (imap (stamp w2) (iam_findings svc)).
  split; [|split; [|split; [|split; [|split; [|split; [|split]]]]]].
  - unfold Scan. unfold mbind, Prog_bind. unfold error in *.
    rewrite run_bind, (run_Reports _ _ _ H1 w Hmu), E1.
    fold w1. rewrite run_bind, Hr2, E2.
    rewrite run_bind, (run_Reports _ _ _ H3 w2 Hmu2), E3. reflexivity.
  - rewrite Hfs3, Hfs2, Hfs1. by rewrite <- !app_assoc.
  - apply map_strip_imap_stamp. eapply Reports_Timestamp. exact H1.
  - rewrite Hp2. unfold stored. by rewrite Hreg1.
  - rewrite map_strip_imap_stamp by (eapply Reports_Timestamp; exact H3).
    unfold stored. by rewrite Hreg2, Hreg1.
  - congruence.
  - exact Hwf3.
  - congruence.
Qed.

(** X8. The order of the store after a sequential scan in which no
    listing call fails: the findings that were there, then the storage
    findings in the order of the bucket listing, then the
    network-exposure findings (in an order that depends on the iteration
    over the port table), then the identity findings in the order of the
    user listing; all under the scanner's region. *)
Theorem Scan_store_order (svc : Cloud) (w : World) :
  s3_result svc = None ->
  sg_result svc = None ->
  iam_result svc = None ->
  s_mu w = false ->
  wf w ->
  exists w' fs1 fs2 fs3,
    run (Scan svc) w = Some (None, w') /\
    findings_of w' = findings_of w ++ fs1 ++ fs2 ++ fs3 /\
    map strip fs1 = stored w (s3_findings svc) /\
    map strip fs2 ≡ₚ stored w (sg_findings svc) /\
    map strip fs3 = stored w (iam_findings svc).
Proof.
  intros E1 E2 E3 Hmu Hwf.
  destruct (run_Scan_store svc w E1 E2 E3 Hmu Hwf)
    as (w' & fs1 & fs2 & fs3 & Hrun & Hfs & H1 & H2 & H3 & _).
  exists w', fs1, fs2, fs3. auto.
Qed.

(** X9. The store is never cleared: a second [Scan] on the same scanner
    appends the findings of the account once more, so that the store
    then holds each of them twice. *)
Theorem Scan_twice_duplicates (svc : Cloud) (w : World) :
  s3_result svc = None ->
  sg_result svc = None ->
  iam_result svc = None ->
  s_mu w = false ->
  wf w ->
  exists w1 w2 fs fs',
    run (Scan svc) w = Some (None, w1) /\
    run (Scan svc) w1 = Some (None, w2) /\
    findings_of w1 = findings_of w ++ fs /\
    findings_of w2 = findings_of w ++ fs ++ fs' /\
    map strip fs' ≡ₚ map strip fs.
Proof.
  intros E1 E2 E3 Hmu Hwf.
  destruct (run_Scan_store svc w E1 E2 E3 Hmu Hwf)
    as (w1 & a1 & a2 & a3 & Hr1 & Hfs1 & Ha1 & Ha2 & Ha3 & Hmu1 & Hwf1 & Hreg1).
  destruct (run_Scan_store svc w1 E1 E2 E3 Hmu1 Hwf1)
    as (w2 & b1 & b2 & b3 & Hr2 & Hfs2 & Hb1 & Hb2 & Hb3 & _).
  exists w1, w2, (a1 ++ a2 ++ a3), (b1 ++ b2 ++ b3).
  split; [exact Hr1|]. split; [exact Hr2|]. split; [exact Hfs1|].
  split; [by rewrite Hfs2, Hfs1, <- app_assoc|].
  rewrite !map_app, Ha1, Ha2, Ha3, Hb1, Hb2, Hb3. unfold stored.
  by rewrite Hreg1.
Qed.

(** *** What every finding of a scan looks like *)

(** The findings the three checks make: of the scanner's region, with no
    account, and of one of five kinds. *)
Definition made_by_scanner (region : string) (f : Finding) : Prop :=
  Region f = region /\ Account f = "" /\
  (ResourceType f, Severity f) ∈
    [ (ResourceS3, SeverityHigh); (ResourceS3, SeverityCritical);
      (ResourceS3, SeverityMedium); (ResourceSecurityGroup, SeverityCritical);
      (ResourceIAM, SeverityHigh) ].

Lemma made_by_scanner_strip (region : string) (f : Finding) :
  made_by_scanner region (strip f) <-> made_by_scanner region f.
Proof. destruct f. reflexivity. Qed.

Lemma elem_of_concat_map {X Y : Type} (out : X -> list Y) (l : list X) (y : Y) :
  y ∈ concat (map out l) -> exists x, x ∈ l /\ y ∈ out x.
Proof.
  induction l as [|x l IH]; simpl; intros H.
  - by apply elem_of_nil in H.
  - apply elem_of_app in H as [H|H].
    + exists x. split; [left|exact H].
    + destruct (IH H) as (x' & Hx' & Hy). exists x'. split; [by right|exact Hy].
Qed.

Lemma made_finding0 (region resourceID resourceType severity title description : string) :
  (resourceType, severity) ∈
    [ (ResourceS3, SeverityHigh); (ResourceS3, SeverityCritical);
      (ResourceS3, SeverityMedium); (ResourceSecurityGroup, SeverityCritical);
      (ResourceIAM, SeverityHigh) ] ->
  made_by_scanner region
    (set_Region region (finding0 resourceID resourceType severity title description)).
Proof. intros H. by repeat split. Qed.

Lemma scan_findings_made (svc : Cloud) (region : string) (f : Finding) :
  f ∈ s3_findings svc ++ sg_findings svc ++ iam_findings svc ->
  made_by_scanner region (set_Region region f).
Proof.
  intros H. apply elem_of_app in H as [H|H]; [|apply elem_of_app in H as [H|H]].
  - unfold s3_findings in H. destruct (ListBuckets svc) as [buckets|e];
      [|by apply elem_of_nil in H].
    apply elem_of_concat_map in H as (b & _ & H).
    unfold bucket_findings in H.
    apply elem_of_app in H as [H|H]; [|apply elem_of_app in H as [H|H]].
    + unfold encryption_findings in H.
      destruct (GetBucketEncryption svc (bucket_Name b)); [by apply elem_of_nil in H|].
      apply list_elem_of_singleton in H as ->. apply made_finding0; repeat constructor.
    + unfold acl_findings in H.
      destruct (GetBucketAcl svc (bucket_Name b)) as [gr|]; [|by apply elem_of_nil in H].
      destruct (existsb is_public gr); [|by apply elem_of_nil in H].
      apply list_elem_of_singleton in H as ->. apply made_finding0; repeat constructor.
    + unfold versioning_findings in H.
      destruct (GetBucketVersioning svc (bucket_Name b)) as [[st|]|];
        [destruct (bool_decide (st = "Enabled"))| |];
        try (by apply elem_of_nil in H);
        apply list_elem_of_singleton in H as ->; apply made_finding0; repeat constructor.
  - unfold sg_findings in H. destruct (DescribeSecurityGroups svc) as [groups|e];
      [|by apply elem_of_nil in H].
    apply elem_of_concat_map in H as (sg & _ & H). unfold group_findings in H.
    apply elem_of_concat_map in H as (p & _ & H). unfold permission_findings in H.
    apply elem_of_concat_map in H as (r & _ & H).
    destruct (unrestricted r); [|by apply elem_of_nil in H].
    unfold public_access_findings in H. apply elem_of_app in H as [H|H].
    + apply list_elem_of_fmap in H as (x & -> & _). apply made_finding0; repeat constructor.
    + destruct (_ && _); [|by apply elem_of_nil in H].
      apply list_elem_of_singleton in H as ->. apply made_finding0; repeat constructor.
  - unfold iam_findings in H. destruct (ListUsers svc) as [users|e];
      [|by apply elem_of_nil in H].
    apply elem_of_concat_map in H as (u & _ & H). unfold mfa_findings in H.
    destruct (GetLoginProfile svc (UserName u)); [|by apply elem_of_nil in H].
    destruct (ListMFADevices svc (UserName u)) as [[|d ds]|];
      try (by apply elem_of_nil in H).
    apply list_elem_of_singleton in H as ->. apply made_finding0; repeat constructor.
Qed.

(** The store after [Scan], whatever fails. *)
Lemma run_Scan_any (svc : Cloud) (w : World) :
  s_mu w = false -> wf w ->
  exists r w' fs,
    run (Scan svc) w = Some (r, w') /\
    findings_of w' = findings_of w ++ fs /\
    (forall f, f ∈ fs ->
       strip f ∈ stored w (s3_findings svc ++ sg_findings svc ++ iam_findings svc)).
Proof.
  intros Hmu Hwf.
  pose proof (Reports_Emits _ _ _ (Reports_scanS3 svc)) as H1.
  pose proof (Emits_scanSecurityGroups_all svc) as H2.
  pose proof (Reports_Emits _ _ _ (Reports_scanIAM svc)) as H3.
  destruct (run_Emits _ _ _ H1 w Hmu Hwf)
    as (w1 & fs1 & Hr1 & Hmu1 & Hwf1 & Hreg1 & Hfs1 & Hp1).
  destruct (run_Emits _ _ _ H2 w1 Hmu1 Hwf1)
    as (w2 & fs2 & Hr2 & Hmu2 & Hwf2 & Hreg2 & Hfs2 & Hp2).
  destruct (run_Emits _ _ _ H3 w2 Hmu2 Hwf2)
    as (w3 & fs3 & Hr3 & Hmu3 & Hwf3 & Hreg3 & Hfs3 & Hp3).
  assert (Hin1 : forall f, f ∈ fs1 ->
            strip f ∈ stored w (s3_findings svc ++ sg_findings svc ++ iam_findings svc)).
  { intros f Hf. unfold stored. rewrite map_app. apply elem_of_app. left.
    fold (stored w (s3_findings svc)). rewrite <- Hp1. apply list_elem_of_fmap. eauto. }
  assert (Hin2 : forall f, f ∈ fs2 ->
            strip f ∈ stored w (s3_findings svc ++ sg_findings svc ++ iam_findings svc)).
  { intros f Hf. unfold stored. rewrite !map_app. apply elem_of_app. right.
    apply elem_of_app. left. rewrite <- Hreg1.
    fold (stored w1 (sg_findings svc)). rewrite <- Hp2. apply list_elem_of_fmap. eauto. }
  assert (Hin3 : forall f, f ∈ fs3 ->
            strip f ∈ stored w (s3_findings svc ++ sg_findings svc ++ iam_findings svc)).
  { intros f Hf. unfold stored. rewrite !map_app. apply elem_of_app. right.
    apply elem_of_app. right. rewrite <- Hreg1, <- Hreg2.
    fold (stored w2 (iam_findings svc)). rewrite <- Hp3. apply list_elem_of_fmap. eauto. }
  unfold Scan. unfold mbind, Prog_bind. unfold error in *. rewrite run_bind, Hr1.
  destruct (s3_result svc) as [e|].
  { exists (Some ("S3 scan failed: " +:+ e)), w1, fs1. auto. }
  rewrite run_bind, Hr2.
  destruct (sg_result svc) as [e|].
  { exists (Some ("Security Group scan failed: " +:+ e)), w2, (fs1 ++ fs2).
    split; [reflexivity|]. split; [by rewrite Hfs2, Hfs1, <- app_assoc|].
    intros f Hf. apply elem_of_app in Hf as [Hf|Hf]; auto. }
  rewrite run_bind, Hr3.
  assert (Hall : forall f, f ∈ fs1 ++ fs2 ++ fs3 ->
            strip f ∈ stored w (s3_findings svc ++ sg_findings svc ++ iam_findings svc)).
  { intros f Hf. apply elem_of_app in Hf as [Hf|Hf]; auto.
    apply elem_of_app in Hf as [Hf|Hf]; auto. }
  assert (Hfs : findings_of w3 = findings_of w ++ fs1 ++ fs2 ++ fs3).
  { by rewrite Hfs3, Hfs2, Hfs1, <- !app_assoc. }
  destruct (iam_result svc) as [e|].
  - exists (Some ("IAM scan failed: " +:+ e)), w3, (fs1 ++ fs2 ++ fs3). auto.
  - exists None, w3, (fs1 ++ fs2 ++ fs3). auto.
Qed.

Lemma made_of_total (svc : Cloud) (w : World) (f : Finding) :
  Forall (made_by_scanner (s_region w)) (findings_of w) ->
  strip f ∈ map strip (findings_of w)
             ++ stored w (s3_findings svc ++ sg_findings svc ++ iam_findings svc) ->
  made_by_scanner (s_region w) f.
Proof.
  intros Hold H. apply (proj1 (made_by_scanner_strip _ f)).
  apply elem_of_app in H as [H|H].
  - apply list_elem_of_fmap in H as (f0 & -> & Hf0).
    apply (proj2 (made_by_scanner_strip _ f0)).
    rewrite Forall_forall in Hold. by apply Hold.
  - unfold stored in H. apply list_elem_of_fmap in H as (e & -> & He).
    by apply (scan_findings_made svc).
Qed.

(** X10. What a scan leaves in the store: when every finding of the
    store is of the scanner's region, with an empty account, and of one of
    the kinds S3_BUCKET/HIGH, S3_BUCKET/CRITICAL, S3_BUCKET/MEDIUM,
    SECURITY_GROUP/CRITICAL, IAM_USER/HIGH (as in an empty store), then this
    is still so after [Scan], whatever it returns, and at every moment of
    [ScanConcurrent] under every schedule.  No finding is LOW, none is
    about an EBS volume, and none has an account. *)
Theorem findings_made_by_scanner (svc : Cloud) (w : World) (sch : list nat) :
  s_mu w = false ->
  wf w ->
  Forall (made_by_scanner (s_region w)) (findings_of w) ->
  (exists r w',
     run (Scan svc) w = Some (r, w') /\
     Forall (made_by_scanner (s_region w)) (findings_of w')) /\
  Forall (made_by_scanner (s_region w))
         (findings_of (exec sch (Build_Pool (ScanConcurrent svc) [], w)).2).
Proof.
  intros Hmu Hwf Hold. split.
  - destruct (run_Scan_any svc w Hmu Hwf) as (r & w' & fs & Hrun & Hfs & Hin).
    exists r, w'. split; [exact Hrun|]. rewrite Hfs. apply Forall_app. split; [exact Hold|].
    apply Forall_forall. intros f Hf. apply (made_of_total svc w f Hold).
    apply elem_of_app. right. by apply Hin.
  - pose proof (Reports_Emits _ _ _ (Reports_scanS3 svc)) as H1.
    pose proof (Emits_scanSecurityGroups_all svc) as H2.
    pose proof (Reports_Emits _ _ _ (Reports_scanIAM svc)) as H3.
    pose proof (MainInv_start svc _ _ _ H1 H2 H3 w Hmu Hwf) as H0.
    destruct (MainInv_exec _ _ _ _ _ sch _ _ H0) as (n & gs & HI & _).
    apply Forall_forall. intros f Hf. apply (made_of_total svc w f Hold).
    unfold total0 in HI. rewrite <- (inv_total _ _ _ _ HI).
    apply elem_of_app. left. apply list_elem_of_fmap. eauto.
Qed.

(** ** The concurrent scan: races and panics *)

(** The program is about to read or to write [s.findings]. *)
Definition touches_store {A : Type} (p : Prog A) : bool :=
  match p with
  | LoadFindings _ | StoreFindings _ _ => true
  | _ => false
  end.

Definition panics {A : Type} (r : Res A) : bool :=
  match r with Panic => true | _ => false end.

Definition waits {A : Type} (r : Res A) : bool :=
  match r with Blocked => true | _ => false end.

Lemma Acts_touches {A : Type} (p : Prog A) es errs d a :
  Acts p es errs d a -> touches_store p = false.
Proof. destruct 1; reflexivity. Qed.

Lemma Thread_touches (w : World) (p : Prog unit) (gh : Ghost) :
  Thread w p gh -> touches_store p = true -> g_crit gh = true.
Proof.
  intros Ht Hp. destruct Ht; try reflexivity; simpl in Hp; try discriminate.
  erewrite Acts_touches in Hp by eassumption. discriminate.
Qed.

Lemma bind_not_Ret {A B : Type} (p : Prog A) (f : A -> Prog B) (b : B) :
  (forall a, f a <> Ret b) -> bind p f <> Ret b.
Proof. intros Hf. destruct p; simpl; try discriminate. apply Hf. Qed.

Lemma scan_task_not_Ret (check : Prog error) : scan_task check <> Ret tt.
Proof.
  unfold scan_task. unfold mbind, Prog_bind. cbv beta.
  apply bind_not_Ret. intros [e|] H; discriminate H.
Qed.

Section Safety.

Local Open Scope nat_scope.

Variable svc : Cloud.
Variables es1 es2 es3 : list Finding.
Variable total : list Finding.

Let MInv := MainInv svc es1 es2 es3 total.

Lemma MainInv_kid (n : nat) (main : Prog error) (kids : list (Prog unit))
    (w : World) (j : nat) (g : Prog unit) :
  MInv n (Build_Pool main kids, w) ->
  kids !! j = Some g ->
  exists gs gh,
    Inv total w (kids ++ drop (spawned n) (tasks svc)) gs /\
    length kids = spawned n /\
    (forall i x gx, (kids ++ drop (spawned n) (tasks svc)) !! i = Some x ->
                    gs !! i = Some gx -> g_done gx = 1 \/ x = Ret tt) /\
    phase_ok svc es1 es2 es3 n main w gs /\
    gs !! j = Some gh /\ Thread w g gh.
Proof.
  intros (gs & HI & Hlen & HD & Hph) Hj. simpl in *.
  assert (Hj' : (kids ++ drop (spawned n) (tasks svc)) !! j = Some g).
  { apply lookup_app_l_Some. exact Hj. }
  destruct (Inv_thread _ _ _ _ _ _ HI Hj') as (gh & Hgh & Ht).
  exists gs, gh. auto 10.
Qed.

(** A goroutine that has not returned: the caller is between its first
    [go] statement and the end of [wg.Wait]. *)
Lemma MainInv_kid_phase (n : nat) (main : Prog error) (kids : list (Prog unit))
    (w : World) (j : nat) (g : Prog unit) :
  MInv n (Build_Pool main kids, w) ->
  kids !! j = Some g ->
  g <> Ret tt ->
  4 <= n <= 8.
Proof.
  intros HM Hj Hg. destruct (decide (9 <= n)) as [Hn|Hn].
  - destruct (kids_returned _ _ _ _ _ _ _ HM Hn) as [Hk _]. simpl in Hk. subst kids.
    exfalso. destruct j as [|[|[|j]]]; simpl in Hj; try discriminate;
      injection Hj as <-; by apply Hg.
  - destruct HM as (gs & _ & Hlen & _). simpl in Hlen.
    apply lookup_lt_Some in Hj. rewrite Hlen in Hj.
    destruct n as [|[|[|[|n]]]]; simpl in Hj; lia.
Qed.

Lemma phase_ok_running (n : nat) (main : Prog error) (w : World) (gs : list Ghost) :
  4 <= n <= 8 -> phase_ok svc es1 es2 es3 n main w gs ->
  errs_ok svc w gs /\ wg_ok n w gs /\ ch_closed w = false /\ ch_cap w = 3.
Proof.
  intros Hn Hph.
  destruct n as [|[|[|[|[|[|[|[|[|n]]]]]]]]]; try lia; simpl in Hph; tauto.
Qed.

Lemma MainInv_send_room (n : nat) (main : Prog error) (kids : list (Prog unit))
    (w : World) (j : nat) (e : string) (k : Prog unit) :
  MInv n (Build_Pool main kids, w) ->
  kids !! j = Some (ChanSend e k) ->
  ch_closed w = false /\ length (ch_buf w) < ch_cap w.
Proof.
  intros HM Hj.
  assert (Hn : 4 <= n <= 8) by (eapply MainInv_kid_phase; eauto; discriminate).
  destruct (MainInv_kid _ _ _ _ _ _ HM Hj) as (gs & gh & HI & _ & _ & Hph & Hgh & Ht).
  destruct (phase_ok_running n main w gs Hn Hph) as (Herrs & _ & Hcl & Hcap).
  split; [exact Hcl|].
  apply Thread_send in Ht.
  pose proof (concat_errs_ge gs j gh Hgh) as Hge.
  assert (Hle : length (all_errs svc) <= 3).
  { unfold all_errs. rewrite !length_app.
    destruct (s3_result svc), (sg_result svc), (iam_result svc); simpl; lia. }
  unfold errs_ok in Herrs. rewrite <- Herrs, length_app in Hle.
  destruct (g_errs gh); [congruence|]. simpl in Hge. lia.
Qed.

Lemma MainInv_done_counted (n : nat) (main : Prog error) (kids : list (Prog unit))
    (w : World) (j : nat) (k : Prog unit) :
  MInv n (Build_Pool main kids, w) ->
  kids !! j = Some (WgDone k) ->
  wg w <> 0.
Proof.
  intros HM Hj.
  assert (Hn : 4 <= n <= 8) by (eapply MainInv_kid_phase; eauto; discriminate).
  destruct (MainInv_kid _ _ _ _ _ _ HM Hj) as (gs & gh & HI & Hlen & HD & Hph & Hgh & Ht).
  destruct (phase_ok_running n main w gs Hn Hph) as (_ & Hwg & _ & _).
  apply Thread_done in Ht.
  pose proof (Forall2_length _ _ _ (inv_threads _ _ _ _ HI)) as Hl.
  unfold wg_ok in Hwg.
  destruct n as [|[|[|[|[|[|[|[|[|n]]]]]]]]]; try lia; simpl in *;
    (destruct kids as [|k0 [|k1 [|k2 [|k3 kids]]]]; simpl in Hlen; try lia);
    (destruct gs as [|g0 [|g1 [|g2 [|g3 gs]]]]; simpl in Hl; try lia);
    pose proof (HD 0 _ _ eq_refl eq_refl) as D0;
    pose proof (HD 1 _ _ eq_refl eq_refl) as D1;
    pose proof (HD 2 _ _ eq_refl eq_refl) as D2;
    repeat match goal with
           | D : _ \/ scan_task _ = Ret tt |- _ =>
               destruct D as [D|D]; [|exfalso; exact (scan_task_not_Ret _ D)]
           end;
    (destruct j as [|[|[|j]]]; simpl in Hj, Hgh; try discriminate);
    injection Hgh as <-; simpl in Hwg; lia.
Qed.

Lemma kid_safe (n : nat) (main : Prog error) (kids : list (Prog unit))
    (w : World) (j : nat) (g : Prog unit) :
  MInv n (Build_Pool main kids, w) ->
  kids !! j = Some g ->
  panics (step g w) = false /\
  (waits (step g w) = true -> exists k, g = MuLock k).
Proof.
  intros HM Hj.
  destruct (MainInv_kid _ _ _ _ _ _ HM Hj) as (gs & gh & HI & _ & _ & _ & Hgh & Ht).
  destruct Ht as [p es errs d Hp|f0 k es errs d Hk|q f' k es errs d Hq Hk
                 |q f' k es errs d Hq Hk|q f' f k es errs d Hq Hf Hk
                 |q f' f k es errs d Hq Hf Hk|k es errs d Hk].
  - inversion Hp; subst; simpl; try (split; [reflexivity|discriminate]).
    + destruct (MainInv_send_room _ _ _ _ _ _ _ HM Hj) as [Hcl Hroom].
      rewrite Hcl. rewrite bool_decide_eq_true_2 by exact Hroom.
      split; [reflexivity|discriminate].
    + pose proof (MainInv_done_counted _ _ _ _ _ _ HM Hj) as Hwg.
      destruct (wg w); [congruence|]. split; [reflexivity|discriminate].
  - simpl. split; [reflexivity|discriminate].
  - simpl. destruct (s_mu w); simpl; split; try reflexivity; eauto; discriminate.
  - simpl. rewrite Hq. split; [reflexivity|discriminate].
  - simpl. split; [reflexivity|discriminate].
  - simpl. split; [reflexivity|discriminate].
  - simpl. destruct (s_mu w) eqn:Hmu; [split; [reflexivity|discriminate]|].
    pose proof (inv_mu_free _ _ _ _ HI j _ Hmu Hgh) as Hc. discriminate Hc.
Qed.

Lemma main_safe (n : nat) (st : Pool error * World) :
  MInv n st ->
  panics (step (p_main st.1) st.2) = false /\
  (waits (step (p_main st.1) st.2) = true -> exists k, p_main st.1 = WgWait k).
Proof.
  intros (gs & _ & _ & _ & Hph). destruct st as [[main kids] w]. simpl in *.
  destruct n as [|[|[|[|[|[|[|[|[|[|[|[|[|n]]]]]]]]]]]]]; simpl in Hph;
    try contradiction.
  - destruct Hph as [-> _]. simpl. split; [reflexivity|discriminate].
  - destruct Hph as [-> _]. simpl. split; [reflexivity|discriminate].
  - destruct Hph as [Hm _]. injection Hm as <-. simpl. split; [reflexivity|discriminate].
  - destruct Hph as [Hm _]. injection Hm as <-. simpl. split; [reflexivity|discriminate].
  - destruct Hph as [Hm _]. injection Hm as <-. simpl. split; [reflexivity|discriminate].
  - destruct Hph as [Hm _]. injection Hm as <-. simpl. split; [reflexivity|discriminate].
  - destruct Hph as [Hm _]. injection Hm as <-. simpl. split; [reflexivity|discriminate].
  - destruct Hph as [Hm _]. injection Hm as <-. simpl. split; [reflexivity|discriminate].
  - destruct Hph as [Hm _]. injection Hm as <-. simpl.
    destruct (wg w); simpl; split; try reflexivity; try discriminate; eauto.
  - destruct Hph as (-> & _ & _ & Hcl). simpl. rewrite Hcl.
    split; [reflexivity|discriminate].
  - destruct Hph as (-> & _ & _ & Hcl). simpl. rewrite Hcl.
    destruct (ch_buf w); split; try reflexivity; discriminate.
  - destruct Hph as (-> & _). simpl. split; [reflexivity|discriminate].
  - destruct Hph as (_ & [[-> _]|(e & -> & _)]); simpl;
      split; try reflexivity; discriminate.
Qed.

End Safety.

Lemma MainInv_reached (svc : Cloud) (w : World) (sch : list nat) :
  s_mu w = false -> wf w ->
  exists n,
    MainInv svc (s3_findings svc) (sg_findings svc) (iam_findings svc)
      (total0 (s3_findings svc) (sg_findings svc) (iam_findings svc) w) n
      (exec sch (Build_Pool (ScanConcurrent svc) [], w)).
Proof.
  intros Hmu Hwf.
  pose proof (Reports_Emits _ _ _ (Reports_scanS3 svc)) as H1.
  pose proof (Emits_scanSecurityGroups_all svc) as H2.
  pose proof (Reports_Emits _ _ _ (Reports_scanIAM svc)) as H3.
  pose proof (MainInv_start svc _ _ _ H1 H2 H3 w Hmu Hwf) as H0.
  exact (MainInv_exec _ _ _ _ _ sch _ _ H0).
Qed.

(** X11. [ScanConcurrent] itself is free of data races on the store, under
    every schedule and at every moment: no two of its goroutines are
    about to read or write [s.findings] at the same time; a goroutine
    that is about to do so holds [s.mu]; and when the caller reads
    [s.findings] (for the count it prints, without the lock), all three
    goroutines have returned. *)
Theorem ScanConcurrent_race_free (svc : Cloud) (w : World) (sch : list nat) :
  s_mu w = false ->
  wf w ->
  let st := exec sch (Build_Pool (ScanConcurrent svc) [], w) in
  (forall i j g g',
     p_kids st.1 !! i = Some g -> p_kids st.1 !! j = Some g' ->
     touches_store g = true -> touches_store g' = true -> i = j) /\
  (forall i g,
     p_kids st.1 !! i = Some g -> touches_store g = true -> s_mu st.2 = true) /\
  (touches_store (p_main st.1) = true ->
   p_kids st.1 = [Ret tt; Ret tt; Ret tt]).
Proof.
  intros Hmu Hwf st.
  destruct (MainInv_reached svc w sch Hmu Hwf) as [n HM]. fold st in HM.
  pose proof HM as (gs & HI & _ & _ & Hph).
  assert (Hcrit : forall i g, p_kids st.1 !! i = Some g -> touches_store g = true ->
            exists gh, gs !! i = Some gh /\ g_crit gh = true).
  { intros i g Hi Hg.
    assert (Hi' : (p_kids st.1 ++ drop (spawned n) (tasks svc)) !! i = Some g).
    { apply lookup_app_l_Some. exact Hi. }
    destruct (Inv_thread _ _ _ _ _ _ HI Hi') as (gh & Hgh & Ht).
    exists gh. split; [exact Hgh|]. eapply Thread_touches; eauto. }
  split; [|split].
  - intros i j g g' Hi Hj Hg Hg'.
    destruct (Hcrit i g Hi Hg) as (gi & Hgi & Hci).
    destruct (Hcrit j g' Hj Hg') as (gj & Hgj & Hcj).
    exact (inv_crit_uniq _ _ _ _ HI i j gi gj Hgi Hgj Hci Hcj).
  - intros i g Hi Hg. destruct (Hcrit i g Hi Hg) as (gi & Hgi & Hci).
    destruct (s_mu st.2) eqn:Hm; [reflexivity|].
    pose proof (inv_mu_free _ _ _ _ HI i gi Hm Hgi) as Hc. congruence.
  - intros Hmain.
    assert (Hn : (9 <= n)%nat).
    { destruct n as [|[|[|[|[|[|[|[|[|n]]]]]]]]]; [..|lia]; simpl in Hph;
        exfalso; destruct Hph as [Hm _];
        first [ injection Hm as Hm; rewrite <- Hm in Hmain
              | rewrite Hm in Hmain ];
        discriminate Hmain. }
    exact (proj1 (kids_returned _ _ _ _ _ _ _ HM Hn)).
Qed.

(** X12. [ScanConcurrent] never panics, and its goroutines wait for
    nothing but the mutex, under every schedule and at every moment: the
    WaitGroup counter never goes below zero, the channel is closed once
    and only when nothing will be sent any more, [s.mu] is unlocked only
    by its holder; a send on the error channel never has to wait (the
    buffer has room for the error of each check), and the caller waits
    only in [wg.Wait]. *)
Theorem ScanConcurrent_never_panics (svc : Cloud) (w : World) (sch : list nat) :
  s_mu w = false ->
  wf w ->
  let st := exec sch (Build_Pool (ScanConcurrent svc) [], w) in
  panics (step (p_main st.1) st.2) = false /\
  (waits (step (p_main st.1) st.2) = true -> exists k, p_main st.1 = WgWait k) /\
  (forall j g, p_kids st.1 !! j = Some g ->
     panics (step g st.2) = false /\
     (waits (step g st.2) = true -> exists k, g = MuLock k)).
Proof.
  intros Hmu Hwf st.
  destruct (MainInv_reached svc w sch Hmu Hwf) as [n HM]. fold st in HM.
  destruct (main_safe _ _ _ _ _ _ _ HM) as [Hp Hw].
  split; [exact Hp|]. split; [exact Hw|].
  intros j g Hj. destruct st as [[main kids] w']. simpl in *.
  exact (kid_safe _ _ _ _ _ _ _ _ _ _ _ HM Hj).
Qed.

(** ** An account and a scanner, for the examples *)

Definition demo_cloud : Cloud :=
  {| ListBuckets := Ok [ {| bucket_Name := "logs" |}; {| bucket_Name := "site" |} ];
     GetBucketEncryption := fun b =>
       if bool_decide (b = "logs") then Err "AccessDenied" else Ok tt;
     GetBucketAcl := fun b =>
       if bool_decide (b = "site")
       then Ok [ {| grant_Grantee := {| URI := Some AllUsers |} |} ]
       else Err "AccessDenied";
     GetBucketVersioning := fun b =>
       if bool_decide (b = "site") then Ok (Some "Suspended") else Ok (Some "Enabled");
     DescribeSecurityGroups :=
       Ok [ {| GroupId := "sg-1"; GroupName := "web";
               IpPermissions :=
                 [ {| FromPort := Some 20; ToPort := Some 25;
                      IpRanges := [ {| CidrIp := "0.0.0.0/0" |};
                                    {| CidrIp := "0.0.0.0/0" |} ] |} ] |} ];
     ListUsers := Ok [ {| UserName := "ana" |}; {| UserName := "ci" |} ];
     GetLoginProfile := fun u =>
       if bool_decide (u = "ana") then Ok tt else Err "NoSuchEntity";
     ListMFADevices := fun _ => Ok [];
     ListAccessKeys := fun _ => Ok [ {| key_Status := "Active"; CreateDate := 0 |} ] |}.

Definition demo_scanner : World :=
  NewScanner "eu-west-1" (fun n => 1700000000 + Z.of_nat n) (fun _ => [2%nat; 0%nat]).

(** A scanner that holds three findings. *)
Definition demo_store : World :=
  {| heap := [ public_bucket_finding "site"; mfa_finding "ana";
               all_ports_finding "sg-1" "web" ];
     s_region := "eu-west-1"; s_findings := [0; 1; 2]%nat; s_mu := true;
     wg := 0; ch_buf := []; ch_cap := 0; ch_closed := false;
     ticks := 3; clock := fun n => 1700000000 + Z.of_nat n;
     ranges := 0; seeds := fun _ => [] |}.

Lemma wf_demo_store : wf demo_store.
Proof. unfold wf. simpl. repeat (constructor; [lia|]). constructor. Qed.

Lemma GetFindingsBySeverity_filter_witness :
  exists ps,
    run (GetFindingsBySeverity "CRITICAL") demo_store = Some (ps, demo_store) /\
    ps = List.filter (has_severity (heap demo_store) "CRITICAL") (s_findings demo_store) /\
    omap (fun p => heap demo_store !! p) ps =
      List.filter (fun f => bool_decide (Severity f = "CRITICAL")) (findings_of demo_store).
Proof. apply (GetFindingsBySeverity_filter "CRITICAL" demo_store). apply wf_demo_store. Defined.

(** In the example the first and the third finding are critical. *)
Example GetCriticalFindings_example :
  run GetCriticalFindings demo_store = Some ([0; 2]%nat, demo_store).
Proof. reflexivity. Qed.

Lemma scanS3_store_witness :
  exists w',
    run (scanS3 demo_cloud) demo_scanner = Some (None, w') /\
    findings_of w' =
      findings_of demo_scanner
        ++ imap (stamp demo_scanner)
             (concat (map (bucket_findings demo_cloud)
                          [ {| bucket_Name := "logs" |}; {| bucket_Name := "site" |} ])) /\
    (length (findings_of w') <= length (findings_of demo_scanner) + 3 * 2)%nat /\
    s_mu w' = false /\ wf w'.
Proof.
  apply (scanS3_store demo_cloud
           [ {| bucket_Name := "logs" |}; {| bucket_Name := "site" |} ] demo_scanner);
    [reflexivity|reflexivity|constructor].
Defined.

(** In the example: "logs" cannot be read and counts as not encrypted;
    "site" is public and its versioning is suspended. *)
Example scanS3_example :
  (fun r => match r with
            | Some (e, w') =>
                (e, map (fun f => (ResourceID f, Severity f, Title f, Timestamp f))
                        (findings_of w'))
            | None => (None, [])
            end) (run (scanS3 demo_cloud) demo_scanner) =
  (None, [ ("logs", "HIGH", "S3 Bucket Not Encrypted", 1700000000);
           ("site", "CRITICAL", "S3 Bucket Publicly Accessible", 1700000001);
           ("site", "MEDIUM", "S3 Bucket Versioning Disabled", 1700000002) ]).
Proof. vm_compute. reflexivity. Qed.

Lemma scanIAM_store_witness :
  exists w',
    run (scanIAM demo_cloud) demo_scanner = Some (None, w') /\
    findings_of w' =
      findings_of demo_scanner
        ++ imap (stamp demo_scanner)
             (concat (map (mfa_findings demo_cloud)
                          [ {| UserName := "ana" |}; {| UserName := "ci" |} ])) /\
    s_mu w' = false /\ wf w'.
Proof.
  apply (scanIAM_store demo_cloud
           [ {| UserName := "ana" |}; {| UserName := "ci" |} ] demo_scanner);
    [reflexivity|reflexivity|constructor].
Defined.

(** The example account, with no access key to be listed. *)
Definition demo_cloud_no_keys : Cloud :=
  {| ListBuckets := ListBuckets demo_cloud;
     GetBucketEncryption := GetBucketEncryption demo_cloud;
     GetBucketAcl := GetBucketAcl demo_cloud;
     GetBucketVersioning := GetBucketVersioning demo_cloud;
     DescribeSecurityGroups := DescribeSecurityGroups demo_cloud;
     ListUsers := ListUsers demo_cloud;
     GetLoginProfile := GetLoginProfile demo_cloud;
     ListMFADevices := ListMFADevices demo_cloud;
     ListAccessKeys := fun _ => Err "AccessDenied" |}.

Lemma access_keys_ignored_witness :
  run (scanIAM demo_cloud) demo_scanner = run (scanIAM demo_cloud_no_keys) demo_scanner /\
  run (scanIAM demo_cloud) demo_scanner <> None.
Proof.
  apply (access_keys_ignored demo_cloud demo_cloud_no_keys demo_scanner); reflexivity.
Defined.

Definition half_open_group : SecurityGroup :=
  {| GroupId := "sg-2"; GroupName := "db";
     IpPermissions :=
       [ {| FromPort := Some 0; ToPort := Some 65535;
            IpRanges := [ {| CidrIp := "0.0.0.0/1" |}; {| CidrIp := "128.0.0.0/1" |} ] |};
         {| FromPort := Some 5432; ToPort := Some 5432; IpRanges := [] |} ] |}.

Lemma only_exact_cidr_reported_witness :
  run (checkSecurityGroupRules half_open_group) demo_scanner = Some (tt, demo_scanner).
Proof.
  apply (only_exact_cidr_reported half_open_group demo_scanner).
  repeat (constructor; try discriminate).
Defined.

Lemma checkPublicAccess_report_witness :
  exists w' fs,
    run (checkPublicAccess "sg-1" "web" 20 25) demo_scanner = Some (tt, w') /\
    findings_of w' = findings_of demo_scanner ++ fs /\
    map strip fs ≡ₚ stored demo_scanner (public_access_findings "sg-1" "web" 20 25) /\
    length fs =
      (length (List.filter (in_range 20 25) criticalPorts)
       + (if Z.eqb 20 0 && Z.eqb 25 65535 then 1 else 0))%nat /\
    Forall (fun f => Severity f = SeverityCritical /\ ResourceID f = "sg-1" /\
                     ResourceType f = ResourceSecurityGroup /\
                     Region f = s_region demo_scanner) fs /\
    ((forall entry, entry ∈ criticalPorts -> in_range 20 25 entry = false) ->
     fs = []).
Proof.
  apply (checkPublicAccess_report "sg-1" "web" 20 25 demo_scanner);
    [reflexivity|constructor].
Defined.

(** Ports 80 to 443 open to the whole internet: nothing is reported. *)
Example web_ports_not_reported :
  (fun r => match r with
            | Some (_, w') => findings_of w'
            | None => [public_bucket_finding "none"]
            end) (run (checkPublicAccess "sg-1" "web" 80 443) demo_scanner) = [].
Proof. vm_compute. reflexivity. Qed.

Lemma repeated_cidr_repeats_findings_witness :
  exists w' fs,
    run (check_permission "sg-1" "web"
           {| FromPort := Some 20; ToPort := Some 25;
              IpRanges := [ {| CidrIp := "0.0.0.0/0" |}; {| CidrIp := "0.0.0.0/0" |} ] |})
        demo_scanner = Some (tt, w') /\
    findings_of w' = findings_of demo_scanner ++ fs /\
    length fs =
      (length (List.filter unrestricted
                 [ {| CidrIp := "0.0.0.0/0" |}; {| CidrIp := "0.0.0.0/0" |} ])
       * length (public_access_findings "sg-1" "web" 20 25))%nat.
Proof.
  apply (repeated_cidr_repeats_findings "sg-1" "web"
           {| FromPort := Some 20; ToPort := Some 25;
              IpRanges := [ {| CidrIp := "0.0.0.0/0" |}; {| CidrIp := "0.0.0.0/0" |} ] |}
           demo_scanner); [reflexivity|constructor].
Defined.

Lemma Scan_store_order_witness :
  exists w' fs1 fs2 fs3,
    run (Scan demo_cloud) demo_scanner = Some (None, w') /\
    findings_of w' = findings_of demo_scanner ++ fs1 ++ fs2 ++ fs3 /\
    map strip fs1 = stored demo_scanner (s3_findings demo_cloud) /\
    map strip fs2 ≡ₚ stored demo_scanner (sg_findings demo_cloud) /\
    map strip fs3 = stored demo_scanner (iam_findings demo_cloud).
Proof.
  apply (Scan_store_order demo_cloud demo_scanner);
    [reflexivity|reflexivity|reflexivity|reflexivity|constructor].
Defined.

(** The store of the example after a sequential scan. *)
Example Scan_example :
  (fun r => match r with
            | Some (e, w') => (e, map (fun f => (ResourceID f, Title f)) (findings_of w'))
            | None => (None, [])
            end) (run (Scan demo_cloud) demo_scanner) =
  (None, [ ("logs", "S3 Bucket Not Encrypted");
           ("site", "S3 Bucket Publicly Accessible");
           ("site", "S3 Bucket Versioning Disabled");
           ("sg-1", "SSH Port Publicly Accessible");
           ("sg-1", "SSH Port Publicly Accessible");
           ("ana", "IAM User Without MFA") ]).
Proof. vm_compute. reflexivity. Qed.

Lemma Scan_twice_duplicates_witness :
  exists w1 w2 fs fs',
    run (Scan demo_cloud) demo_scanner = Some (None, w1) /\
    run (Scan demo_cloud) w1 = Some (None, w2) /\
    findings_of w1 = findings_of demo_scanner ++ fs /\
    findings_of w2 = findings_of demo_scanner ++ fs ++ fs' /\
    map strip fs' ≡ₚ map strip fs.
Proof.
  apply (Scan_twice_duplicates demo_cloud demo_scanner);
    [reflexivity|reflexivity|reflexivity|reflexivity|constructor].
Defined.

(** A schedule in which the three goroutines take turns. *)
Definition round_robin : list nat :=
  replicate 8 0%nat ++ concat (replicate 30 [1; 2; 3]%nat) ++ replicate 4 0%nat.

(** A schedule that stops in the middle of the scan. *)
Definition halfway : list nat :=
  replicate 8 0%nat ++ concat (replicate 3 [3; 1; 2]%nat) ++ [3%nat].

Lemma findings_made_by_scanner_witness :
  (exists r w',
     run (Scan demo_cloud) demo_scanner = Some (r, w') /\
     Forall (made_by_scanner (s_region demo_scanner)) (findings_of w')) /\
  Forall (made_by_scanner (s_region demo_scanner))
         (findings_of (exec halfway (Build_Pool (ScanConcurrent demo_cloud) [],
                                     demo_scanner)).2).
Proof.
  apply (findings_made_by_scanner demo_cloud demo_scanner halfway);
    [reflexivity|constructor|constructor].
Defined.

Lemma ScanConcurrent_race_free_witness :
  let st := exec halfway (Build_Pool (ScanConcurrent demo_cloud) [], demo_scanner) in
  (forall i j g g',
     p_kids st.1 !! i = Some g -> p_kids st.1 !! j = Some g' ->
     touches_store g = true -> touches_store g' = true -> i = j) /\
  (forall i g,
     p_kids st.1 !! i = Some g -> touches_store g = true -> s_mu st.2 = true) /\
  (touches_store (p_main st.1) = true ->
   p_kids st.1 = [Ret tt; Ret tt; Ret tt]).
Proof.
  apply (ScanConcurrent_race_free demo_cloud demo_scanner halfway);
    [reflexivity|constructor].
Defined.

Lemma ScanConcurrent_never_panics_witness :
  let st := exec halfway (Build_Pool (ScanConcurrent demo_cloud) [], demo_scanner) in
  panics (step (p_main st.1) st.2) = false /\
  (waits (step (p_main st.1) st.2) = true -> exists k, p_main st.1 = WgWait k) /\
  (forall j g, p_kids st.1 !! j = Some g ->
     panics (step g st.2) = false /\
     (waits (step g st.2) = true -> exists k, g = MuLock k)).
Proof.
  apply (ScanConcurrent_never_panics demo_cloud demo_scanner halfway);
    [reflexivity|constructor].
Defined.

(** The example stopped half way: the third goroutine holds the lock and
    is about to read the store, the other two wait for the lock. *)
Example halfway_example :
  let st := exec halfway (Build_Pool (ScanConcurrent demo_cloud) [], demo_scanner) in
  s_mu st.2 = true /\
  map (fun g => (touches_store g, waits (step g st.2))) (p_kids st.1)
    = [(false, true); (false, true); (true, false)].
Proof. vm_compute. auto. Qed.

(** The example run to its end: the caller has returned nil and the
    store holds the six findings. *)
Example ScanConcurrent_example :
  let st := exec round_robin (Build_Pool (ScanConcurrent demo_cloud) [], demo_scanner) in
  p_main st.1 = Ret None /\
  p_kids st.1 = [Ret tt; Ret tt; Ret tt] /\
  length (findings_of st.2) = 6%nat.
Proof. vm_compute. auto. Qed.

(** X13. The two modes differ when a check fails.  When the buckets
    cannot be listed (and the other two listings succeed), [Scan] returns
    the error under the name of the check, "S3 scan failed: failed to
    list S3 buckets: ...", and stores nothing, since the later checks do
    not run; [ScanConcurrent], under every schedule, can return, returns
    the error of the check as it is, "failed to list S3 buckets: ...",
    and stores the findings of the other two checks. *)
Theorem modes_differ_on_failure (svc : Cloud) (e : string) (w : World)
    (sch : list nat) :
  ListBuckets svc = Err e ->
  sg_result svc = None ->
  iam_result svc = None ->
  s_mu w = false ->
  wf w ->
  let st0 := (Build_Pool (ScanConcurrent svc) [], w) in
  run (Scan svc) w
    = Some (Some ("S3 scan failed: failed to list S3 buckets: " +:+ e), w) /\
  (exists sch' r, p_main (exec (sch ++ sch') st0).1 = Ret r) /\
  (forall r, p_main (exec sch st0).1 = Ret r ->
     r = Some ("failed to list S3 buckets: " +:+ e) /\
     map strip (findings_of (exec sch st0).2)
       ≡ₚ map strip (findings_of w) ++ stored w (sg_findings svc ++ iam_findings svc)).
Proof.
  intros Hl E2 E3 Hmu Hwf st0.
  pose proof (Reports_Emits _ _ _ (Reports_scanS3 svc)) as H1.
  pose proof (Emits_scanSecurityGroups_all svc) as H2.
  pose proof (Reports_Emits _ _ _ (Reports_scanIAM svc)) as H3.
  destruct (MainInv_reached svc w sch Hmu Hwf) as [n HM]. fold st0 in HM.
  split; [|split].
  - unfold Scan, scanS3. rewrite Hl. reflexivity.
  - destruct (can_return svc _ _ _ H1 H2 H3 _ n _ HM) as (sch' & r & Hr).
    exists sch', r. by rewrite exec_app.
  - intros r Hr.
    destruct (MainInv_returned _ _ _ _ _ _ _ r HM Hr) as [-> Hres].
    destruct (kids_returned _ _ _ _ _ _ _ HM) as [_ Hstore]; [lia|].
    assert (Herrs : all_errs svc = ["failed to list S3 buckets: " +:+ e]).
    { unfold all_errs, s3_result. rewrite Hl, E2, E3. reflexivity. }
    split.
    + destruct Hres as [[_ Hnil]|(e' & -> & He')]; [congruence|].
      rewrite Herrs in He'. by apply list_elem_of_singleton in He' as ->.
    + rewrite Hstore. unfold total0, s3_findings. by rewrite Hl.
Qed.

(** The example account with its bucket listing denied. *)
Definition demo_cloud_no_s3 : Cloud :=
  {| ListBuckets := Err "AccessDenied";
     GetBucketEncryption := GetBucketEncryption demo_cloud;
     GetBucketAcl := GetBucketAcl demo_cloud;
     GetBucketVersioning := GetBucketVersioning demo_cloud;
     DescribeSecurityGroups := DescribeSecurityGroups demo_cloud;
     ListUsers := ListUsers demo_cloud;
     GetLoginProfile := GetLoginProfile demo_cloud;
     ListMFADevices := ListMFADevices demo_cloud;
     ListAccessKeys := ListAccessKeys demo_cloud |}.

Lemma modes_differ_on_failure_witness :
  let st0 := (Build_Pool (ScanConcurrent demo_cloud_no_s3) [], demo_scanner) in
  run (Scan demo_cloud_no_s3) demo_scanner
    = Some (Some ("S3 scan failed: failed to list S3 buckets: " +:+ "AccessDenied"),
            demo_scanner) /\
  (exists sch' r, p_main (exec (round_robin ++ sch') st0).1 = Ret r) /\
  (forall r, p_main (exec round_robin st0).1 = Ret r ->
     r = Some ("failed to list S3 buckets: " +:+ "AccessDenied") /\
     map strip (findings_of (exec round_robin st0).2)
       ≡ₚ map strip (findings_of demo_scanner)
          ++ stored demo_scanner (sg_findings demo_cloud_no_s3
                                  ++ iam_findings demo_cloud_no_s3)).
Proof.
  apply (modes_differ_on_failure demo_cloud_no_s3 "AccessDenied" demo_scanner round_robin);
    [reflexivity|reflexivity|reflexivity|reflexivity|constructor].
Defined.

(** In the example the concurrent scan has returned at the end of the
    schedule, with the error of the storage check and three findings. *)
Example modes_differ_example :
  let st := exec round_robin (Build_Pool (ScanConcurrent demo_cloud_no_s3) [],
                              demo_scanner) in
  p_main st.1 = Ret (Some "failed to list S3 buckets: AccessDenied") /\
  map Title (findings_of st.2)
    = [ "IAM User Without MFA"; "SSH Port Publicly Accessible";
        "SSH Port Publicly Accessible" ].
Proof. vm_compute. auto. Qed.

(** ** Go's [sort.Slice]

    [Reporter.SortBySeverity] calls [sort.Slice] of Go's standard library
    (go 1.24 in go.mod).  [sort.Slice] is pattern-defeating quicksort,
    [pdqsort_func] of sort/zsortfunc.go, modelled here line by line on a
    list: [data.Less(i, j)] compares the elements at [i] and [j],
    [data.Swap(i, j)] exchanges them.  Indices are naturals; every loop
    that Go bounds by its indices has that bound as fuel. *)

Module sort.

Section Slice.

Local Open Scope nat_scope.

Context {A : Type}.
Variable less : A -> A -> bool.

Definition Less (data : list A) (i j : nat) : bool :=
  match data !! i, data !! j with
  | Some x, Some y => less x y
  | _, _ => false
  end.

Definition Swap (data : list A) (i j : nat) : list A :=
  match data !! i, data !! j with
  | Some x, Some y => <[i := y]> (<[j := x]> data)
  | _, _ => data
  end.

(** for j := i; j > a && data.Less(j, j-1); j-- { data.Swap(j, j-1) } *)
Fixpoint insert_down (data : list A) (a j : nat) : list A :=
  match j with
  | O => data
  | S j' =>
      if (a <? j) && Less data j j'
      then insert_down (Swap data j j') a j'
      else data
  end.

Definition insertionSort_func (data : list A) (a b : nat) : list A :=
  fold_left (fun d i => insert_down d a i) (seq (a + 1) (b - (a + 1))) data.

Fixpoint siftDown_loop (fuel : nat) (data : list A) (root hi first : nat) : list A :=
  match fuel with
  | O => data
  | S fuel' =>
      let child := 2 * root + 1 in
      if hi <=? child then data
      else
        let child :=
          if (child + 1 <? hi) && Less data (first + child) (first + child + 1)
          then child + 1 else child in
        if negb (Less data (first + root) (first + child)) then data
        else siftDown_loop fuel' (Swap data (first + root) (first + child))
               child hi first
  end.

Definition siftDown_func (data : list A) (lo hi first : nat) : list A :=
  siftDown_loop hi data lo hi first.

Definition heapSort_func (data : list A) (a b : nat) : list A :=
  let first := a in
  let lo := 0 in
  let hi := b - a in
  (* for i := (hi - 1) / 2; i >= 0; i-- *)
  let data := fold_left (fun d i => siftDown_func d i hi first)
                        (rev (seq 0 ((hi - 1) / 2 + 1))) data in
  (* for i := hi - 1; i >= 0; i-- *)
  fold_left (fun d i => siftDown_func (Swap d first (first + i)) lo i first)
            (rev (seq 0 hi)) data.

(** for i <= j && data.Less(i, a) { i++ } *)
Fixpoint scan_up (fuel : nat) (data : list A) (a i j : nat) : nat :=
  match fuel with
  | O => i
  | S fuel' =>
      if (i <=? j) && Less data i a then scan_up fuel' data a (i + 1) j else i
  end.

(** for i <= j && !data.Less(j, a) { j-- } *)
Fixpoint scan_down (fuel : nat) (data : list A) (a i j : nat) : nat :=
  match fuel with
  | O => j
  | S fuel' =>
      if (i <=? j) && negb (Less data j a) then scan_down fuel' data a i (j - 1) else j
  end.

Fixpoint partition_loop (fuel : nat) (data : list A) (a i j : nat) : list A * nat :=
  match fuel with
  | O => (data, j)
  | S fuel' =>
      let i := scan_up (length data) data a i j in
      let j := scan_down (length data) data a i j in
      if j <? i then (data, j)
      else partition_loop fuel' (Swap data i j) a (i + 1) (j - 1)
  end.

Definition partition_func (data : list A) (a b pivot : nat) : list A * nat * bool :=
  let data := Swap data a pivot in
  let i := a + 1 in
  let j := b - 1 in
  let i := scan_up (length data) data a i j in
  let j := scan_down (length data) data a i j in
  if j <? i then (Swap data j a, j, true)
  else
    let data := Swap data i j in
    let '(data, j) := partition_loop (length data) data a (i + 1) (j - 1) in
    (Swap data j a, j, false).

(** for i <= j && !data.Less(a, i) { i++ } *)
Fixpoint scan_up_eq (fuel : nat) (data : list A) (a i j : nat) : nat :=
  match fuel with
  | O => i
  | S fuel' =>
      if (i <=? j) && negb (Less data a i) then scan_up_eq fuel' data a (i + 1) j else i
  end.

(** for i <= j && data.Less(a, j) { j-- } *)
Fixpoint scan_down_eq (fuel : nat) (data : list A) (a i j : nat) : nat :=
  match fuel with
  | O => j
  | S fuel' =>
      if (i <=? j) && Less data a j then scan_down_eq fuel' data a i (j - 1) else j
  end.

Fixpoint partitionEqual_loop (fuel : nat) (data : list A) (a i j : nat) : list A * nat :=
  match fuel with
  | O => (data, i)
  | S fuel' =>
      let i := scan_up_eq (length data) data a i j in
      let j := scan_down_eq (length data) data a i j in
      if j <? i then (data, i)
      else partitionEqual_loop fuel' (Swap data i j) a (i + 1) (j - 1)
  end.

Definition partitionEqual_func (data : list A) (a b pivot : nat) : list A * nat :=
  let data := Swap data a pivot in
  partitionEqual_loop (length data) data a (a + 1) (b - 1).

(** for i < b && !data.Less(i, i-1) { i++ } *)
Fixpoint skip_ordered (fuel : nat) (data : list A) (i b : nat) : nat :=
  match fuel with
  | O => i
  | S fuel' =>
      if (i <? b) && negb (Less data i (i - 1)) then skip_ordered fuel' data (i + 1) b else i
  end.

(** for j := i - 1; j >= 1; j-- { if !data.Less(j, j-1) { break }; data.Swap(j, j-1) } *)
Fixpoint shift_left (data : list A) (j : nat) : list A :=
  match j with
  | O => data
  | S j' => if Less data j j' then shift_left (Swap data j j') j' else data
  end.

(** for j := i + 1; j < b; j++ { if !data.Less(j, j-1) { break }; data.Swap(j, j-1) } *)
Fixpoint shift_right (fuel : nat) (data : list A) (j b : nat) : list A :=
  match fuel with
  | O => data
  | S fuel' =>
      if (j <? b) && Less data j (j - 1)
      then shift_right fuel' (Swap data j (j - 1)) (j + 1) b
      else data
  end.

Fixpoint partialInsertionSort_loop (steps : nat) (data : list A) (a b i : nat)
    : list A * bool :=
  match steps with
  | O => (data, false)
  | S steps' =>
      let i := skip_ordered (length data) data i b in
      if i =? b then (data, true)
      else if b - a <? 50 then (data, false)
      else
        let data := Swap data i (i - 1) in
        let data := if 2 <=? i - a then shift_left data (i - 1) else data in
        let data := if 2 <=? b - i then shift_right (length data) data (i + 1) b
                    else data in
        partialInsertionSort_loop steps' data a b i
  end.

Definition partialInsertionSort_func (data : list A) (a b : nat) : list A * bool :=
  partialInsertionSort_loop 5 data a b (a + 1).

(** bits.Len *)
Definition bits_Len (x : nat) : nat :=
  match x with
  | O => 0
  | _ => S (Nat.log2 x)
  end.

Definition nextPowerOfTwo (length : nat) : nat := 2 ^ bits_Len length.

(** The uint64 generator [xorshift]. *)
Definition xorshift_Next (r : N) : N :=
  let m := (2 ^ 64)%N in
  let r := N.lxor r (N.shiftl r 13 mod m) in
  let r := N.lxor r (N.shiftr r 7) in
  N.lxor r (N.shiftl r 17 mod m).

Fixpoint breakPatterns_loop (n : nat) (data : list A) (a length idx modulus i : nat)
    (random : N) : list A :=
  match n with
  | O => data
  | S n' =>
      let random := xorshift_Next random in
      let other := N.to_nat (N.land random (N.of_nat (modulus - 1))) in
      let other := if length <=? other then other - length else other in
      breakPatterns_loop n' (Swap data (idx - 1 + i) (a + other))
        a length idx modulus (i + 1) random
  end.

Definition breakPatterns_func (data : list A) (a b : nat) : list A :=
  let length := b - a in
  if 8 <=? length then
    let random := N.of_nat length in
    let modulus := nextPowerOfTwo length in
    let idx := a + (length / 4) * 2 - 1 in
    breakPatterns_loop 3 data a length idx modulus 0 random
  else data.

Inductive sortedHint : Type := unknownHint | increasingHint | decreasingHint.

Definition order2_func (data : list A) (a b swaps : nat) : nat * nat * nat :=
  if Less data b a then (b, a, swaps + 1) else (a, b, swaps).

Definition median_func (data : list A) (a b c swaps : nat) : nat * nat :=
  let '(a, b, swaps) := order2_func data a b swaps in
  let '(b, c, swaps) := order2_func data b c swaps in
  let '(a, b, swaps) := order2_func data a b swaps in
  (b, swaps).

Definition medianAdjacent_func (data : list A) (a swaps : nat) : nat * nat :=
  median_func data (a - 1) a (a + 1) swaps.

Definition choosePivot_func (data : list A) (a b : nat) : nat * sortedHint :=
  let shortestNinther := 50 in
  let maxSwaps := 4 * 3 in
  let l := b - a in
  let swaps := 0 in
  let i := a + l / 4 * 1 in
  let j := a + l / 4 * 2 in
  let k := a + l / 4 * 3 in
  let '(j, swaps) :=
    if 8 <=? l then
      let '(i, j, k, swaps) :=
        if shortestNinther <=? l then
          let '(i, swaps) := medianAdjacent_func data i swaps in
          let '(j, swaps) := medianAdjacent_func data j swaps in
          let '(k, swaps) := medianAdjacent_func data k swaps in
          (i, j, k, swaps)
        else (i, j, k, swaps) in
      median_func data i j k swaps
    else (j, swaps) in
  if swaps =? 0 then (j, increasingHint)
  else if swaps =? maxSwaps then (j, decreasingHint)
  else (j, unknownHint).

Fixpoint reverseRange_loop (fuel : nat) (data : list A) (i j : nat) : list A :=
  match fuel with
  | O => data
  | S fuel' =>
      if i <? j then reverseRange_loop fuel' (Swap data i j) (i + 1) (j - 1)
      else data
  end.

Definition reverseRange_func (data : list A) (a b : nat) : list A :=
  reverseRange_loop (length data) data a (b - 1).

Definition is_increasing (h : sortedHint) : bool :=
  match h with increasingHint => true | _ => false end.

Definition is_decreasing (h : sortedHint) : bool :=
  match h with decreasingHint => true | _ => false end.

(** One turn of the loop of [pdqsort_func] is one unfolding; the
    recursive call and the next turn of the loop are both calls. *)
Fixpoint pdqsort_loop (fuel : nat) (data : list A) (a b limit : nat)
    (wasBalanced wasPartitioned : bool) : list A :=
  let maxInsertion := 12 in
  let length := b - a in
  if length <=? maxInsertion then insertionSort_func data a b
  else if limit =? 0 then heapSort_func data a b
  else
    match fuel with
    | O => data
    | S fuel' =>
        let '(data, limit) :=
          if negb wasBalanced then (breakPatterns_func data a b, limit - 1)
          else (data, limit) in
        let '(pivot, hint) := choosePivot_func data a b in
        let '(data, pivot, hint) :=
          if is_decreasing hint
          then (reverseRange_func data a b, (b - 1) - (pivot - a), increasingHint)
          else (data, pivot, hint) in
        let '(data, sorted) :=
          if wasBalanced && wasPartitioned && is_increasing hint
          then partialInsertionSort_func data a b
          else (data, false) in
        if sorted then data
        else if (0 <? a) && negb (Less data (a - 1) pivot) then
          let '(data, mid) := partitionEqual_func data a b pivot in
          pdqsort_loop fuel' data mid b limit wasBalanced wasPartitioned
        else
          let '(data, mid, alreadyPartitioned) := partition_func data a b pivot in
          let wasPartitioned := alreadyPartitioned in
          let leftLen := mid - a in
          let rightLen := b - mid in
          let balanceThreshold := length / 8 in
          if leftLen <? rightLen then
            let wasBalanced := balanceThreshold <=? leftLen in
            let data := pdqsort_loop fuel' data a mid limit true true in
            pdqsort_loop fuel' data (mid + 1) b limit wasBalanced wasPartitioned
          else
            let wasBalanced := balanceThreshold <=? rightLen in
            let data := pdqsort_loop fuel' data (mid + 1) b limit true true in
            pdqsort_loop fuel' data a mid limit wasBalanced wasPartitioned
    end.

Definition pdqsort_func (data : list A) (a b limit : nat) : list A :=
  pdqsort_loop (b - a) data a b limit true true.

(** sort.Slice(x, less) *)
Definition Slice (x : list A) : list A :=
  let length := length x in
  let limit := bits_Len length in
  pdqsort_func x 0 length limit.

End Slice.

Section SliceFacts.

Local Open Scope nat_scope.

Context {A : Type}.
Variable less : A -> A -> bool.

(** *** [sort.Slice] only swaps *)

Lemma insert_head_perm (l : list A) (j : nat) (x y : A) :
  l !! j = Some y -> y :: <[j := x]> l ≡ₚ x :: l.
Proof.
  revert j. induction l as [|z l IH]; intros [|j] H; simpl in *; try discriminate.
  - injection H as ->. apply perm_swap.
  - rewrite perm_swap. rewrite (IH j H). apply perm_swap.
Qed.

Lemma Swap_perm (data : list A) (i j : nat) : Swap data i j ≡ₚ data.
Proof.
  unfold Swap. destruct (data !! i) as [x|] eqn:Hi; [|reflexivity].
  destruct (data !! j) as [y|] eqn:Hj; [|reflexivity].
  revert i j Hi Hj. induction data as [|z l IH]; intros [|i] [|j] Hi Hj;
    simpl in *; try discriminate.
  - injection Hi as ->. injection Hj as ->. reflexivity.
  - injection Hi as ->. by apply insert_head_perm.
  - injection Hj as ->. by apply insert_head_perm.
  - by rewrite (IH i j Hi Hj).
Qed.

Lemma insert_down_perm (data : list A) (a j : nat) : insert_down less data a j ≡ₚ data.
Proof.
  revert data. induction j as [|j IH]; intros data; simpl; [reflexivity|].
  destruct ((a <? S j) && Less less data (S j) j); [|reflexivity].
  rewrite IH. apply Swap_perm.
Qed.

Lemma fold_left_perm {X : Type} (f : list A -> X -> list A) (xs : list X) (data : list A) :
  (forall d x, f d x ≡ₚ d) -> fold_left f xs data ≡ₚ data.
Proof.
  intros Hf. revert data. induction xs as [|x xs IH]; intros data; simpl; [reflexivity|].
  rewrite IH. apply Hf.
Qed.

Lemma insertionSort_perm (data : list A) (a b : nat) :
  insertionSort_func less data a b ≡ₚ data.
Proof. apply fold_left_perm. intros d i. apply insert_down_perm. Qed.

Lemma siftDown_loop_perm (fuel : nat) (data : list A) (root hi first : nat) :
  siftDown_loop less fuel data root hi first ≡ₚ data.
Proof.
  revert data root. induction fuel as [|fuel IH]; intros data root; simpl; [reflexivity|].
  destruct (hi <=? _); [reflexivity|].
  match goal with |- context [negb ?c] => destruct c end; simpl; [|reflexivity].
  rewrite IH. apply Swap_perm.
Qed.

Lemma heapSort_perm (data : list A) (a b : nat) : heapSort_func less data a b ≡ₚ data.
Proof.
  unfold heapSort_func. rewrite fold_left_perm.
  - apply fold_left_perm. intros d i. apply siftDown_loop_perm.
  - intros d i. unfold siftDown_func. rewrite siftDown_loop_perm. apply Swap_perm.
Qed.

Lemma partition_loop_perm (fuel : nat) (data : list A) (a i j : nat) :
  (partition_loop less fuel data a i j).1 ≡ₚ data.
Proof.
  revert data i j. induction fuel as [|fuel IH]; intros data i j; simpl; [reflexivity|].
  match goal with |- context [if ?c then _ else _] => destruct c end; [reflexivity|].
  rewrite IH. apply Swap_perm.
Qed.

Lemma partition_perm (data : list A) (a b pivot : nat) :
  (partition_func less data a b pivot).1.1 ≡ₚ data.
Proof.
  unfold partition_func.
  match goal with |- context [if ?c then _ else _] => destruct c end; simpl.
  - by rewrite !Swap_perm.
  - match goal with |- context [partition_loop less ?f ?d ?x ?y ?z] =>
      pose proof (partition_loop_perm f d x y z) as H;
      destruct (partition_loop less f d x y z) as [d' j'] end.
    simpl in *. by rewrite Swap_perm, H, !Swap_perm.
Qed.

Lemma partitionEqual_loop_perm (fuel : nat) (data : list A) (a i j : nat) :
  (partitionEqual_loop less fuel data a i j).1 ≡ₚ data.
Proof.
  revert data i j. induction fuel as [|fuel IH]; intros data i j; simpl; [reflexivity|].
  match goal with |- context [if ?c then _ else _] => destruct c end; [reflexivity|].
  rewrite IH. apply Swap_perm.
Qed.

Lemma partitionEqual_perm (data : list A) (a b pivot : nat) :
  (partitionEqual_func less data a b pivot).1 ≡ₚ data.
Proof. unfold partitionEqual_func. rewrite partitionEqual_loop_perm. apply Swap_perm. Qed.

Lemma shift_left_perm (data : list A) (j : nat) : shift_left less data j ≡ₚ data.
Proof.
  revert data. induction j as [|j IH]; intros data; simpl; [reflexivity|].
  destruct (Less less data (S j) j); [|reflexivity]. rewrite IH. apply Swap_perm.
Qed.

Lemma shift_right_perm (fuel : nat) (data : list A) (j b : nat) :
  shift_right less fuel data j b ≡ₚ data.
Proof.
  revert data j. induction fuel as [|fuel IH]; intros data j; simpl; [reflexivity|].
  match goal with |- context [if ?c then _ else _] => destruct c end; [|reflexivity].
  rewrite IH. apply Swap_perm.
Qed.

Lemma partialInsertionSort_loop_perm (steps : nat) (data : list A) (a b i : nat) :
  (partialInsertionSort_loop less steps data a b i).1 ≡ₚ data.
Proof.
  revert data i. induction steps as [|steps IH]; intros data i; simpl; [reflexivity|].
  destruct (_ =? b); [reflexivity|]. destruct (b - a <? 50); [reflexivity|].
  rewrite IH.
  transitivity (Swap data (skip_ordered less (length data) data i b)
                          (skip_ordered less (length data) data i b - 1));
    [|apply Swap_perm].
  match goal with |- (if ?c then _ else ?d) ≡ₚ _ =>
    transitivity d; [destruct c; [apply shift_right_perm|reflexivity]|] end.
  match goal with |- (if ?c then _ else ?d) ≡ₚ _ =>
    destruct c; [apply shift_left_perm|reflexivity] end.
Qed.

Lemma breakPatterns_loop_perm (n : nat) (data : list A) (a length idx modulus i : nat)
    (random : N) :
  breakPatterns_loop n data a length idx modulus i random ≡ₚ data.
Proof.
  revert data i random. induction n as [|n IH]; intros data i random; simpl;
    [reflexivity|].
  rewrite IH. apply Swap_perm.
Qed.

Lemma breakPatterns_perm (data : list A) (a b : nat) :
  breakPatterns_func data a b ≡ₚ data.
Proof.
  unfold breakPatterns_func. destruct (8 <=? b - a); [|reflexivity].
  apply breakPatterns_loop_perm.
Qed.

Lemma reverseRange_loop_perm (fuel : nat) (data : list A) (i j : nat) :
  reverseRange_loop fuel data i j ≡ₚ data.
Proof.
  revert data i j. induction fuel as [|fuel IH]; intros data i j; simpl; [reflexivity|].
  destruct (i <? j); [|reflexivity]. rewrite IH. apply Swap_perm.
Qed.

Lemma pdqsort_loop_perm (fuel : nat) (data : list A) (a b limit : nat)
    (wasBalanced wasPartitioned : bool) :
  pdqsort_loop less fuel data a b limit wasBalanced wasPartitioned ≡ₚ data.
Proof.
  revert data a b limit wasBalanced wasPartitioned.
  induction fuel as [|fuel IH]; intros data a b limit wasBalanced wasPartitioned;
    simpl.
  - destruct (b - a <=? 12); [apply insertionSort_perm|].
    destruct (limit =? 0); [apply heapSort_perm|reflexivity].
  - destruct (b - a <=? 12); [apply insertionSort_perm|].
    destruct (limit =? 0); [apply heapSort_perm|].
    set (d1 := if negb wasBalanced then (breakPatterns_func data a b, limit - 1)
               else (data, limit)).
    assert (H1 : d1.1 ≡ₚ data).
    { unfold d1. destruct wasBalanced; simpl; [reflexivity|apply breakPatterns_perm]. }
    destruct d1 as [data1 limit1]. simpl in H1.
    destruct (choosePivot_func less data1 a b) as [pivot hint].
    set (d2 := if is_decreasing hint
               then (reverseRange_func data1 a b, b - 1 - (pivot - a), increasingHint)
               else (data1, pivot, hint)).
    assert (H2 : d2.1.1 ≡ₚ data).
    { unfold d2. destruct (is_decreasing hint); simpl; [|exact H1].
      unfold reverseRange_func. by rewrite reverseRange_loop_perm. }
    destruct d2 as [[data2 pivot2] hint2]. simpl in H2.
    set (d3 := if wasBalanced && wasPartitioned && is_increasing hint2
               then partialInsertionSort_func less data2 a b else (data2, false)).
    assert (H3 : d3.1 ≡ₚ data).
    { unfold d3. destruct (wasBalanced && wasPartitioned && is_increasing hint2);
        simpl; [|exact H2].
      unfold partialInsertionSort_func. by rewrite partialInsertionSort_loop_perm. }
    destruct d3 as [data3 sorted]. simpl in H3.
    destruct sorted; [exact H3|].
    destruct ((0 <? a) && negb (Less less data3 (a - 1) pivot2)).
    + pose proof (partitionEqual_perm data3 a b pivot2) as H4.
      destruct (partitionEqual_func less data3 a b pivot2) as [data4 mid]. simpl in H4.
      by rewrite IH, H4.
    + pose proof (partition_perm data3 a b pivot2) as H4.
      destruct (partition_func less data3 a b pivot2) as [[data4 mid] already].
      simpl in H4.
      destruct (mid - a <? b - mid); by rewrite !IH, H4.
Qed.

(** [sort.Slice] returns a permutation of the slice. *)
Lemma Slice_perm (x : list A) : Slice less x ≡ₚ x.
Proof. unfold Slice, pdqsort_func. apply pdqsort_loop_perm. Qed.


(** *** Up to twelve elements: insertion sort *)

(** [x] put behind [p] and moved to the left as long as it is [less] than
    its left neighbour: it ends before the longest suffix of [p] whose
    elements [y] all have [less x y]. *)
Fixpoint insr (x : A) (p : list A) : list A :=
  match p with
  | [] => [x]
  | y :: p' => if forallb (less x) p then x :: p else y :: insr x p'
  end.

Lemma insr_snoc (x y : A) (pre : list A) :
  insr x (pre ++ [y]) = if less x y then insr x pre ++ [y] else pre ++ [y; x].
Proof.
  induction pre as [|z pre IH].
  - simpl. destruct (less x y); reflexivity.
  - change (insr x ((z :: pre) ++ [y]))
      with (if forallb (less x) (z :: pre ++ [y]) then x :: z :: pre ++ [y]
            else z :: insr x (pre ++ [y])).
    rewrite IH. simpl. rewrite forallb_app. simpl.
    destruct (less x y); simpl.
    + rewrite !andb_true_r. destruct (less x z && forallb (less x) pre); reflexivity.
    + rewrite !andb_false_r. reflexivity.
Qed.

Lemma insert_down_insr (q : list A) (x : A) (rest : list A) :
  insert_down less (q ++ x :: rest) 0 (length q) = insr x q ++ rest.
Proof.
  revert rest. induction q as [|y pre IH] using rev_ind; intros rest; [reflexivity|].
  rewrite length_app. simpl. rewrite Nat.add_1_r. simpl.
  assert (Hx : ((pre ++ [y]) ++ x :: rest) !! S (length pre) = Some x).
  { rewrite <- app_assoc. simpl. rewrite lookup_app_r by lia.
    by replace (S (length pre) - length pre) with 1 by lia. }
  assert (Hy : ((pre ++ [y]) ++ x :: rest) !! length pre = Some y).
  { rewrite <- !app_assoc. simpl. by rewrite list_lookup_middle. }
  unfold Less, Swap. rewrite Hx, Hy. rewrite insr_snoc.
  destruct (less x y).
  - replace (<[S (length pre) := y]> (<[length pre := x]> ((pre ++ [y]) ++ x :: rest)))
      with (pre ++ x :: y :: rest).
    + rewrite IH. by rewrite <- app_assoc.
    + rewrite <- !app_assoc. simpl.
      rewrite (insert_app_r_alt pre _ (length pre)) by lia.
      rewrite Nat.sub_diag. simpl.
      rewrite (insert_app_r_alt pre _ (S (length pre))) by lia.
      by replace (S (length pre) - length pre) with 1 by lia.
  - by rewrite <- !app_assoc.
Qed.

Lemma length_insr (x : A) (p : list A) : length (insr x p) = S (length p).
Proof.
  induction p as [|y p IH]; [reflexivity|].
  simpl. destruct (less x y && forallb (less x) p); simpl; by rewrite ?IH.
Qed.

Lemma fold_insert_down (p rest : list A) :
  fold_left (fun d i => insert_down less d 0 i) (seq (length p) (length rest)) (p ++ rest) =
  fold_left (fun p x => insr x p) rest p.
Proof.
  revert p. induction rest as [|x rest IH]; intros p; simpl; [apply app_nil_r|].
  rewrite insert_down_insr. rewrite <- (length_insr x p). apply IH.
Qed.

(** Insertion sort on the whole slice. *)
Definition isort (x : list A) : list A := fold_left (fun p e => insr e p) x [].

Lemma insertionSort_isort (x : list A) :
  insertionSort_func less x 0 (length x) = isort x.
Proof.
  unfold insertionSort_func, isort. destruct x as [|e x]; [reflexivity|].
  simpl. rewrite Nat.sub_0_r. apply (fold_insert_down [e] x).
Qed.

Lemma Slice_small (x : list A) : length x <= 12 -> Slice less x = isort x.
Proof.
  intros Hx. unfold Slice, pdqsort_func.
  destruct (length x - 0) eqn:E; simpl; rewrite Nat.sub_0_r;
    (destruct (length x <=? 12) eqn:E'; [|apply Nat.leb_gt in E'; lia]);
    apply insertionSort_isort.
Qed.

Lemma insr_perm (x : A) (p : list A) : insr x p ≡ₚ x :: p.
Proof.
  induction p as [|y p IH]; [reflexivity|].
  simpl. destruct (less x y && forallb (less x) p); [reflexivity|].
  rewrite IH. apply perm_swap.
Qed.

End SliceFacts.

(** *** Sorting by a key *)

Section Keyed.

Context {A : Type}.
Variable key : A -> Z.

Definition less_key (x y : A) : bool := bool_decide (key x < key y)%Z.

Definition le_key (x y : A) : Prop := (key x <= key y)%Z.

Lemma insr_sorted (x : A) (p : list A) :
  StronglySorted le_key p -> StronglySorted le_key (insr less_key x p).
Proof.
  induction 1 as [|y p Hp IH Hy]; [repeat constructor|].
  simpl. destruct (less_key x y && forallb (less_key x) p) eqn:E.
  - constructor; [by constructor|].
    apply andb_true_iff in E as [E1 E2].
    constructor.
    + unfold less_key in E1. apply bool_decide_eq_true in E1. unfold le_key. lia.
    + rewrite forallb_forall in E2. apply Forall_forall. intros z Hz.
      apply list_elem_of_In, E2 in Hz. unfold less_key in Hz.
      apply bool_decide_eq_true in Hz. unfold le_key. lia.
  - constructor; [exact IH|]. rewrite insr_perm. constructor; [|exact Hy].
    apply andb_false_iff in E as [E|E].
    + unfold less_key in E. apply bool_decide_eq_false in E. unfold le_key. lia.
    + assert (Hex : exists z, z ∈ p /\ (key z <= key x)%Z).
      { clear - E. induction p as [|z p IH]; [discriminate|].
        simpl in E. apply andb_false_iff in E as [E|E].
        - exists z. split; [left|]. unfold less_key in E.
          apply bool_decide_eq_false in E. lia.
        - destruct (IH E) as (z' & Hz' & Hle). exists z'. split; [by right|exact Hle]. }
      destruct Hex as (z & Hz & Hle). rewrite Forall_forall in Hy.
      specialize (Hy z Hz). unfold le_key in *. lia.
Qed.

Definition has_key (k : Z) (x : A) : bool := (key x =? k)%Z.

Lemma filter_above (k : Z) (x : A) (l : list A) :
  forallb (less_key x) l = true -> key x = k -> List.filter (has_key k) l = [].
Proof.
  intros E <-. induction l as [|z l IH]; [reflexivity|].
  simpl in *. apply andb_true_iff in E as [Hz E].
  unfold less_key in Hz. apply bool_decide_eq_true in Hz.
  unfold has_key at 1. destruct (key z =? key x)%Z eqn:Ez;
    [apply Z.eqb_eq in Ez; lia|].
  by apply IH.
Qed.

Lemma insr_stable (k : Z) (x : A) (p : list A) :
  List.filter (has_key k) (insr less_key x p) =
  List.filter (has_key k) p ++ List.filter (has_key k) [x].
Proof.
  induction p as [|y p IH]; [by rewrite app_nil_l|].
  simpl insr. destruct (less_key x y && forallb (less_key x) p) eqn:E.
  - change (forallb (less_key x) (y :: p) = true) in E.
    change (List.filter (has_key k) (x :: y :: p))
      with (if has_key k x then x :: List.filter (has_key k) (y :: p)
            else List.filter (has_key k) (y :: p)).
    change (List.filter (has_key k) [x]) with (if has_key k x then [x] else []).
    destruct (has_key k x) eqn:Ek; [|by rewrite app_nil_r].
    apply Z.eqb_eq in Ek. by rewrite (filter_above k x (y :: p) E Ek).
  - simpl. destruct (has_key k y); simpl; by rewrite IH.
Qed.

Lemma isort_sorted (x : list A) : StronglySorted le_key (isort less_key x).
Proof.
  unfold isort. assert (H : StronglySorted le_key []) by constructor.
  revert H. generalize (@nil A). induction x as [|e x IH]; intros p Hp; [exact Hp|].
  simpl. apply IH. by apply insr_sorted.
Qed.

Lemma isort_stable (k : Z) (x : list A) :
  List.filter (has_key k) (isort less_key x) = List.filter (has_key k) x.
Proof.
  unfold isort.
  assert (H : forall p, List.filter (has_key k) (fold_left (fun p e => insr less_key e p) x p)
                        = List.filter (has_key k) p ++ List.filter (has_key k) x).
  { induction x as [|e x IH]; intros p; simpl fold_left.
    - by rewrite app_nil_r.
    - rewrite IH, insr_stable. rewrite <- app_assoc. f_equal.
      simpl. destruct (has_key k e); reflexivity. }
  apply (H []).
Qed.

End Keyed.

End sort.

(** ** reporter *)

Module reporter.

(** reporter.go.  A [Reporter] holds a slice of pointers to findings; it
    reads the findings through them and never writes one.  It is given
    here by the findings its pointers lead to, in the order of the
    slice; a method that changes the slice returns the new reporter. *)
Record Reporter : Type := { findings : list Finding }.

Definition NewReporter (findings : list Finding) : Reporter :=
  {| findings := findings |}.

Definition groupBySeverity (r : Reporter) : gmap string (list Finding) :=
  let groups : gmap string (list Finding) := ∅ in
  let groups := <[SeverityCritical := []]> groups in
  let groups := <[SeverityHigh := []]> groups in
  let groups := <[SeverityMedium := []]> groups in
  let groups := <[SeverityLow := []]> groups in
  fold_left (fun groups finding =>
               <[Severity finding :=
                   default [] (groups !! Severity finding) ++ [finding]]> groups)
            (findings r) groups.

(** The lines [printSummary] prints. *)
Definition printSummary (r : Reporter) : list string :=
  let bySeverity := groupBySeverity r in
  [ ""; "Summary:";
    "  Total Findings: " +:+ pretty (length (findings r));
    "  Critical: " +:+ pretty (length (default [] (bySeverity !! SeverityCritical)));
    "  High: " +:+ pretty (length (default [] (bySeverity !! SeverityHigh)));
    "  Medium: " +:+ pretty (length (default [] (bySeverity !! SeverityMedium)));
    "  Low: " +:+ pretty (length (default [] (bySeverity !! SeverityLow)));
    "" ].

Definition severityOrder : gmap string Z :=
  {[ SeverityCritical := 0; SeverityHigh := 1; SeverityMedium := 2;
     SeverityLow := 3 ]}.

(** [severityOrder[finding.Severity]]: zero for a key that is missing. *)
Definition rank (finding : Finding) : Z :=
  default 0 (severityOrder !! Severity finding).

Definition SortBySeverity (r : Reporter) : Reporter :=
  {| findings :=
       sort.Slice (fun x y => bool_decide (rank x < rank y)) (findings r) |}.

(** The findings of a severity. *)
Definition of_severity (severity : string) (l : list Finding) : list Finding :=
  List.filter (fun f => bool_decide (Severity f = severity)) l.

Lemma group_fold (l : list Finding) (groups : gmap string (list Finding))
    (severity : string) :
  let groups' :=
    fold_left (fun groups finding =>
                 <[Severity finding :=
                     default [] (groups !! Severity finding) ++ [finding]]> groups)
              l groups in
  default [] (groups' !! severity)
    = default [] (groups !! severity) ++ of_severity severity l /\
  (is_Some (groups' !! severity) <->
   is_Some (groups !! severity) \/ exists f, f ∈ l /\ Severity f = severity).
Proof.
  revert groups. induction l as [|f l IH]; intros groups; simpl.
  - rewrite app_nil_r. split; [reflexivity|]. split; [auto|].
    intros [H|(f & Hf & _)]; [exact H|]. by apply elem_of_nil in Hf.
  - destruct (IH (<[Severity f := default [] (groups !! Severity f) ++ [f]]> groups))
      as [H1 H2].
    split.
    + rewrite H1. unfold of_severity. simpl.
      destruct (decide (Severity f = severity)) as [E|E].
      * rewrite E, lookup_insert_eq. simpl.
        rewrite bool_decide_eq_true_2 by reflexivity. by rewrite <- app_assoc.
      * rewrite lookup_insert_ne by exact E.
        by rewrite bool_decide_eq_false_2 by exact E.
    + rewrite H2. destruct (decide (Severity f = severity)) as [E|E].
      * rewrite E, lookup_insert_eq. split.
        -- intros _. right. exists f. split; [left|exact E].
        -- intros _. left. eauto.
      * rewrite lookup_insert_ne by exact E. split.
        -- intros [H|(g & Hg & Eg)]; [by left|]. right. exists g. split; [by right|exact Eg].
        -- intros [H|(g & Hg & Eg)]; [by left|].
           apply elem_of_cons in Hg as [->|Hg]; [contradiction|]. right. eauto.
Qed.

Lemma group_lookup (r : Reporter) (severity : string) :
  default [] (groupBySeverity r !! severity) = of_severity severity (findings r).
Proof.
  unfold groupBySeverity. cbv zeta.
  edestruct (group_fold (findings r)) as [H1 _]. rewrite H1.
  destruct (decide (severity = SeverityLow)) as [->|E1]; [reflexivity|].
  rewrite lookup_insert_ne by congruence.
  destruct (decide (severity = SeverityMedium)) as [->|E2]; [reflexivity|].
  rewrite lookup_insert_ne by congruence.
  destruct (decide (severity = SeverityHigh)) as [->|E3]; [reflexivity|].
  rewrite lookup_insert_ne by congruence.
  destruct (decide (severity = SeverityCritical)) as [->|E4]; [reflexivity|].
  rewrite lookup_insert_ne by congruence. reflexivity.
Qed.

(** X14. [groupBySeverity] maps each severity to the findings of that
    severity, in the order of the slice.  The four known severities are
    always keys of the map; any other text is a key exactly when a
    finding carries it as its severity (it gets a group of its own). *)
Theorem groupBySeverity_groups (r : Reporter) (severity : string) :
  default [] (groupBySeverity r !! severity) = of_severity severity (findings r) /\
  (is_Some (groupBySeverity r !! severity) <->
   severity ∈ [SeverityCritical; SeverityHigh; SeverityMedium; SeverityLow] \/
   exists f, f ∈ findings r /\ Severity f = severity).
Proof.
  split; [apply group_lookup|].
  unfold groupBySeverity. cbv zeta.
  edestruct (group_fold (findings r)) as [_ H2].
  rewrite H2. clear.
  assert (H : is_Some ((<[SeverityLow := []]> (<[SeverityMedium := []]>
                (<[SeverityHigh := []]> (<[SeverityCritical := []]> ∅)))
                : gmap string (list Finding)) !! severity) <->
              severity ∈ [SeverityCritical; SeverityHigh; SeverityMedium; SeverityLow]).
  { rewrite !lookup_insert_is_Some, lookup_empty, is_Some_alt.
    rewrite !elem_of_cons, elem_of_nil.
    destruct (decide (SeverityLow = severity)), (decide (SeverityMedium = severity)),
      (decide (SeverityHigh = severity)), (decide (SeverityCritical = severity));
      intuition congruence. }
  by rewrite H.
Qed.


(** A finding whose severity is one of the four the reporter knows. *)
Definition known (f : Finding) : bool :=
  bool_decide (Severity f ∈ [SeverityCritical; SeverityHigh; SeverityMedium; SeverityLow]).

Lemma count_by_severity (l : list Finding) :
  (length (of_severity SeverityCritical l) + length (of_severity SeverityHigh l)
   + length (of_severity SeverityMedium l) + length (of_severity SeverityLow l)
   + length (List.filter (fun f => negb (known f)) l) = length l)%nat.
Proof.
  induction l as [|f l IH]; [reflexivity|].
  unfold of_severity, known in *. simpl.
  destruct (decide (Severity f = SeverityCritical)) as [E|E1].
  { rewrite E. simpl. lia. }
  destruct (decide (Severity f = SeverityHigh)) as [E|E2].
  { rewrite E. simpl. lia. }
  destruct (decide (Severity f = SeverityMedium)) as [E|E3].
  { rewrite E. simpl. lia. }
  destruct (decide (Severity f = SeverityLow)) as [E|E4].
  { rewrite E. simpl. lia. }
  rewrite !(bool_decide_eq_false_2 (Severity f = _)) by assumption.
  rewrite (bool_decide_eq_false_2 (Severity f ∈ _)).
  - simpl. lia.
  - rewrite !elem_of_cons, elem_of_nil. tauto.
Qed.

Lemma printSummary_lines (r : Reporter) :
  printSummary r =
    [ ""; "Summary:";
      "  Total Findings: " +:+ pretty (length (findings r));
      "  Critical: " +:+ pretty (length (of_severity SeverityCritical (findings r)));
      "  High: " +:+ pretty (length (of_severity SeverityHigh (findings r)));
      "  Medium: " +:+ pretty (length (of_severity SeverityMedium (findings r)));
      "  Low: " +:+ pretty (length (of_severity SeverityLow (findings r)));
      "" ].
Proof. unfold printSummary. cbv zeta. by rewrite !group_lookup. Qed.

(** X15. The summary: [printSummary] prints the number of findings and,
    for each of the four known severities, the number of findings of that
    severity.  A finding of any other severity is counted in the total
    and in none of the four lines, so the four numbers add up to the
    total less the number of such findings. *)
Theorem printSummary_counts (r : Reporter) :
  let n := fun severity => length (of_severity severity (findings r)) in
  printSummary r =
    [ ""; "Summary:";
      "  Total Findings: " +:+ pretty (length (findings r));
      "  Critical: " +:+ pretty (n SeverityCritical);
      "  High: " +:+ pretty (n SeverityHigh);
      "  Medium: " +:+ pretty (n SeverityMedium);
      "  Low: " +:+ pretty (n SeverityLow);
      "" ] /\
  (n SeverityCritical + n SeverityHigh + n SeverityMedium + n SeverityLow
   + length (List.filter (fun f => negb (known f)) (findings r))
   = length (findings r))%nat.
Proof.
  intros n. split; [apply printSummary_lines|apply count_by_severity].
Qed.

(** X16. [SortBySeverity] keeps the findings: the sorted slice is a
    permutation of the slice, whatever its length; nothing is dropped
    and nothing is repeated. *)
Theorem SortBySeverity_permutation (r : Reporter) :
  findings (SortBySeverity r) ≡ₚ findings r /\
  length (findings (SortBySeverity r)) = length (findings r).
Proof.
  assert (H : findings (SortBySeverity r) ≡ₚ findings r) by apply sort.Slice_perm.
  split; [exact H|]. by rewrite H.
Qed.

(** X17. Up to twelve findings (where [sort.Slice] is an insertion
    sort), [SortBySeverity] sorts by severity and is stable: the ranks
    are in order CRITICAL, HIGH, MEDIUM, LOW, and the findings of one
    rank keep their order.  A severity that is none of the four has rank
    zero: such findings are sorted among the CRITICAL ones. *)
Theorem SortBySeverity_small (r : Reporter) :
  (length (findings r) <= 12)%nat ->
  StronglySorted (fun x y => rank x <= rank y) (findings (SortBySeverity r)) /\
  (forall k, List.filter (fun f => rank f =? k) (findings (SortBySeverity r))
             = List.filter (fun f => rank f =? k) (findings r)) /\
  (forall f, rank f = if known f
                      then default 0 (severityOrder !! Severity f) else 0).
Proof.
  intros Hlen. unfold SortBySeverity. simpl.
  change (fun x y => bool_decide (rank x < rank y)) with (sort.less_key rank).
  rewrite sort.Slice_small by exact Hlen.
  split; [apply (sort.isort_sorted rank)|]. split; [intros k; apply (sort.isort_stable rank)|].
  intros f. unfold rank, known. case_bool_decide as Hk; [reflexivity|].
  rewrite !elem_of_cons, elem_of_nil in Hk.
  unfold severityOrder.
  rewrite !lookup_insert_ne by (intros E; apply Hk; rewrite <- E; auto 6).
  by rewrite lookup_singleton_ne by (intros E; apply Hk; rewrite <- E; auto 6).
Qed.

Definition example_findings : list Finding :=
  [ mfa_finding "ana"; public_bucket_finding "site"; versioning_finding "site";
    encryption_finding "logs"; all_ports_finding "sg-1" "web" ].

Lemma SortBySeverity_small_witness :
  StronglySorted (fun x y => rank x <= rank y)
    (findings (SortBySeverity (NewReporter example_findings))) /\
  (forall k,
     List.filter (fun f => rank f =? k)
       (findings (SortBySeverity (NewReporter example_findings)))
     = List.filter (fun f => rank f =? k) (findings (NewReporter example_findings))) /\
  (forall f, rank f = if known f
                      then default 0 (severityOrder !! Severity f) else 0).
Proof.
  apply (SortBySeverity_small (NewReporter example_findings)). simpl. lia.
Defined.

(** The example sorted: the two CRITICAL findings, then the two HIGH
    ones, then the MEDIUM one, each group in its former order. *)
Example SortBySeverity_example :
  map (fun f => (Severity f, ResourceID f))
      (findings (SortBySeverity (NewReporter example_findings)))
  = [ ("CRITICAL", "site"); ("CRITICAL", "sg-1"); ("HIGH", "ana");
      ("HIGH", "logs"); ("MEDIUM", "site") ].
Proof. vm_compute. reflexivity. Qed.

(** Beyond twelve findings the sort is not stable: of one HIGH finding
    followed by twelve CRITICAL ones, the seventh CRITICAL one comes
    first. *)
Example SortBySeverity_not_stable :
  map ResourceID
      (findings (SortBySeverity (NewReporter
         (mfa_finding "u" :: map public_bucket_finding
            ["b01"; "b02"; "b03"; "b04"; "b05"; "b06"; "b07"; "b08"; "b09";
             "b10"; "b11"; "b12"]))))
  = ["b06"; "b01"; "b02"; "b03"; "b04"; "b05"; "b07"; "b08"; "b09";
     "b10"; "b11"; "b12"; "u"].
Proof. vm_compute. reflexivity. Qed.

(** The summary of the example. *)
Example printSummary_example :
  printSummary (NewReporter example_findings)
  = [ ""; "Summary:"; "  Total Findings: 5"; "  Critical: 2"; "  High: 2";
      "  Medium: 1"; "  Low: 0"; "" ].
Proof. vm_compute. reflexivity. Qed.

End reporter.

(** ** The report and the exit status *)

Lemma filter_length_perm {X : Type} (c : X -> bool) (l l' : list X) :
  l ≡ₚ l' -> length (List.filter c l) = length (List.filter c l').
Proof.
  induction 1 as [|x l l' _ IH|x y l|l l' l'' _ IH1 _ IH2]; simpl.
  - reflexivity.
  - destruct (c x); simpl; by rewrite IH.
  - destruct (c x), (c y); reflexivity.
  - by rewrite IH1.
Qed.

Lemma length_omap_filter (h : list Finding) (severity : string) (ps : list loc) :
  length (omap (fun p => h !! p) (List.filter (has_severity h severity) ps))
  = length (List.filter (has_severity h severity) ps).
Proof.
  induction ps as [|p ps IH]; [reflexivity|].
  simpl. destruct (has_severity h severity p) eqn:E; [|exact IH].
  unfold has_severity in E. destruct (h !! p) as [f|] eqn:Hf; [|discriminate].
  unfold omap in *. simpl. unfold loc in *. rewrite Hf. simpl. by rewrite IH.
Qed.

(** X18. The report and the exit status agree.  [main] builds the
    reporter from [GetFindings], sorts it, prints it, and then exits with
    status 1 when [GetCriticalFindings] is not empty: the number of
    findings [GetCriticalFindings] returns is the number on the
    "Critical:" line of the summary, whether the reporter was sorted or
    not. *)
Theorem summary_agrees_with_critical (w : World) :
  wf w ->
  exists fs critical,
    run GetFindings w = Some (fs, w) /\
    run GetCriticalFindings w = Some (critical, w) /\
    let rep := reporter.NewReporter (omap (fun p => heap w !! p) fs) in
    nth_error (reporter.printSummary rep) 3
      = Some ("  Critical: " +:+ pretty (length critical)) /\
    nth_error (reporter.printSummary (reporter.SortBySeverity rep)) 3
      = Some ("  Critical: " +:+ pretty (length critical)).
Proof.
  intros Hwf.
  exists (s_findings w),
    (List.filter (has_severity (heap w) SeverityCritical) (s_findings w)).
  split; [reflexivity|]. split.
  { unfold GetCriticalFindings, GetFindingsBySeverity. simpl.
    rewrite run_filter_severity by exact Hwf. reflexivity. }
  assert (Hlen : length (List.filter (has_severity (heap w) SeverityCritical) (s_findings w))
                 = length (reporter.of_severity SeverityCritical (findings_of w))).
  { unfold reporter.of_severity, findings_of.
    rewrite <- omap_filter_has_severity. symmetry. apply length_omap_filter. }
  cbv zeta. fold (findings_of w). rewrite !reporter.printSummary_lines. simpl.
  rewrite Hlen. split; [reflexivity|].
  do 3 f_equal. unfold reporter.of_severity. apply filter_length_perm.
  apply sort.Slice_perm.
Qed.

Lemma summary_agrees_with_critical_witness :
  exists fs critical,
    run GetFindings demo_store = Some (fs, demo_store) /\
    run GetCriticalFindings demo_store = Some (critical, demo_store) /\
    let rep := reporter.NewReporter (omap (fun p => heap demo_store !! p) fs) in
    nth_error (reporter.printSummary rep) 3
      = Some ("  Critical: " +:+ pretty (length critical)) /\
    nth_error (reporter.printSummary (reporter.SortBySeverity rep)) 3
      = Some ("  Critical: " +:+ pretty (length critical)).
Proof. apply (summary_agrees_with_critical demo_store). apply wf_demo_store. Defined.
